(** * mytodo: the offline synchronisation engine and the tag removal of the
    task list, embedded from [sync-manager.js] and [scripts/app.js].

    [SyncManager] is the class of the same name: IndexedDB object stores,
    the pending-operation queue, the drain pass with its retry policy,
    backup/restore and the status snapshot.  [TodoApp] is the UI controller
    of [scripts/app.js], of which only the state (tasks, tags, saved copy)
    is modelled.

    Asynchronous methods are state transformers over a [World] returning an
    [Outcome]: a promise resolves, rejects, or never settles.  What the
    code leaves to its environment (the clock, the remote delivery, the
    IndexedDB request events) is scripted inside the [World], so every
    definition evaluates. *)

From Stdlib Require Import String Ascii List ZArith Bool Lia.
Import ListNotations.
Open Scope string_scope.
Open Scope list_scope.
Open Scope Z_scope.

(** ** Object stores

    An IndexedDB object store with an in-line [keyPath]: records are
    enumerated in ascending key order, [put] replaces the record that has
    the same key. *)

Module ObjectStore.

(** IndexedDB orders string keys by their UTF-16 code units.  On the
    UTF-8 bytes of a string this is the order of the bytes, except that
    the lead bytes EE and EF (U+E000 to U+FFFF, one code unit each, above
    every surrogate) come after the lead bytes F0 to F4 (the characters
    beyond U+FFFF, which start with a surrogate). *)
Definition rank (c : Ascii.ascii) : N :=
  let n := Ascii.N_of_ascii c in
  if ((n =? 238) || (n =? 239))%N then (n + 18)%N else n.

Fixpoint keyCompare (a b : string) : comparison :=
  match a, b with
  | EmptyString, EmptyString => Eq
  | EmptyString, String _ _ => Lt
  | String _ _, EmptyString => Gt
  | String x a', String y b' =>
      match N.compare (rank x) (rank y) with
      | Eq => keyCompare a' b'
      | c => c
      end
  end.

Section WithKeyPath.
Context {R : Type} (keyPath : R -> string).

Fixpoint put (r : R) (s : list R) : list R :=
  match s with
  | [] => [r]
  | x :: s' =>
      match keyCompare (keyPath r) (keyPath x) with
      | Lt => r :: x :: s'
      | Eq => r :: s'
      | Gt => x :: put r s'
      end
  end.

Definition delete (k : string) (s : list R) : list R :=
  filter (fun x => negb (keyPath x =? k)%string) s.

Definition get (k : string) (s : list R) : option R :=
  find (fun x => (keyPath x =? k)%string) s.

Definition getAll (s : list R) : list R := s.

Definition clear (s : list R) : list R := [].
End WithKeyPath.
End ObjectStore.

(** ** GotAll of the four stores *)

Module Task.
Record t := mk
  { id : string; title : string; tag : string; due : string;
    done : bool; createdAt : Z; updatedAt : Z; synced : bool }.
End Task.

Module Tag.
Record t := mk { name : string; createdAt : Z }.
End Tag.

Module Meta.
Record t := mk { key : string; value : string; updatedAt : Z }.
End Meta.

Module SyncItem.
Record t := mk
  { id : string; operation : string; entityType : string; data : string;
    timestamp : Z; retryCount : Z; maxRetries : Z }.

(** [item.retryCount++] *)
Definition bump (item : t) : t :=
  mk (id item) (operation item) (entityType item) (data item)
     (timestamp item) (retryCount item + 1) (maxRetries item).
End SyncItem.

Module SyncManager.

Inductive StoreName := Tasks | Tags | PendingSync | Metadata.

Definition RecordOf (s : StoreName) : Type :=
  match s with
  | Tasks => Task.t
  | Tags => Tag.t
  | PendingSync => SyncItem.t
  | Metadata => Meta.t
  end.

(** The [keyPath] given to [createObjectStore] in [initIndexedDB]. *)
Definition keyPath (s : StoreName) : RecordOf s -> string :=
  match s with
  | Tasks => Task.id
  | Tags => Tag.name
  | PendingSync => SyncItem.id
  | Metadata => Meta.key
  end.

Record Database := mkDatabase
  { tasks : list Task.t; tags : list Tag.t;
    pendingSync : list SyncItem.t; metadata : list Meta.t }.

Definition objectStore (s : StoreName) (d : Database) : list (RecordOf s) :=
  match s with
  | Tasks => tasks d
  | Tags => tags d
  | PendingSync => pendingSync d
  | Metadata => metadata d
  end.

Definition setObjectStore (s : StoreName) : list (RecordOf s) -> Database -> Database :=
  match s with
  | Tasks => fun l d => mkDatabase l (tags d) (pendingSync d) (metadata d)
  | Tags => fun l d => mkDatabase (tasks d) l (pendingSync d) (metadata d)
  | PendingSync => fun l d => mkDatabase (tasks d) (tags d) l (metadata d)
  | Metadata => fun l d => mkDatabase (tasks d) (tags d) (pendingSync d) l
  end.

Definition setQueue (queue : list SyncItem.t) (d : Database) : Database :=
  setObjectStore PendingSync queue d.

(** ** Errors, outcomes, observable events *)

Inductive Error :=
| NotInitialized                 (* new Error('IndexedDB not initialized') *)
| StoreError (reason : string)   (* request.error *)
| DeliveryFailure                (* new Error('Simulated sync failure') *)
| OfflineError                   (* new Error('Cannot sync while offline') *)
| InvalidFormat                  (* new Error('Invalid backup format') *)
| SetItemError (reason : string) (* what localStorage.setItem threw *)
| TypeError (reason : string).   (* property access on null *)

(** [error.message] *)
Definition message (e : Error) : string :=
  match e with
  | NotInitialized => "IndexedDB not initialized"
  | StoreError reason => reason
  | DeliveryFailure => "Simulated sync failure"
  | OfflineError => "Cannot sync while offline"
  | InvalidFormat => "Invalid backup format"
  | SetItemError reason => reason
  | TypeError reason => reason
  end.

(** The three states of a promise once the computation has gone as far as
    it can. *)
Inductive Outcome (A : Type) :=
| Resolved (a : A)
| Rejected (e : Error)
| Pending.
Arguments Resolved {A} a.
Arguments Rejected {A} e.
Arguments Pending {A}.

Inductive Event :=
| IdbGetAll (s : StoreName)
| IdbGet (s : StoreName) (k : string)
| IdbPut (s : StoreName) (k : string)
| IdbDelete (s : StoreName) (k : string)
| IdbClear (s : StoreName)
| Delivery (item : SyncItem.t)                       (* syncSingleItem(item) *)
| SyncComplete (success : bool) (error : option string) (timestamp : Z).
                                                     (* CustomEvent('syncComplete') *)

(** One simulated remote call: the timer delay it waited (500..1500 ms)
    and whether the failure draw [Math.random() < 0.1] came out true. *)
Record Attempt := mkAttempt { elapsed : Z; fails : bool }.

Record LocalData := mkLocalData
  { ld_tasks : list Task.t; ld_tags : list string; ld_theme : string }.

(** The two keys the manager uses; values are kept parsed. *)
Record LocalStorage := mkLocalStorage
  { ls_todoApp : option LocalData;       (* key 'todoApp' *)
    ls_lastSyncTime : option Z }.        (* key 'lastSyncTime' *)

Record World := mkWorld
  { isOnline : bool;                     (* this.isOnline, kept by the window listeners *)
    lastSyncTime : option Z;
    db : option Database;                (* this.db, null until opened *)
    localStorage : LocalStorage;
    trace : list Event;                  (* effects so far, oldest first *)
    now : Z;                             (* Date.now() *)
    attempts : list Attempt;             (* the remote calls to come *)
    idbFaults : list (option string);    (* per request to come: its error, if any *)
    lsFaults : list (option string) }.   (* per setItem to come: what it throws, if anything *)

Definition setOnline (b : bool) (w : World) : World :=
  mkWorld b (lastSyncTime w) (db w) (localStorage w) (trace w) (now w)
          (attempts w) (idbFaults w) (lsFaults w).
Definition setLastSyncTime (t : option Z) (w : World) : World :=
  mkWorld (isOnline w) t (db w) (localStorage w) (trace w) (now w)
          (attempts w) (idbFaults w) (lsFaults w).
Definition setDb (d : option Database) (w : World) : World :=
  mkWorld (isOnline w) (lastSyncTime w) d (localStorage w) (trace w) (now w)
          (attempts w) (idbFaults w) (lsFaults w).
Definition setLocalStorage (l : LocalStorage) (w : World) : World :=
  mkWorld (isOnline w) (lastSyncTime w) (db w) l (trace w) (now w)
          (attempts w) (idbFaults w) (lsFaults w).
Definition log (e : Event) (w : World) : World :=
  mkWorld (isOnline w) (lastSyncTime w) (db w) (localStorage w)
          (trace w ++ [e]) (now w) (attempts w) (idbFaults w) (lsFaults w).
Definition setNow (t : Z) (w : World) : World :=
  mkWorld (isOnline w) (lastSyncTime w) (db w) (localStorage w) (trace w) t
          (attempts w) (idbFaults w) (lsFaults w).
Definition setAttempts (a : list Attempt) (w : World) : World :=
  mkWorld (isOnline w) (lastSyncTime w) (db w) (localStorage w) (trace w)
          (now w) a (idbFaults w) (lsFaults w).
Definition setIdbFaults (f : list (option string)) (w : World) : World :=
  mkWorld (isOnline w) (lastSyncTime w) (db w) (localStorage w) (trace w)
          (now w) (attempts w) f (lsFaults w).

Definition setLsFaults (f : list (option string)) (w : World) : World :=
  mkWorld (isOnline w) (lastSyncTime w) (db w) (localStorage w) (trace w)
          (now w) (attempts w) (idbFaults w) f.

(** ** Async functions *)

Definition M (A : Type) : Type := World -> Outcome A * World.

Definition ret {A} (a : A) : M A := fun w => (Resolved a, w).
Definition throw {A} (e : Error) : M A := fun w => (Rejected e, w).

(** [await m; k] *)
Definition bind {A B} (m : M A) (k : A -> M B) : M B :=
  fun w =>
    match m w with
    | (Resolved a, w') => k a w'
    | (Rejected e, w') => (Rejected e, w')
    | (Pending, w') => (Pending, w')
    end.

(** [try { m } catch (error) { h error }]: a promise that never settles
    never reaches the handler. *)
Definition tryCatch {A} (m : M A) (h : Error -> M A) : M A :=
  fun w =>
    match m w with
    | (Rejected e, w') => h e w'
    | r => r
    end.

Notation "x <- m ;; k" := (bind m (fun x => k))
  (at level 61, m at next level, right associativity).
Notation "m ;; k" := (bind m (fun _ => k))
  (at level 61, right associativity).

Definition modify (f : World -> World) : M unit := fun w => (Resolved tt, f w).
Definition gets {A} (f : World -> A) : M A := fun w => (Resolved (f w), w).

(** An IndexedDB request: logged, then served or failed as the
    environment decides ([request.onsuccess] / [request.onerror]). *)
Definition requested (ev : Event) (w : World) : World :=
  log ev (setIdbFaults (tl (idbFaults w)) w).

Definition idbRequest (ev : Event) : M unit :=
  fun w =>
    match idbFaults w with
    | Some reason :: _ => (Rejected (StoreError reason), requested ev w)
    | _ => (Resolved tt, requested ev w)
    end.

Definition updateStore (s : StoreName)
    (f : list (RecordOf s) -> list (RecordOf s)) : M unit :=
  modify (fun w =>
    match db w with
    | Some d => setDb (Some (setObjectStore s (f (objectStore s d)) d)) w
    | None => w
    end).

(** The argument of [saveToIndexedDB]: one record, or an array
    ([Array.isArray(data)]). *)
Inductive PutData (R : Type) :=
| One (r : R)
| Many (l : list R).
Arguments One {R} r.
Arguments Many {R} l.

(** [bulkSave]: one [store.put] per element, all issued at once in the
    transaction of the caller; [Promise.all] of the per-request promises.
    A failed request aborts the transaction, which undoes the puts made
    in it and fails the requests still waiting. *)
Definition aborted (s : StoreName) (dataArray : list (RecordOf s)) (w : World) : World :=
  fold_left (fun w item => requested (IdbPut s (keyPath s item)) w) dataArray w.

Fixpoint bulkPuts (s : StoreName) (dataArray : list (RecordOf s)) : M (list string) :=
  match dataArray with
  | [] => ret []
  | item :: rest =>
      fun w =>
        match idbRequest (IdbPut s (keyPath s item)) w with
        | (Rejected e, w1) => (Rejected e, aborted s rest w1)
        | (Resolved _, w1) =>
            (updateStore s (ObjectStore.put (keyPath s) item) ;;
             keys <- bulkPuts s rest ;;
             ret (keyPath s item :: keys)) w1
        | (Pending, w1) => (Pending, w1)
        end
  end.

Definition bulkSave (s : StoreName) (dataArray : list (RecordOf s)) : M (list string) :=
  fun w =>
    match bulkPuts s dataArray w with
    | (Rejected e, w') => (Rejected e, setDb (db w) w')
    | r => r
    end.

(** [saveToIndexedDB(storeName, data)].  For an array, [request] is the
    promise returned by [bulkSave]; the [onsuccess] and [onerror]
    properties set on it are never called, so neither [resolve] nor
    [reject] of the returned promise ever runs. *)
Definition saveToIndexedDB (s : StoreName) (data : PutData (RecordOf s)) : M string :=
  fun w =>
    match db w with
    | None => (Rejected NotInitialized, w)
    | Some _ =>
        match data with
        | Many l => let (_, w') := bulkSave s l w in (Pending, w')
        | One r =>
            (idbRequest (IdbPut s (keyPath s r)) ;;
             updateStore s (ObjectStore.put (keyPath s) r) ;;
             ret (keyPath s r)) w
        end
    end.

(** [loadFromIndexedDB(storeName)], the call without a key:
    [store.getAll()]. *)
Definition loadFromIndexedDB (s : StoreName) : M (list (RecordOf s)) :=
  fun w =>
    match db w with
    | None => (Rejected NotInitialized, w)
    | Some d =>
        (idbRequest (IdbGetAll s) ;;
         ret (ObjectStore.getAll (objectStore s d))) w
    end.

(** [loadFromIndexedDB(storeName, key)] with a non-empty key:
    [store.get(key)]. *)
Definition loadFromIndexedDB_key (s : StoreName) (k : string) : M (option (RecordOf s)) :=
  fun w =>
    match db w with
    | None => (Rejected NotInitialized, w)
    | Some d =>
        (idbRequest (IdbGet s k) ;;
         ret (ObjectStore.get (keyPath s) k (objectStore s d))) w
    end.

(** [loadFromIndexedDB(storeName, key)] for any argument:
    [key ? store.get(key) : store.getAll()].  A key that is left out,
    [null] or the empty string is falsy and reads the whole store; the
    two definitions above are the calls the class itself makes. *)
Inductive Loaded (R : Type) :=
| GotAll (l : list R)       (* the result of [getAll] *)
| Got (r : option R).    (* the result of [get]: the record, or [undefined] *)
Arguments GotAll {R} l.
Arguments Got {R} r.

Definition loadFromIndexedDB_with (s : StoreName) (key : option string)
    : M (Loaded (RecordOf s)) :=
  fun w =>
    match db w with
    | None => (Rejected NotInitialized, w)
    | Some d =>
        match key with
        | Some k =>
            if negb (k =? "")%string
            then (idbRequest (IdbGet s k) ;;
                  ret (Got (ObjectStore.get (keyPath s) k (objectStore s d)))) w
            else (idbRequest (IdbGetAll s) ;;
                  ret (GotAll (ObjectStore.getAll (objectStore s d)))) w
        | None =>
            (idbRequest (IdbGetAll s) ;;
             ret (GotAll (ObjectStore.getAll (objectStore s d)))) w
        end
    end.

Definition deleteFromIndexedDB (s : StoreName) (k : string) : M unit :=
  fun w =>
    match db w with
    | None => (Rejected NotInitialized, w)
    | Some _ =>
        (idbRequest (IdbDelete s k) ;;
         updateStore s (ObjectStore.delete (keyPath s) k)) w
    end.

(** ** The pending-operation queue *)

(** The object literal built by [addToSyncQueue]; [syncId] is what
    [generateSyncId()] returned and [timestamp] is [Date.now()]. *)
Definition newSyncItem (syncId operation data entityType : string) (timestamp : Z)
    : SyncItem.t :=
  SyncItem.mk syncId operation entityType data timestamp 0 3.

(** [localStorage.setItem]: the write [store], unless the call throws;
    then nothing is stored. *)
Definition setItem (store : LocalStorage -> LocalStorage) : M unit :=
  fun w =>
    match lsFaults w with
    | Some reason :: rest => (Rejected (SetItemError reason), setLsFaults rest w)
    | _ =>
        (Resolved tt,
         setLsFaults (tl (lsFaults w))
                     (setLocalStorage (store (localStorage w)) w))
    end.

Definition updateLastSyncTime : M unit :=
  modify (fun w => setLastSyncTime (Some (now w)) w) ;;
  lastSyncTime <- gets lastSyncTime ;;
  setItem (fun ls => mkLocalStorage (ls_todoApp ls) lastSyncTime).

Definition notifySyncComplete (success : bool) (error : option string) : M unit :=
  modify (fun w => log (SyncComplete success error (now w)) w).

(** The remote call to come; with none scripted, the shortest delay and
    a success. *)
Definition nextAttempt (w : World) : Attempt :=
  hd (mkAttempt 500 false) (attempts w).

(** The world once a call for [item] has returned. *)
Definition attempted (item : SyncItem.t) (w : World) : World :=
  setNow (now w + elapsed (nextAttempt w))
    (setAttempts (tl (attempts w)) (log (Delivery item) w)).

(** [syncSingleItem]: the simulated remote call.  It waits for its timer,
    then throws on the failure draw. *)
Definition syncSingleItem (item : SyncItem.t) : M unit :=
  fun w =>
    if fails (nextAttempt w)
    then (Rejected DeliveryFailure, attempted item w)
    else (Resolved tt, attempted item w).

Definition handleSyncFailure (item : SyncItem.t) : M unit :=
  let item := SyncItem.bump item in
  if SyncItem.retryCount item >=? SyncItem.maxRetries item
  then deleteFromIndexedDB PendingSync (SyncItem.id item)
  else saveToIndexedDB PendingSync (One item) ;; ret tt.

(** The body of [for (const item of pendingItems)] with its inner
    [try]/[catch]. *)
Definition syncOne (item : SyncItem.t) : M unit :=
  tryCatch
    (syncSingleItem item ;;
     deleteFromIndexedDB PendingSync (SyncItem.id item))
    (fun _ => handleSyncFailure item).

Fixpoint syncAll (pendingItems : list SyncItem.t) : M unit :=
  match pendingItems with
  | [] => ret tt
  | item :: rest => syncOne item ;; syncAll rest
  end.

Definition processSyncQueue : M unit :=
  fun w =>
    if negb (isOnline w) then (Resolved tt, w)
    else
      tryCatch
        (pendingItems <- loadFromIndexedDB PendingSync ;;
         match pendingItems with
         | [] => ret tt
         | _ :: _ =>
             syncAll pendingItems ;;
             updateLastSyncTime ;;
             notifySyncComplete true None
         end)
        (fun error => notifySyncComplete false (Some (message error))) w.

(** [addToSyncQueue(operation, data, entityType)].  The drain pass it
    starts when online is not awaited and its outcome is dropped.  This
    is the method when nothing else runs before that pass has ended;
    [Interleaved.addToSyncQueue] is the method with its [await]s, for
    the histories in which calls overlap. *)
Definition addToSyncQueue (syncId operation data entityType : string) : M unit :=
  fun w =>
    let syncItem := newSyncItem syncId operation data entityType (now w) in
    tryCatch
      (saveToIndexedDB PendingSync (One syncItem) ;;
       fun w1 =>
         if isOnline w1
         then let (_, w2) := processSyncQueue w1 in (Resolved tt, w2)
         else (Resolved tt, w1))
      (fun _ => ret tt) w.

Definition forceSyncNow : M unit :=
  fun w =>
    if negb (isOnline w) then (Rejected OfflineError, w)
    else processSyncQueue w.

Module SyncStatus.
Record t := mk
  { hasPendingSync : bool; pendingCount : Z;
    lastSyncTime : option Z; isOnline : bool }.
End SyncStatus.

Definition getSyncStatus : M SyncStatus.t :=
  tryCatch
    (pendingItems <- loadFromIndexedDB PendingSync ;;
     gets (fun w =>
       SyncStatus.mk
         (0 <? Z.of_nat (length pendingItems))
         (Z.of_nat (length pendingItems))
         (lastSyncTime w)
         (isOnline w)))
    (fun _ => gets (fun w => SyncStatus.mk false 0 None (isOnline w))).

(** ** Backup and restore *)

Record SnapshotData := mkSnapshotData
  { sd_tasks : option (list Task.t);
    sd_tags : option (list Tag.t);
    sd_metadata : option (list Meta.t) }.

(** A backup argument is any object; each property may be absent. *)
Record Snapshot := mkSnapshot
  { version : option string; timestamp : option Z; data : option SnapshotData }.

Definition createBackup : M Snapshot :=
  tryCatch
    (tasks <- loadFromIndexedDB Tasks ;;
     tags <- loadFromIndexedDB Tags ;;
     metadata <- loadFromIndexedDB Metadata ;;
     gets (fun w =>
       mkSnapshot (Some "1.0.0") (Some (now w))
         (Some (mkSnapshotData (Some tasks) (Some tags) (Some metadata)))))
    (fun error => throw error).

(** One store of [clearAllData]: [this.db.transaction] on a null [db] is
    a type error, otherwise [store.clear()] in a transaction of its own. *)
Definition clearStore (s : StoreName) : M unit :=
  fun w =>
    match db w with
    | None => (Rejected (TypeError "Cannot read properties of null"), w)
    | Some _ =>
        (idbRequest (IdbClear s) ;;
         updateStore s (ObjectStore.clear (R := RecordOf s))) w
    end.

Definition clearAllData : M unit :=
  tryCatch
    (clearStore Tasks ;; clearStore Tags ;; clearStore Metadata ;;
     clearStore PendingSync)
    (fun error => throw error).

Definition syncIndexedDBToLocalStorage : M unit :=
  tryCatch
    (tasks <- loadFromIndexedDB Tasks ;;
     tags <- loadFromIndexedDB Tags ;;
     themeData <- loadFromIndexedDB_key Metadata "theme" ;;
     setItem (fun ls =>
       mkLocalStorage
         (Some (mkLocalData tasks (map Tag.name tags)
                  (match themeData with
                   | Some m => Meta.value m
                   | None => "light"
                   end)))
         (ls_lastSyncTime ls)))
    (fun _ => ret tt).

(** [if (section && section.length > 0) await this.saveToIndexedDB(store, section)] *)
Definition restoreSection (s : StoreName) (section : option (list (RecordOf s))) : M unit :=
  match section with
  | Some (r :: l) => saveToIndexedDB s (Many (r :: l)) ;; ret tt
  | _ => ret tt
  end.

Definition restoreFromBackup (backup : Snapshot) : M bool :=
  tryCatch
    (match data backup with
     | None => throw InvalidFormat
     | Some d =>
         clearAllData ;;
         restoreSection Tasks (sd_tasks d) ;;
         restoreSection Tags (sd_tags d) ;;
         restoreSection Metadata (sd_metadata d) ;;
         syncIndexedDBToLocalStorage ;;
         ret true
     end)
    (fun error => throw error).

(** ** Histories of a manager

    The listeners of [setupNetworkListeners], the methods above, and the
    environment moving on (time passes, the endpoint and the store behave
    as they will).  These are all the writers of the pending queue in the
    class; [syncLocalStorageToIndexedDB], which writes the other three
    stores only, is not among them. *)

Definition onOnline : M unit :=
  modify (setOnline true) ;; processSyncQueue.

Definition onOffline : M unit :=
  modify (setOnline false).

Inductive Action :=
| AddToSyncQueue (syncId operation data entityType : string)
| ProcessSyncQueue
| ForceSyncNow
| GetSyncStatus
| CreateBackup
| RestoreFromBackup (backup : Snapshot)
| ClearAllData
| SyncIndexedDBToLocalStorage
| OnOnline
| OnOffline
| Environment (clock : Z) (calls : list Attempt) (faults : list (option string))
| Storage (faults : list (option string)).

Definition run (a : Action) (w : World) : World :=
  match a with
  | AddToSyncQueue syncId operation data entityType =>
      snd (addToSyncQueue syncId operation data entityType w)
  | ProcessSyncQueue => snd (processSyncQueue w)
  | ForceSyncNow => snd (forceSyncNow w)
  | GetSyncStatus => snd (getSyncStatus w)
  | CreateBackup => snd (createBackup w)
  | RestoreFromBackup backup => snd (restoreFromBackup backup w)
  | ClearAllData => snd (clearAllData w)
  | SyncIndexedDBToLocalStorage => snd (syncIndexedDBToLocalStorage w)
  | OnOnline => snd (onOnline w)
  | OnOffline => snd (onOffline w)
  | Environment clock calls faults =>
      setNow clock (setAttempts calls (setIdbFaults faults w))
  | Storage faults => setLsFaults faults w
  end.

Definition runAll (actions : list Action) (w : World) : World :=
  fold_left (fun w a => run a w) actions w.

End SyncManager.

(** ** The task list controller of [scripts/app.js] *)

Module TodoApp.

Module Task.
Record t := mk
  { id : string; title : string; tag : string; due : string;
    done : bool; createdAt : Z }.

(** [task.tag = v] *)
Definition setTag (v : string) (task : t) : t :=
  mk (id task) (title task) v (due task) (done task) (createdAt task).
End Task.

Record SavedState := mkSavedState
  { saved_tasks : list Task.t; saved_tags : list string; saved_theme : string }.

Inductive ToastType := success | error | warning | info.

Record App := mkApp
  { tasks : list Task.t;
    tags : list string;
    currentTheme : string;
    todoApp : option SavedState;        (* localStorage key 'todoApp' *)
    quotaExceeded : bool;               (* localStorage.setItem throws *)
    toasts : list (ToastType * string) }.

Definition setTasks (l : list Task.t) (app : App) : App :=
  mkApp l (tags app) (currentTheme app) (todoApp app) (quotaExceeded app)
        (toasts app).
Definition setTags (l : list string) (app : App) : App :=
  mkApp (tasks app) l (currentTheme app) (todoApp app) (quotaExceeded app)
        (toasts app).

Definition showToast (message : string) (type : ToastType) (app : App) : App :=
  mkApp (tasks app) (tags app) (currentTheme app) (todoApp app)
        (quotaExceeded app) (toasts app ++ [(type, message)]).

Definition saveState (app : App) : App :=
  if quotaExceeded app
  then showToast "فشل في حفظ البيانات" error app
  else mkApp (tasks app) (tags app) (currentTheme app)
             (Some (mkSavedState (tasks app) (tags app) (currentTheme app)))
             (quotaExceeded app) (toasts app).

(** [initializeSelects] and [renderTasks] rebuild DOM nodes from
    [this.tags] and from a filtered copy of [this.tasks]; they assign no
    field of the controller. *)
Definition initializeSelects (app : App) : App := app.
Definition renderTasks (app : App) : App := app.

Definition removeTag (tagName : string) (app : App) : App :=
  let app :=
    setTags (filter (fun tag => negb (tag =? tagName)%string) (tags app)) app in
  let app :=
    setTasks
      (map (fun task =>
              if (Task.tag task =? tagName)%string
              then Task.setTag "" task
              else task)
           (tasks app)) app in
  let app := saveState app in
  let app := initializeSelects app in
  let app := renderTasks app in
  showToast "تم حذف التصنيف" success app.

End TodoApp.

(** ** Sample states *)

Module Samples.
Import SyncManager.

Definition op1 : SyncItem.t := newSyncItem "sync_a1" "create" "{}" "task" 100.
Definition op2 : SyncItem.t := newSyncItem "sync_b2" "update" "{}" "task" 200.
(** [op1] after two failed passes. *)
Definition op1_twice : SyncItem.t := SyncItem.bump (SyncItem.bump op1).

Definition task1 : Task.t := Task.mk "t1" "milk" "home" "" false 10 10 false.
Definition tag1 : Tag.t := Tag.mk "home" 5.
Definition theme : Meta.t := Meta.mk "theme" "dark" 7.

Definition emptyDb : Database := mkDatabase [] [] [] [].
Definition fullDb : Database := mkDatabase [task1] [tag1] [op1; op2] [theme].

Definition world (online : bool) (d : option Database)
    (att : list Attempt) (faults : list (option string)) : World :=
  mkWorld online None d (mkLocalStorage None None) [] 1000 att faults [].

End Samples.

(** ** The drain pass in the words of the specification

    Section 4.4 and 4.5: entries in enumeration order, one after the
    other; on success the entry is deleted, on failure the retry policy
    runs; then the clock is read for [lastSyncTime]. *)

Module DrainSpec.
Import SyncManager.

Definition attemptOf (atts : list Attempt) : Attempt :=
  hd (mkAttempt 500 false) atts.

(** 4.5: increment, then drop at [maxRetries], else write back. *)
Definition retryPolicy (item : SyncItem.t) (queue : list SyncItem.t) : list SyncItem.t :=
  if SyncItem.retryCount item + 1 >=? SyncItem.maxRetries item
  then ObjectStore.delete SyncItem.id (SyncItem.id item) queue
  else ObjectStore.put SyncItem.id (SyncItem.bump item) queue.

Definition retryRequest (item : SyncItem.t) : Event :=
  if SyncItem.retryCount item + 1 >=? SyncItem.maxRetries item
  then IdbDelete PendingSync (SyncItem.id item)
  else IdbPut PendingSync (SyncItem.id item).

Fixpoint drainQueue (items : list SyncItem.t) (atts : list Attempt)
    (queue : list SyncItem.t) : list SyncItem.t :=
  match items with
  | [] => queue
  | item :: rest =>
      drainQueue rest (tl atts)
        (if fails (attemptOf atts)
         then retryPolicy item queue
         else ObjectStore.delete SyncItem.id (SyncItem.id item) queue)
  end.

Fixpoint drainEvents (items : list SyncItem.t) (atts : list Attempt) : list Event :=
  match items with
  | [] => []
  | item :: rest =>
      Delivery item
        :: (if fails (attemptOf atts)
            then retryRequest item
            else IdbDelete PendingSync (SyncItem.id item))
        :: drainEvents rest (tl atts)
  end.

Fixpoint drainClock (items : list SyncItem.t) (atts : list Attempt) (t : Z) : Z :=
  match items with
  | [] => t
  | _ :: rest => drainClock rest (tl atts) (t + elapsed (attemptOf atts))
  end.

(** The entries handed to the remote endpoint, and the completion
    notifications, in the order a trace shows them. *)
Fixpoint deliveries (evs : list Event) : list SyncItem.t :=
  match evs with
  | [] => []
  | Delivery item :: evs' => item :: deliveries evs'
  | _ :: evs' => deliveries evs'
  end.

Fixpoint completions (evs : list Event) : list (bool * option string * Z) :=
  match evs with
  | [] => []
  | SyncComplete success error timestamp :: evs' =>
      (success, error, timestamp) :: completions evs'
  | _ :: evs' => completions evs'
  end.

(** Every queued entry is below its retry bound. *)
Definition queueBounded (queue : list SyncItem.t) : Prop :=
  Forall (fun item => SyncItem.retryCount item < SyncItem.maxRetries item) queue.

Definition storeBounded (w : World) : Prop :=
  match db w with
  | Some d => queueBounded (pendingSync d)
  | None => True
  end.

(** From [w] to [w']: the store is bounded, and what was handed to the
    remote endpoint in between was below its bound. *)
Definition keepsBound (w w' : World) : Prop :=
  storeBounded w'
  /\ exists evs,
       trace w' = trace w ++ evs
       /\ Forall (fun item => SyncItem.retryCount item < SyncItem.maxRetries item)
                 (deliveries evs).

Definition safe {A} (m : M A) : Prop :=
  forall w, storeBounded w -> keepsBound w (snd (m w)).

(** No IndexedDB request to come is scripted to fail. *)
Definition reliable (w : World) : Prop :=
  Forall (fun fault => fault = None) (idbFaults w).

End DrainSpec.

(** ** Calls in flight

    An async method runs until its next [await] and goes on when the
    awaited promise has settled; in between, other calls of the manager
    run.  [addToSyncQueue] and the [online] listener start a drain pass
    that nobody awaits, so passes overlap with each other and with every
    other call.  A call is written here with its [await]s in place; what
    is awaited is one of the requests of [SyncManager], which takes
    effect at once when it completes (one IndexedDB transaction, one
    timer).  [SyncManager]'s own definitions are the schedule in which
    every call runs to its end before the next one starts. *)

Module Interleaved.
Import SyncManager.
Import DrainSpec.

Inductive Proc (A : Type) : Type :=
| Settled (o : Outcome A)                               (* returned, threw, or hangs *)
| Now {B : Type} (m : M B) (k : Outcome B -> Proc A)    (* code that runs without a pause *)
| Await {B : Type} (m : M B) (k : Outcome B -> Proc A)  (* [await]: [m] is the awaited request *)
| Spawn (p : Proc unit) (k : Proc A).                   (* a call that is not awaited *)
Arguments Settled {A} o.
Arguments Now {A B} m k.
Arguments Await {A B} m k.
Arguments Spawn {A} p k.

Declare Scope proc_scope.
Delimit Scope proc_scope with proc.
Bind Scope proc_scope with Proc.

Definition retP {A : Type} (a : A) : Proc A := Settled (Resolved a).
Definition throwP {A : Type} (e : Error) : Proc A := Settled (Rejected e).
Definition nowP {A : Type} (m : M A) : Proc A := Now m Settled.
Definition await {A : Type} (m : M A) : Proc A := Await m Settled.
Definition spawn (p : Proc unit) : Proc unit := Spawn p (retP tt).

Fixpoint bindP {A B : Type} (p : Proc A) (f : A -> Proc B) : Proc B :=
  match p with
  | Settled (Resolved a) => f a
  | Settled (Rejected e) => Settled (Rejected e)
  | Settled Pending => Settled Pending
  | Now m k => Now m (fun o => bindP (k o) f)
  | Await m k => Await m (fun o => bindP (k o) f)
  | Spawn q k => Spawn q (bindP k f)
  end.

(** [try { p } catch (error) { h error }] *)
Fixpoint tryP {A : Type} (p : Proc A) (h : Error -> Proc A) : Proc A :=
  match p with
  | Settled (Rejected e) => h e
  | Settled o => Settled o
  | Now m k => Now m (fun o => tryP (k o) h)
  | Await m k => Await m (fun o => tryP (k o) h)
  | Spawn q k => Spawn q (tryP k h)
  end.

Notation "x <- p ;; k" := (bindP p (fun x => k))
  (at level 61, p at next level, right associativity) : proc_scope.
Notation "p ;; k" := (bindP p (fun _ => k))
  (at level 61, right associativity) : proc_scope.

(** *** The methods, with their [await]s *)

Definition handleSyncFailure (item : SyncItem.t) : Proc unit :=
  let item := SyncItem.bump item in
  if SyncItem.retryCount item >=? SyncItem.maxRetries item
  then await (deleteFromIndexedDB PendingSync (SyncItem.id item))
  else (await (saveToIndexedDB PendingSync (One item)) ;; retP tt)%proc.

Definition syncOne (item : SyncItem.t) : Proc unit :=
  tryP (await (syncSingleItem item) ;;
        await (deleteFromIndexedDB PendingSync (SyncItem.id item)))%proc
       (fun _ => handleSyncFailure item).

Fixpoint syncAll (pendingItems : list SyncItem.t) : Proc unit :=
  match pendingItems with
  | [] => retP tt
  | item :: rest => (syncOne item ;; syncAll rest)%proc
  end.

Definition processSyncQueue : Proc unit :=
  (online <- nowP (gets isOnline) ;;
   if negb online then retP tt
   else
     tryP (pendingItems <- await (loadFromIndexedDB PendingSync) ;;
           match pendingItems with
           | [] => retP tt
           | _ :: _ =>
               syncAll pendingItems ;;
               nowP updateLastSyncTime ;;
               nowP (notifySyncComplete true None)
           end)
          (fun error => nowP (notifySyncComplete false (Some (message error)))))%proc.

Definition addToSyncQueue (syncId operation data entityType : string) : Proc unit :=
  (timestamp <- nowP (gets now) ;;
   let syncItem := newSyncItem syncId operation data entityType timestamp in
   tryP (await (saveToIndexedDB PendingSync (One syncItem)) ;;
         online <- nowP (gets isOnline) ;;
         if online then spawn processSyncQueue else retP tt)
        (fun _ => retP tt))%proc.

Definition forceSyncNow : Proc unit :=
  (online <- nowP (gets isOnline) ;;
   if negb online then throwP OfflineError else processSyncQueue)%proc.

Definition getSyncStatus : Proc SyncStatus.t :=
  tryP (pendingItems <- await (loadFromIndexedDB PendingSync) ;;
        nowP (gets (fun w =>
          SyncStatus.mk
            (0 <? Z.of_nat (length pendingItems))
            (Z.of_nat (length pendingItems))
            (lastSyncTime w)
            (isOnline w))))%proc
       (fun _ => nowP (gets (fun w => SyncStatus.mk false 0 None (isOnline w)))).

Definition createBackup : Proc Snapshot :=
  tryP (tasks <- await (loadFromIndexedDB Tasks) ;;
        tags <- await (loadFromIndexedDB Tags) ;;
        metadata <- await (loadFromIndexedDB Metadata) ;;
        nowP (gets (fun w =>
          mkSnapshot (Some "1.0.0") (Some (now w))
            (Some (mkSnapshotData (Some tasks) (Some tags) (Some metadata))))))%proc
       (fun error => throwP error).

Definition clearAllData : Proc unit :=
  tryP (await (clearStore Tasks) ;; await (clearStore Tags) ;;
        await (clearStore Metadata) ;; await (clearStore PendingSync))%proc
       (fun error => throwP error).

Definition syncIndexedDBToLocalStorage : Proc unit :=
  tryP (tasks <- await (loadFromIndexedDB Tasks) ;;
        tags <- await (loadFromIndexedDB Tags) ;;
        themeData <- await (loadFromIndexedDB_key Metadata "theme") ;;
        nowP (setItem (fun ls =>
          mkLocalStorage
            (Some (mkLocalData tasks (map Tag.name tags)
                     (match themeData with
                      | Some m => Meta.value m
                      | None => "light"
                      end)))
            (ls_lastSyncTime ls))))%proc
       (fun _ => retP tt).

Definition restoreSection (s : StoreName) (section : option (list (RecordOf s)))
    : Proc unit :=
  match section with
  | Some (r :: l) => (await (saveToIndexedDB s (Many (r :: l))) ;; retP tt)%proc
  | _ => retP tt
  end.

Definition restoreFromBackup (backup : Snapshot) : Proc bool :=
  tryP (match data backup with
        | None => throwP InvalidFormat
        | Some d =>
            clearAllData ;;
            restoreSection Tasks (sd_tasks d) ;;
            restoreSection Tags (sd_tags d) ;;
            restoreSection Metadata (sd_metadata d) ;;
            syncIndexedDBToLocalStorage ;;
            retP true
        end)%proc
       (fun error => throwP error).

(** The window listeners: the pass of the [online] listener is not
    awaited. *)
Definition onOnline : Proc unit :=
  (nowP (modify (setOnline true)) ;; spawn processSyncQueue)%proc.

Definition onOffline : Proc unit := nowP (modify (setOnline false)).

(** A call whose result nobody looks at. *)
Definition forget {A : Type} (p : Proc A) : Proc unit := (p ;; retP tt)%proc.

Definition procOf (a : Action) : Proc unit :=
  match a with
  | AddToSyncQueue syncId operation data entityType =>
      addToSyncQueue syncId operation data entityType
  | ProcessSyncQueue => processSyncQueue
  | ForceSyncNow => forceSyncNow
  | GetSyncStatus => forget getSyncStatus
  | CreateBackup => forget createBackup
  | RestoreFromBackup backup => forget (restoreFromBackup backup)
  | ClearAllData => clearAllData
  | SyncIndexedDBToLocalStorage => syncIndexedDBToLocalStorage
  | OnOnline => onOnline
  | OnOffline => onOffline
  | Environment clock calls faults =>
      nowP (modify (fun w => setNow clock (setAttempts calls (setIdbFaults faults w))))
  | Storage faults => nowP (modify (setLsFaults faults))
  end.

(** *** Running calls *)

(** A call runs up to its next [await]; the calls it started on the way
    have done the same. *)
Fixpoint advance {A : Type} (p : Proc A) (w : World) : Proc A * list (Proc unit) * World :=
  match p with
  | Settled o => (Settled o, [], w)
  | Await m k => (Await m k, [], w)
  | Now m k => let (o, w1) := m w in advance (k o) w1
  | Spawn q k =>
      let '(q', qs, w1) := advance q w in
      let '(k', ks, w2) := advance k w1 in
      (k', q' :: qs ++ ks, w2)
  end.

(** The awaited request completes and the call goes on to its next
    [await]; a call whose awaited promise never settles is stuck. *)
Definition resume (p : Proc unit) (w : World) : Proc unit * list (Proc unit) * World :=
  match p with
  | Await m k =>
      let (o, w1) := m w in
      match o with
      | Pending => (Settled Pending, [], w1)
      | _ => advance (k o) w1
      end
  | _ => (p, [], w)
  end.

(** The whole call at once, the calls it starts included: no other call
    runs in between. *)
Fixpoint complete {A : Type} (p : Proc A) : M A :=
  fun w =>
    match p with
    | Settled o => (o, w)
    | Now m k => let (o, w1) := m w in complete (k o) w1
    | Await m k =>
        let (o, w1) := m w in
        match o with
        | Pending => (Pending, w1)
        | _ => complete (k o) w1
        end
    | Spawn q k => let (_, w1) := complete q w in complete k w1
    end.

(** [m] is what [p] does when nothing else runs in between. *)
Definition serial {A : Type} (p : Proc A) (m : M A) : Prop :=
  forall w, complete p w = m w.

(** The manager with its calls in flight. *)
Record System := mkSystem { world : World; inflight : list (Proc unit) }.

Fixpoint update {X : Type} (i : nat) (x : X) (l : list X) : list X :=
  match l, i with
  | [], _ => []
  | _ :: l', O => x :: l'
  | y :: l', S i' => y :: update i' x l'
  end.

(** What happens next: a method is called, a listener fires or the
    environment moves ([Call]); the request awaited by the [i]-th call in
    flight completes ([Resume]); or the service worker, which opens the
    same database, has removed an entry from the pending store in its
    own background sync ([WorkerRemoved]). *)
Inductive Step :=
| Call (a : Action)
| Resume (i : nat)
| WorkerRemoved (itemId : string).

Definition step (s : Step) (sys : System) : System :=
  match s with
  | Call a =>
      let '(p, started, w) := advance (procOf a) (world sys) in
      mkSystem w (inflight sys ++ p :: started)
  | Resume i =>
      match nth_error (inflight sys) i with
      | Some p =>
          let '(p', started, w) := resume p (world sys) in
          mkSystem w (update i p' (inflight sys) ++ started)
      | None => sys
      end
  | WorkerRemoved itemId =>
      mkSystem
        (snd (updateStore PendingSync (ObjectStore.delete SyncItem.id itemId)
                          (world sys)))
        (inflight sys)
  end.

Definition steps (history : list Step) (sys : System) : System :=
  fold_left (fun sys s => step s sys) history sys.

(** Whatever the call does from here on keeps the queue bounded and
    hands over only entries below their bound, at whatever bounded world
    each of its pieces runs. *)
Fixpoint safeP {A : Type} (p : Proc A) : Prop :=
  match p with
  | Settled _ => True
  | Now m k | Await m k =>
      forall w, storeBounded w ->
                keepsBound w (snd (m w)) /\ safeP (k (fst (m w)))
  | Spawn q k => safeP q /\ safeP k
  end.

End Interleaved.

(** ** The other handlers of [scripts/app.js]

    Form values, generated identifiers and the clock come in as arguments:
    [title] is the trimmed value of the title input, [tag] and [due] the
    values of their inputs ([''] when the element is missing), [newId]
    what [generateId()] returned. *)

Module TodoOps.
Import TodoApp.

Definition defaultTags : list string :=
  ["عمل"; "شخصي"; "دراسة"; "صحة"; "تسوق"].

Definition setTheme (theme : string) (app : App) : App :=
  mkApp (tasks app) (tags app) theme (todoApp app) (quotaExceeded app)
        (toasts app).

(** [updateStats], [closeModal] and [applyTheme] write the DOM only. *)
Definition updateStats (app : App) : App := app.
Definition closeModal (app : App) : App := app.
Definition applyTheme (app : App) : App := app.

(** The counters [updateStats] displays. *)
Definition totalTasks (app : App) : nat := length (tasks app).
Definition completedTasks (app : App) : nat :=
  length (filter Task.done (tasks app)).

(** [this.tasks.find(t => t.id === taskId)] *)
Definition findTask (taskId : string) (app : App) : option Task.t :=
  find (fun t => (Task.id t =? taskId)%string) (tasks app).

(** Assignments to the fields of the object [find] returned: the first
    task with that id changes in place. *)
Fixpoint updateFirst (taskId : string) (f : Task.t -> Task.t) (l : list Task.t)
    : list Task.t :=
  match l with
  | [] => []
  | t :: l' =>
      if (Task.id t =? taskId)%string then f t :: l'
      else t :: updateFirst taskId f l'
  end.

Definition handleAddTask (newId : string) (now : Z) (title tag due : string)
    (app : App) : App :=
  if (title =? "")%string
  then showToast "يرجى إدخال عنوان المهمة" error app
  else
    let task := Task.mk newId title tag due false now in
    let app := setTasks (task :: tasks app) app in
    let app := saveState app in
    let app := renderTasks app in
    let app := updateStats app in
    showToast "تمت إضافة المهمة بنجاح" success app.

Definition handleEditTask (taskId title tag due : string) (app : App) : App :=
  match findTask taskId app with
  | None => app
  | Some _ =>
      if (title =? "")%string
      then showToast "يرجى إدخال عنوان المهمة" error app
      else
        let edit task :=
          Task.mk (Task.id task) title tag due (Task.done task)
                  (Task.createdAt task) in
        let app := setTasks (updateFirst taskId edit (tasks app)) app in
        let app := saveState app in
        let app := renderTasks app in
        let app := updateStats app in
        let app := closeModal app in
        showToast "تم تحديث المهمة بنجاح" success app
  end.

Definition toggleDone (task : Task.t) : Task.t :=
  Task.mk (Task.id task) (Task.title task) (Task.tag task) (Task.due task)
          (negb (Task.done task)) (Task.createdAt task).

Definition toggleTaskDone (taskId : string) (app : App) : App :=
  match findTask taskId app with
  | None => app
  | Some task =>
      let app := setTasks (updateFirst taskId toggleDone (tasks app)) app in
      let app := saveState app in
      let app := renderTasks app in
      let app := updateStats app in
      if Task.done (toggleDone task)
      then showToast "تم إكمال المهمة" success app
      else showToast "تم إلغاء إكمال المهمة" info app
  end.

Definition deleteTask (taskId : string) (app : App) : App :=
  let app :=
    setTasks (filter (fun t => negb (Task.id t =? taskId)%string) (tasks app))
             app in
  let app := saveState app in
  let app := renderTasks app in
  let app := updateStats app in
  let app := closeModal app in
  showToast "تم حذف المهمة" success app.

(** [handleTagManagement]; [tagName] is the trimmed value of the input. *)
Definition handleTagManagement (tagName : string) (app : App) : App :=
  if (tagName =? "")%string then app
  else if existsb (fun tag => (tag =? tagName)%string) (tags app)
  then showToast "التصنيف موجود مسبقاً" warning app
  else
    let app := setTags (tags app ++ [tagName]) app in
    let app := saveState app in
    let app := initializeSelects app in
    showToast "تمت إضافة التصنيف بنجاح" success app.

Definition clearAllData (app : App) : App :=
  let app := setTasks [] app in
  let app := setTags defaultTags app in
  let app := saveState app in
  let app := initializeSelects app in
  let app := renderTasks app in
  let app := updateStats app in
  let app := closeModal app in
  showToast "تم مسح جميع البيانات" success app.

Definition toggleTheme (app : App) : App :=
  let app :=
    setTheme (if (currentTheme app =? "light")%string then "dark" else "light")
             app in
  let app := applyTheme app in
  saveState app.

(** What [generateId()], [Date.now()] and the ISO date of today give to
    [showWelcomeData]. *)
Record Welcome := mkWelcome
  { id1 : string; id2 : string; id3 : string; clock : Z; today : string }.

Definition welcomeTasks (e : Welcome) : list Task.t :=
  [ Task.mk (id1 e) "مرحباً بك في تطبيق قائمة المهام!" "شخصي" (today e) false
            (clock e - 10000);
    Task.mk (id2 e) "جرب إضافة مهمة جديدة" "" "" false (clock e - 5000);
    Task.mk (id3 e) "استكشف الإعدادات لتخصيص التطبيق" "عمل" "" true (clock e) ].

Definition showWelcomeData (e : Welcome) (app : App) : App :=
  match tasks app with
  | [] => saveState (setTasks (welcomeTasks e) app)
  | _ :: _ => app
  end.

(** What [localStorage.getItem('todoApp')] and [JSON.parse] make of the
    stored item: nothing stored, text that does not parse to an object,
    or an object whose three properties may each be absent. *)
Inductive StoredItem :=
| Missing
| Malformed
| Parsed (tasks : option (list Task.t)) (tags : option (list string))
         (theme : option string).

(** The item as [saveState] leaves it. *)
Definition storedItem (app : App) : StoredItem :=
  match todoApp app with
  | None => Missing
  | Some d => Parsed (Some (saved_tasks d)) (Some (saved_tags d))
                     (Some (saved_theme d))
  end.

(** [loadState] on a given item; [||] takes the default for an absent
    property and for the empty string. *)
Definition loadStateFrom (item : StoredItem) (e : Welcome) (app : App) : App :=
  match item with
  | Missing => app
  | Malformed => showWelcomeData e app
  | Parsed stasks stags stheme =>
      let app := setTasks (match stasks with Some l => l | None => [] end) app in
      let app :=
        setTags (match stags with Some l => l | None => defaultTags end) app in
      setTheme (match stheme with
                | Some theme => if (theme =? "")%string then "light" else theme
                | None => "light"
                end) app
  end.

Definition loadState (e : Welcome) (app : App) : App :=
  loadStateFrom (storedItem app) e app.

(** [new TodoApp()] on a given storage: the constructor's fields, then
    [init] ([cacheElements] and [setupEventListeners] touch the DOM
    only). *)
Definition boot (storage : option SavedState) (full : bool) (e : Welcome) : App :=
  let app := mkApp [] defaultTags "light" storage full [] in
  let app := loadState e app in
  let app := initializeSelects app in
  let app := renderTasks app in
  let app := updateStats app in
  let app := applyTheme app in
  showWelcomeData e app.

(** User actions on a running application. *)
Inductive Action :=
| AddTask (newId : string) (now : Z) (title tag due : string)
| EditTask (taskId title tag due : string)
| ToggleTaskDone (taskId : string)
| DeleteTask (taskId : string)
| AddTag (tagName : string)
| RemoveTag (tagName : string)
| ClearAllData
| ToggleTheme.

Definition run (a : Action) (app : App) : App :=
  match a with
  | AddTask newId now title tag due => handleAddTask newId now title tag due app
  | EditTask taskId title tag due => handleEditTask taskId title tag due app
  | ToggleTaskDone taskId => toggleTaskDone taskId app
  | DeleteTask taskId => deleteTask taskId app
  | AddTag tagName => handleTagManagement tagName app
  | RemoveTag tagName => removeTag tagName app
  | ClearAllData => clearAllData app
  | ToggleTheme => toggleTheme app
  end.

Definition runAll (actions : list Action) (app : App) : App :=
  fold_left (fun app a => run a app) actions app.

(** The saved copy is the state in memory. *)
Definition persisted (app : App) : Prop :=
  todoApp app
  = Some (mkSavedState (tasks app) (tags app) (currentTheme app)).

(** ** [escapeHtml] *)

(** [s.replace(/c/g, by)] for a single character [c]. *)
Fixpoint replaceAll (c : Ascii.ascii) (by_ : string) (s : string) : string :=
  match s with
  | EmptyString => EmptyString
  | String a s' =>
      if Ascii.eqb a c then (by_ ++ replaceAll c by_ s')%string
      else String a (replaceAll c by_ s')
  end.

Definition escapeHtml (unsafe : string) : string :=
  replaceAll "'"%char "&#039;"
    (replaceAll "034"%char "&quot;"
       (replaceAll ">"%char "&gt;"
          (replaceAll "<"%char "&lt;"
             (replaceAll "&"%char "&amp;" unsafe)))).

(** ** [getFilteredTasks] *)

Record Filters := mkFilters
  { searchQuery : string; selectedTag : string;
    selectedDateFilter : string; currentView : string }.

(** [hay.includes(needle)] *)
Fixpoint includes (needle hay : string) : bool :=
  String.prefix needle hay
  || match hay with
     | EmptyString => false
     | String _ hay' => includes needle hay'
     end.

Section Filtering.
(** [String.prototype.toLowerCase], and the two ISO dates the function
    derives from the clock. *)
Variable toLowerCase : string -> string.
Variables todayDate weekFromNow : string.

Definition nonEmpty (s : string) : bool := negb (s =? "")%string.

Definition bySearch (f : Filters) (l : list Task.t) : list Task.t :=
  if nonEmpty (searchQuery f)
  then filter (fun task => includes (searchQuery f) (toLowerCase (Task.title task))) l
  else l.

Definition byTag (f : Filters) (l : list Task.t) : list Task.t :=
  if nonEmpty (selectedTag f)
  then filter (fun task => (Task.tag task =? selectedTag f)%string) l
  else l.

Definition byDate (f : Filters) (l : list Task.t) : list Task.t :=
  if nonEmpty (selectedDateFilter f) then
    if (selectedDateFilter f =? "today")%string then
      filter (fun task => (Task.due task =? todayDate)%string) l
    else if (selectedDateFilter f =? "week")%string then
      filter (fun task =>
                nonEmpty (Task.due task)
                && String.leb (Task.due task) weekFromNow
                && String.leb todayDate (Task.due task)) l
    else if (selectedDateFilter f =? "overdue")%string then
      filter (fun task =>
                nonEmpty (Task.due task)
                && String.ltb (Task.due task) todayDate
                && negb (Task.done task)) l
    else l
  else l.

Definition byView (f : Filters) (l : list Task.t) : list Task.t :=
  if (currentView f =? "today")%string then
    filter (fun task =>
              (Task.due task =? todayDate)%string
              || (negb (nonEmpty (Task.due task)) && negb (Task.done task))) l
  else if (currentView f =? "completed")%string then
    filter Task.done l
  else l.

Definition getFilteredTasks (f : Filters) (app : App) : list Task.t :=
  byView f (byDate f (byTag f (bySearch f (tasks app)))).
End Filtering.

End TodoOps.

(** ** The offline manager of [offline-manager.js]

    The network flag, the offline-mode preference and its copy in
    [localStorage], the registered callbacks, and a log of what the
    manager does to the outside: callbacks called, messages posted to the
    service worker, toasts, the initial dialog.  DOM updates are left
    out.  A callback is known by its number; an exception it throws is
    caught around its call and changes nothing. *)

Module OfflineManager.

Record Status := mkStatus
  { st_isOnline : bool; st_offlineMode : bool; st_effectivelyOffline : bool }.

Inductive Effect :=
| StatusChanged (callback : nat) (status : Status)
| ModeChanged (callback : nat) (status : Status)
| SyncRequest                          (* postMessage({type: 'SYNC_REQUEST'}) *)
| RegisterServiceWorker                (* serviceWorker.register('/sw.js') *)
| Toast (message : string) (type : string)
| InitialModal.

(** The item under ['offlinePreference']: absent (or empty), text that
    does not parse to an object, or an object with a boolean [enabled]. *)
Record Preference := mkPreference { enabled : bool; timestamp : Z }.

Inductive Stored :=
| NoItem
| Unparseable
| Item (preference : Preference).

Record Manager := mkManager
  { isOnline : bool;
    offlineMode : bool;
    userPreference : option bool;        (* null until chosen or loaded *)
    statusChange : list nat;
    modeChange : list nat;
    offlinePreference : Stored;
    serviceWorker : bool;                (* 'serviceWorker' in navigator *)
    controller : bool;                   (* navigator.serviceWorker.controller *)
    todoApp : bool;                      (* window.todoApp *)
    now : Z;
    effects : list Effect;
    storageFull : bool }.                (* localStorage.setItem throws *)

Definition setOnline (b : bool) (m : Manager) : Manager :=
  mkManager b (offlineMode m) (userPreference m) (statusChange m) (modeChange m)
            (offlinePreference m) (serviceWorker m) (controller m) (todoApp m)
            (now m) (effects m) (storageFull m).

Definition setMode (mode : bool) (m : Manager) : Manager :=
  mkManager (isOnline m) mode (Some mode) (statusChange m) (modeChange m)
            (offlinePreference m) (serviceWorker m) (controller m) (todoApp m)
            (now m) (effects m) (storageFull m).

Definition setItem (p : Preference) (m : Manager) : Manager :=
  mkManager (isOnline m) (offlineMode m) (userPreference m) (statusChange m)
            (modeChange m) (Item p) (serviceWorker m) (controller m) (todoApp m)
            (now m) (effects m) (storageFull m).

Definition emit (evs : list Effect) (m : Manager) : Manager :=
  mkManager (isOnline m) (offlineMode m) (userPreference m) (statusChange m)
            (modeChange m) (offlinePreference m) (serviceWorker m) (controller m)
            (todoApp m) (now m) (effects m ++ evs) (storageFull m).

Definition getStatus (m : Manager) : Status :=
  mkStatus (isOnline m) (offlineMode m) (negb (isOnline m) || offlineMode m).

Definition onStatusChange (callback : nat) (m : Manager) : Manager :=
  mkManager (isOnline m) (offlineMode m) (userPreference m)
            (statusChange m ++ [callback]) (modeChange m) (offlinePreference m)
            (serviceWorker m) (controller m) (todoApp m) (now m) (effects m) (storageFull m).

Definition onModeChange (callback : nat) (m : Manager) : Manager :=
  mkManager (isOnline m) (offlineMode m) (userPreference m) (statusChange m)
            (modeChange m ++ [callback]) (offlinePreference m) (serviceWorker m)
            (controller m) (todoApp m) (now m) (effects m) (storageFull m).

(** [updateUI] writes the DOM only. *)
Definition updateUI (m : Manager) : Manager := m.

Definition notifyStatusChange (m : Manager) : Manager :=
  emit (map (fun callback => StatusChanged callback (getStatus m)) (statusChange m)) m.

Definition notifyModeChange (m : Manager) : Manager :=
  emit (map (fun callback => ModeChanged callback (getStatus m)) (modeChange m)) m.

Definition triggerSync (m : Manager) : Manager :=
  if serviceWorker m && controller m then emit [SyncRequest] m else m.

Definition handleNetworkChange (m : Manager) : Manager :=
  let m := updateUI m in
  let m := notifyStatusChange m in
  if isOnline m && negb (offlineMode m) then triggerSync m else m.

(** The [online] and [offline] listeners of the window. *)
Definition onOnline (m : Manager) : Manager := handleNetworkChange (setOnline true m).
Definition onOffline (m : Manager) : Manager := handleNetworkChange (setOnline false m).

(** The probe of [checkConnectivity]: a response with its [ok] flag, or a
    rejected [fetch]. *)
Inductive Probe :=
| Responded (ok : bool)
| Failed.

Definition checkConnectivity (probe : Probe) (m : Manager) : Manager :=
  match probe with
  | Responded actuallyOnline =>
      if Bool.eqb actuallyOnline (isOnline m) then m
      else handleNetworkChange (setOnline actuallyOnline m)
  | Failed =>
      if isOnline m then handleNetworkChange (setOnline false m) else m
  end.

Definition registerServiceWorker (m : Manager) : Manager :=
  if serviceWorker m then emit [RegisterServiceWorker] m else m.

Definition toastIfApp (message type : string) (m : Manager) : Manager :=
  if todoApp m then emit [Toast message type] m else m.

(** When [localStorage.setItem] throws, the method ends there: the
    fields are set, nothing is stored and nobody is told. *)
Definition handleOfflineChoice (enableOffline : bool) (m : Manager) : Manager :=
  let m := setMode enableOffline m in
  if storageFull m then m
  else
    let m := setItem (mkPreference enableOffline (now m)) m in
    let m := if enableOffline then registerServiceWorker m else m in
    let m := updateUI m in
    let m := notifyModeChange m in
    toastIfApp (if enableOffline
                then "تم تفعيل الوضع غير المتصل بنجاح"
                else "سيتم استخدام التطبيق في الوضع المتصل فقط")
               "success" m.

Definition loadUserPreference (m : Manager) : Manager :=
  match offlinePreference m with
  | Item preference =>
      let m := setMode (enabled preference) m in
      if enabled preference then registerServiceWorker m else m
  | _ => m
  end.

Definition toggleOfflineMode (m : Manager) : Manager :=
  let m := setMode (negb (offlineMode m)) m in
  if storageFull m then m
  else
    let m := setItem (mkPreference (offlineMode m) (now m)) m in
    let m := updateUI m in
    let m := notifyModeChange m in
    toastIfApp (if offlineMode m
                then "تم تفعيل الوضع غير المتصل"
                else "تم تفعيل الوضع المتصل")
               "info" m.

Definition showInitialModal (m : Manager) : Manager :=
  match userPreference m with
  | Some _ => m
  | None => emit [InitialModal] m
  end.

(** [new OfflineManager()]: the constructor's fields, then [init]. *)
Definition construct (onLine : bool) (stored : Stored)
    (serviceWorker controller todoApp : bool) (now : Z) : Manager :=
  let m := mkManager onLine false None [] [] stored serviceWorker controller
                     todoApp now [] false in
  let m := loadUserPreference m in
  let m := showInitialModal m in
  updateUI m.

(** What happens to a running manager; [Quota] is the storage filling
    up or getting room again. *)
Inductive Action :=
| Online
| Offline
| Check (probe : Probe)
| Choose (enableOffline : bool)
| Toggle
| SubscribeStatus (callback : nat)
| SubscribeMode (callback : nat)
| Tick (clock : Z)
| Controller (present : bool)
| Quota (full : bool).

Definition run (a : Action) (m : Manager) : Manager :=
  match a with
  | Online => onOnline m
  | Offline => onOffline m
  | Check probe => checkConnectivity probe m
  | Choose enableOffline => handleOfflineChoice enableOffline m
  | Toggle => toggleOfflineMode m
  | SubscribeStatus callback => onStatusChange callback m
  | SubscribeMode callback => onModeChange callback m
  | Tick clock =>
      mkManager (isOnline m) (offlineMode m) (userPreference m) (statusChange m)
                (modeChange m) (offlinePreference m) (serviceWorker m)
                (controller m) (todoApp m) clock (effects m) (storageFull m)
  | Controller present =>
      mkManager (isOnline m) (offlineMode m) (userPreference m) (statusChange m)
                (modeChange m) (offlinePreference m) (serviceWorker m)
                present (todoApp m) (now m) (effects m) (storageFull m)
  | Quota full =>
      mkManager (isOnline m) (offlineMode m) (userPreference m) (statusChange m)
                (modeChange m) (offlinePreference m) (serviceWorker m)
                (controller m) (todoApp m) (now m) (effects m) full
  end.

Definition runAll (actions : list Action) (m : Manager) : Manager :=
  fold_left (fun m a => run a m) actions m.

(** The sync requests among some effects. *)
Definition syncRequests (evs : list Effect) : nat :=
  length (filter (fun ev => match ev with SyncRequest => true | _ => false end) evs).

(** The preference in memory and its stored copy agree. *)
Definition preferenceSaved (m : Manager) : Prop :=
  match userPreference m with
  | Some mode =>
      offlineMode m = mode
      /\ exists t, offlinePreference m = Item (mkPreference mode t)
  | None =>
      offlineMode m = false
      /\ forall p, offlinePreference m <> Item p
  end.

End OfflineManager.

(** ** The service worker

    The cache storage of the origin and the three lifecycle handlers
    ([install], [activate], [fetch]), then the background sync.  The
    network is a function from URLs to what [fetch] gives: a response, or
    nothing when it rejects.  Requests are matched by URL. *)

Module ServiceWorker.

Definition STATIC_CACHE : string := "static-v1.0.0".
Definition DYNAMIC_CACHE : string := "dynamic-v1.0.0".

Definition STATIC_FILES : list string :=
  [ "/"; "/index.html"; "/styles/base.css"; "/styles/components.css";
    "/styles/themes.css"; "/scripts/app.js"; "/scripts/offline-manager.js";
    "/scripts/sync-manager.js"; "/manifest.json" ].

Record Response := mkResponse
  { status : Z; statusText : string; type : string; body : string }.

(** [response.ok] *)
Definition ok (r : Response) : bool := (200 <=? status r) && (status r <=? 299).

Definition Cache : Type := list (string * Response).
Definition CacheStorage : Type := list (string * Cache).

(** [cache.match(url)] *)
Definition cacheMatch (url : string) (cache : Cache) : option Response :=
  option_map snd (find (fun entry => (fst entry =? url)%string) cache).

(** [cache.put(url, response)]: an entry for the same URL is replaced. *)
Definition cachePut (url : string) (r : Response) (cache : Cache) : Cache :=
  filter (fun entry => negb (fst entry =? url)%string) cache ++ [(url, r)].

(** [caches.match(url)]: the caches are asked in the order they were
    created. *)
Fixpoint cachesMatch (url : string) (caches : CacheStorage) : option Response :=
  match caches with
  | [] => None
  | (_, cache) :: rest =>
      match cacheMatch url cache with
      | Some r => Some r
      | None => cachesMatch url rest
      end
  end.

Definition cachesHas (name : string) (caches : CacheStorage) : bool :=
  existsb (fun c => (fst c =? name)%string) caches.

(** [caches.open(name)]: created empty when it is not there. *)
Definition cachesOpen (name : string) (caches : CacheStorage) : CacheStorage :=
  if cachesHas name caches then caches else caches ++ [(name, [])].

(** A change made to the cache called [name]. *)
Definition inCache (name : string) (f : Cache -> Cache) (caches : CacheStorage)
    : CacheStorage :=
  map (fun c => if (fst c =? name)%string then (fst c, f (snd c)) else c) caches.

(** [caches.delete(name)] *)
Definition cachesDelete (name : string) (caches : CacheStorage) : CacheStorage :=
  filter (fun c => negb (fst c =? name)%string) caches.

Record Request := mkRequest { method : string; url : string; mode : string }.

Inductive Handled :=
| NotHandled                             (* respondWith not called *)
| RespondWith (r : option Response).     (* what the promise resolves to *)

Definition offlineResponse : Response :=
  mkResponse 503 "Service Unavailable" "default" "Offline".

Section WithNetwork.
(** The origin the worker is served from, and the network. *)
Variable origin : string.
Variable network : string -> option Response.

(** [cache.addAll(urls)]: every URL is fetched; one rejected fetch or one
    response that is not [ok] rejects the whole call and stores
    nothing. *)
Fixpoint fetchAll (urls : list string) : option (list (string * Response)) :=
  match urls with
  | [] => Some []
  | u :: rest =>
      match network u, fetchAll rest with
      | Some r, Some l => if ok r then Some ((u, r) :: l) else None
      | _, _ => None
      end
  end.

Definition putAll (entries : list (string * Response)) (cache : Cache) : Cache :=
  fold_left (fun cache entry => cachePut (fst entry) (snd entry) cache) entries cache.

(** The [install] handler; the rejection of [addAll] is caught. *)
Definition install (caches : CacheStorage) : CacheStorage :=
  let caches := cachesOpen STATIC_CACHE caches in
  match fetchAll (map (fun path => (origin ++ path)%string) STATIC_FILES) with
  | Some entries => inCache STATIC_CACHE (putAll entries) caches
  | None => caches
  end.

(** The [activate] handler. *)
Definition activate (caches : CacheStorage) : CacheStorage :=
  fold_left
    (fun caches cacheName =>
       if negb (cacheName =? STATIC_CACHE)%string
          && negb (cacheName =? DYNAMIC_CACHE)%string
       then cachesDelete cacheName caches
       else caches)
    (map fst caches) caches.

(** The [fetch] handler.  The write to the dynamic cache is started and
    not awaited; it is taken to have finished before the next event. *)
Definition onFetch (request : Request) (caches : CacheStorage)
    : Handled * CacheStorage :=
  if negb (method request =? "GET")%string then (NotHandled, caches)
  else if negb (String.prefix "http" (url request)) then (NotHandled, caches)
  else
    match cachesMatch (url request) caches with
    | Some cachedResponse => (RespondWith (Some cachedResponse), caches)
    | None =>
        match network (url request) with
        | Some networkResponse =>
            if negb (status networkResponse =? 200)
               || negb (type networkResponse =? "basic")%string
            then (RespondWith (Some networkResponse), caches)
            else
              (RespondWith (Some networkResponse),
               inCache DYNAMIC_CACHE (cachePut (url request) networkResponse)
                       (cachesOpen DYNAMIC_CACHE caches))
        | None =>
            if (mode request =? "navigate")%string
            then (RespondWith (cachesMatch (origin ++ "/index.html")%string caches),
                  caches)
            else (RespondWith (Some offlineResponse), caches)
        end
    end.
End WithNetwork.

(** A cache of the current version. *)
Definition isCurrent (c : string * Cache) : bool :=
  (fst c =? STATIC_CACHE)%string || (fst c =? DYNAMIC_CACHE)%string.

(** The caches after a series of fetch events, each with the network as
    it was then. *)
Definition afterFetches (origin : string)
    (events : list ((string -> option Response) * Request))
    (caches : CacheStorage) : CacheStorage :=
  fold_left (fun caches ev => snd (onFetch origin (fst ev) (snd ev) caches))
            events caches.

(** Every stored response is one the [fetch] handler would store. *)
Definition onlyGoodResponses (caches : CacheStorage) : Prop :=
  forall name cache u r,
    In (name, cache) caches -> In (u, r) cache ->
    status r = 200 /\ type r = "basic".

(** *** Background sync

    [syncTasks] and its helpers, on the pending queue of the database.
    Each helper opens the database anew: one request for the opening,
    one for the store operation, each served or failed as the environment
    decides.  The worker opens the database without an upgrade handler,
    so the [pendingSync] store is there only if the page created it;
    without it [db.transaction] throws inside [onsuccess], where nothing
    catches it, and the promise of the helper never settles. *)

Inductive Message := SYNC_COMPLETE (success : bool) (error : option string).

Record Worker := mkWorker
  { store : option (list SyncItem.t);    (* the pendingSync store, if it exists *)
    idbFaults : list (option string);    (* per request to come: its error, if any *)
    clients : list nat;
    posted : list (nat * Message);       (* client.postMessage, oldest first *)
    synced : list SyncItem.t }.          (* syncSingleItem(item), oldest first *)

(** The pending items: those of the store, none without a store. *)
Definition pendingSync (w : Worker) : list SyncItem.t :=
  match store w with
  | Some items => items
  | None => []
  end.

(** How the promise of a helper ends. *)
Inductive Settled (A : Type) :=
| Fulfilled (a : A)
| Failed (reason : string)       (* rejected with the error of a request *)
| Never.                         (* neither resolved nor rejected *)
Arguments Fulfilled {A} a.
Arguments Failed {A} reason.
Arguments Never {A}.

Definition request (w : Worker) : option string * Worker :=
  (hd None (idbFaults w),
   mkWorker (store w) (tl (idbFaults w)) (clients w) (posted w) (synced w)).

(** [getPendingSyncData] *)
Definition getPendingSyncData (w : Worker) : Settled (list SyncItem.t) * Worker :=
  match request w with
  | (Some reason, w1) => (Failed reason, w1)
  | (None, w1) =>
      match store w1 with
      | None => (Never, w1)
      | Some items =>
          match request w1 with
          | (Some reason, w2) => (Failed reason, w2)
          | (None, w2) => (Fulfilled items, w2)
          end
      end
  end.

(** [removePendingSyncItem] *)
Definition removePendingSyncItem (itemId : string) (w : Worker) : Settled unit * Worker :=
  match request w with
  | (Some reason, w1) => (Failed reason, w1)
  | (None, w1) =>
      match store w1 with
      | None => (Never, w1)
      | Some items =>
          match request w1 with
          | (Some reason, w2) => (Failed reason, w2)
          | (None, w2) =>
              (Fulfilled tt,
               mkWorker (Some (ObjectStore.delete SyncItem.id itemId items))
                        (idbFaults w2) (clients w2) (posted w2) (synced w2))
          end
      end
  end.

(** The worker's [syncSingleItem] waits one second and returns. *)
Definition syncSingleItem (item : SyncItem.t) (w : Worker) : Worker :=
  mkWorker (store w) (idbFaults w) (clients w) (posted w) (synced w ++ [item]).

(** The loop of [syncTasks]: a failed removal is logged, nothing more; a
    removal that never settles is where the loop stays.  [true] when the
    loop came to its end. *)
Fixpoint syncEach (pendingData : list SyncItem.t) (w : Worker) : bool * Worker :=
  match pendingData with
  | [] => (true, w)
  | item :: rest =>
      match removePendingSyncItem (SyncItem.id item) (syncSingleItem item w) with
      | (Never, w1) => (false, w1)
      | (_, w1) => syncEach rest w1
      end
  end.

Definition postToAll (message : Message) (w : Worker) : Worker :=
  mkWorker (store w) (idbFaults w) (clients w)
           (posted w ++ map (fun client => (client, message)) (clients w))
           (synced w).

Definition syncTasks (w : Worker) : Worker :=
  match getPendingSyncData w with
  | (Failed reason, w1) => postToAll (SYNC_COMPLETE false (Some reason)) w1
  | (Never, w1) => w1
  | (Fulfilled [], w1) => w1
  | (Fulfilled pendingData, w1) =>
      match syncEach pendingData w1 with
      | (true, w2) => postToAll (SYNC_COMPLETE true None) w2
      | (false, w2) => w2
      end
  end.

End ServiceWorker.

(** ** The request helpers of the manager

    [getEndpointForOperation] and [getMethodForOperation]: the value
    returned, or the message of the error thrown. *)

Module Endpoints.

Definition getEndpointForOperation (operation entityType : string) : string + string :=
  let baseUrl := "/api" in
  if (operation =? "create")%string then inr (baseUrl ++ "/" ++ entityType ++ "s")%string
  else if (operation =? "update")%string then inr (baseUrl ++ "/" ++ entityType ++ "s")%string
  else if (operation =? "delete")%string then inr (baseUrl ++ "/" ++ entityType ++ "s")%string
  else inl ("Unknown operation: " ++ operation)%string.

Definition getMethodForOperation (operation : string) : string + string :=
  if (operation =? "create")%string then inr "POST"
  else if (operation =? "update")%string then inr "PUT"
  else if (operation =? "delete")%string then inr "DELETE"
  else inl ("Unknown operation: " ++ operation)%string.

End Endpoints.

(** * Properties *)

(** ** Object stores *)

Section ObjectStoreFacts.
Context {R : Type} (keyPath : R -> string).

Lemma rank_inj (x y : Ascii.ascii) : ObjectStore.rank x = ObjectStore.rank y -> x = y.
Proof.
  intros H. rewrite <- (Ascii.ascii_N_embedding x), <- (Ascii.ascii_N_embedding y).
  f_equal. unfold ObjectStore.rank in H. cbv zeta in H.
  pose proof (Ascii.N_ascii_bounded x) as Bx.
  pose proof (Ascii.N_ascii_bounded y) as By.
  destruct (N.eqb_spec (Ascii.N_of_ascii x) 238) as [Ex|Ex],
           (N.eqb_spec (Ascii.N_of_ascii x) 239) as [Ex'|Ex'],
           (N.eqb_spec (Ascii.N_of_ascii y) 238) as [Ey|Ey],
           (N.eqb_spec (Ascii.N_of_ascii y) 239) as [Ey'|Ey'];
    simpl in H; lia.
Qed.

(** Two keys compare equal exactly when they are the same key. *)
Lemma keyCompare_eq (a b : string) : ObjectStore.keyCompare a b = Eq <-> a = b.
Proof.
  revert b. induction a as [|x a IH]; intros [|y b]; simpl;
    try (split; [discriminate | congruence]); [tauto|].
  destruct (N.compare_spec (ObjectStore.rank x) (ObjectStore.rank y)) as [E|E|E].
  - apply rank_inj in E. subst y. rewrite IH. split; congruence.
  - split; [discriminate|]. intros H. inversion H; subst. lia.
  - split; [discriminate|]. intros H. inversion H; subst. lia.
Qed.

Lemma compare_Gt_neq (a b : string) :
  ObjectStore.keyCompare a b = Gt -> (b =? a)%string = false.
Proof.
  intros H. apply String.eqb_neq. intros ->.
  rewrite (proj2 (keyCompare_eq a a) eq_refl) in H. discriminate.
Qed.

Lemma get_put_same (r : R) (s : list R) : ObjectStore.get keyPath (keyPath r) (ObjectStore.put keyPath r s) = Some r.
Proof.
  unfold ObjectStore.get.
  induction s as [|x s IH]; simpl.
  - now rewrite String.eqb_refl.
  - destruct (ObjectStore.keyCompare (keyPath r) (keyPath x)) eqn:E; simpl.
    + now rewrite String.eqb_refl.
    + now rewrite String.eqb_refl.
    + now rewrite (compare_Gt_neq _ _ E).
Qed.

Lemma get_delete_same (k : string) (s : list R) : ObjectStore.get keyPath k (ObjectStore.delete keyPath k s) = None.
Proof.
  unfold ObjectStore.get, ObjectStore.delete.
  induction s as [|x s IH]; simpl; [reflexivity|].
  destruct (keyPath x =? k)%string eqn:E; simpl; [exact IH|].
  now rewrite E.
Qed.

Lemma Forall_put (P : R -> Prop) (r : R) (s : list R) :
  P r -> Forall P s -> Forall P (ObjectStore.put keyPath r s).
Proof.
  intros Hr Hs. induction Hs as [|x s Hx Hs IH]; simpl.
  - now constructor.
  - destruct (ObjectStore.keyCompare (keyPath r) (keyPath x));
      repeat constructor; assumption.
Qed.

Lemma Forall_delete (P : R -> Prop) (k : string) (s : list R) :
  Forall P s -> Forall P (ObjectStore.delete keyPath k s).
Proof.
  intros Hs. apply Forall_forall. intros x Hx.
  apply filter_In in Hx. destruct Hx as [Hx _].
  revert x Hx. now apply Forall_forall.
Qed.
End ObjectStoreFacts.

(** ** Tag removal *)

Section RemoveTag.
Import TodoApp.

Lemma removeTag_tags (tagName : string) (app : App) :
  tags (removeTag tagName app)
  = filter (fun tag => negb (tag =? tagName)%string) (tags app).
Proof. unfold removeTag, saveState. simpl. now destruct (quotaExceeded app). Qed.

Lemma removeTag_tasks (tagName : string) (app : App) :
  tasks (removeTag tagName app)
  = map (fun task => if (Task.tag task =? tagName)%string
                     then Task.setTag "" task else task) (tasks app).
Proof. unfold removeTag, saveState. simpl. now destruct (quotaExceeded app). Qed.

(** C9.  Removing a tag drops it (and nothing else) from the tag list,
  keeps the task list at its length and order, blanks the [tag] field
  of the tasks that carried the removed name and leaves every other
  field, and every other task, as it was. *)
Theorem removeTag_clears_references (tagName : string) (app : App) :
  let app' := removeTag tagName app in
  ~ In tagName (tags app')
  /\ (forall other, other <> tagName -> In other (tags app') <-> In other (tags app))
  /\ length (tasks app') = length (tasks app)
  /\ forall i task, nth_error (tasks app) i = Some task ->
       exists task',
         nth_error (tasks app') i = Some task'
         /\ Task.id task' = Task.id task
         /\ Task.title task' = Task.title task
         /\ Task.due task' = Task.due task
         /\ Task.done task' = Task.done task
         /\ Task.createdAt task' = Task.createdAt task
         /\ (Task.tag task = tagName -> Task.tag task' = "")
         /\ (Task.tag task <> tagName -> task' = task).
Proof.
  cbv zeta. rewrite removeTag_tags, removeTag_tasks.
  split; [|split; [|split]].
  - intros Hin. apply filter_In in Hin. destruct Hin as [_ Hne].
    now rewrite String.eqb_refl in Hne.
  - intros other Hne. rewrite filter_In. split; [tauto|].
    intros Hin. split; [exact Hin|].
    apply String.eqb_neq in Hne. now rewrite Hne.
  - apply length_map.
  - intros i task Hi.
    rewrite nth_error_map, Hi. simpl.
    destruct (String.eqb_spec (Task.tag task) tagName) as [E|E].
    + eexists. split; [reflexivity|]. simpl. repeat split; tauto.
    + exists task. repeat split; tauto.
Qed.
End RemoveTag.

(** ** Reading the queue *)

Section Reads.
Import SyncManager.

Lemma deliveries_app (evs evs' : list Event) :
  DrainSpec.deliveries (evs ++ evs')
  = DrainSpec.deliveries evs ++ DrainSpec.deliveries evs'.
Proof.
  induction evs as [|ev evs IH]; simpl; [reflexivity|].
  destruct ev; simpl; now rewrite ?IH.
Qed.

Lemma completions_app (evs evs' : list Event) :
  DrainSpec.completions (evs ++ evs')
  = DrainSpec.completions evs ++ DrainSpec.completions evs'.
Proof.
  induction evs as [|ev evs IH]; simpl; [reflexivity|].
  destruct ev; simpl; now rewrite ?IH.
Qed.

Lemma idbRequest_cases (ev : Event) (w : World) :
  (exists reason, hd None (idbFaults w) = Some reason
     /\ idbRequest ev w = (Rejected (StoreError reason), requested ev w))
  \/ (hd None (idbFaults w) = None
     /\ idbRequest ev w = (Resolved tt, requested ev w)).
Proof.
  unfold idbRequest.
  destruct (idbFaults w) as [|[reason|] fs]; simpl; eauto.
Qed.

Lemma updateLastSyncTime_cases (w : World) :
  (exists reason,
     hd None (lsFaults w) = Some reason
     /\ updateLastSyncTime w
        = (Rejected (SetItemError reason),
           setLsFaults (tl (lsFaults w)) (setLastSyncTime (Some (now w)) w)))
  \/ (hd None (lsFaults w) = None
      /\ updateLastSyncTime w
         = (Resolved tt,
            setLsFaults (tl (lsFaults w))
              (setLocalStorage
                 (mkLocalStorage (ls_todoApp (localStorage w)) (Some (now w)))
                 (setLastSyncTime (Some (now w)) w)))).
Proof.
  unfold updateLastSyncTime, bind, modify, gets, setItem. simpl.
  destruct (lsFaults w) as [|[reason|] rest]; simpl; eauto.
Qed.

Lemma load_resolved (s : StoreName) (w w1 : World) (l : list (RecordOf s)) :
  loadFromIndexedDB s w = (Resolved l, w1) ->
  exists d, db w = Some d /\ l = objectStore s d
            /\ hd None (idbFaults w) = None
            /\ w1 = requested (IdbGetAll s) w.
Proof.
  unfold loadFromIndexedDB, bind, ret. intros H.
  destruct (db w) as [d|]; [|discriminate].
  destruct (idbRequest_cases (IdbGetAll s) w) as [(r & _ & E)|(F & E)];
    rewrite E in H; inversion H; subst; eauto.
Qed.

Lemma load_rejected (s : StoreName) (w w1 : World) (e : Error) :
  loadFromIndexedDB s w = (Rejected e, w1) ->
  (db w = None /\ e = NotInitialized /\ w1 = w)
  \/ (exists reason, hd None (idbFaults w) = Some reason
        /\ e = StoreError reason /\ w1 = requested (IdbGetAll s) w).
Proof.
  unfold loadFromIndexedDB, bind, ret. intros H.
  destruct (db w) as [d|]; [|inversion H; auto].
  destruct (idbRequest_cases (IdbGetAll s) w) as [(r & F & E)|(F & E)];
    rewrite E in H; inversion H; subst; eauto.
Qed.

Lemma load_settles (s : StoreName) (w : World) :
  fst (loadFromIndexedDB s w) <> Pending.
Proof.
  unfold loadFromIndexedDB, bind, ret.
  destruct (db w) as [d|]; simpl; [|discriminate].
  destruct (idbRequest_cases (IdbGetAll s) w) as [(r & _ & E)|(_ & E)];
    rewrite E; discriminate.
Qed.

(** A read leaves everything but the request log and the fault script. *)
Lemma load_frame (s : StoreName) (w : World) :
  let w1 := snd (loadFromIndexedDB s w) in
  isOnline w1 = isOnline w /\ lastSyncTime w1 = lastSyncTime w
  /\ db w1 = db w /\ localStorage w1 = localStorage w
  /\ now w1 = now w /\ attempts w1 = attempts w
  /\ (trace w1 = trace w \/ trace w1 = trace w ++ [IdbGetAll s]).
Proof.
  cbv zeta. unfold loadFromIndexedDB, bind, ret.
  destruct (db w) as [d|] eqn:Hd; simpl; [|repeat split; auto].
  destruct (idbRequest_cases (IdbGetAll s) w) as [(r & _ & E)|(_ & E)];
    rewrite E; simpl; repeat split; auto.
Qed.
End Reads.

(** ** Offline, empty queue, unreadable queue *)

Section DrainEdges.
Import SyncManager.

(** C6.  While offline a drain returns at once and changes nothing: the
    world after the call is the world before it, so the queue, the
    request and delivery log, the notifications and [lastSyncTime] are
    all as they were. *)
Theorem drain_offline_is_noop (w : World) :
  isOnline w = false -> processSyncQueue w = (Resolved tt, w).
Proof. intros H. unfold processSyncQueue. now rewrite H. Qed.

Lemma drain_offline_is_noop_witness :
  let w := Samples.world false (Some Samples.fullDb) [] [] in
  isOnline w = false /\ processSyncQueue w = (Resolved tt, w).
Proof. split; [reflexivity | apply drain_offline_is_noop; reflexivity]. Defined.

(** C3, as the code has it.  Online with an empty queue, a drain resolves
    once the read has returned: no delivery, no notification, and
    [lastSyncTime] (in memory and in [localStorage]) keeps its old
    value. *)
Theorem drain_empty_queue (w w1 : World) :
  isOnline w = true ->
  loadFromIndexedDB PendingSync w = (Resolved [], w1) ->
  processSyncQueue w = (Resolved tt, w1)
  /\ trace w1 = trace w ++ [IdbGetAll PendingSync]
  /\ lastSyncTime w1 = lastSyncTime w
  /\ localStorage w1 = localStorage w
  /\ db w1 = db w
  /\ attempts w1 = attempts w.
Proof.
  intros Hon Hload. split.
  - unfold processSyncQueue, tryCatch, bind. rewrite Hon. simpl.
    now rewrite Hload.
  - apply load_resolved in Hload. destruct Hload as (d & _ & _ & _ & ->).
    simpl. repeat split; auto.
Qed.

Lemma drain_empty_queue_witness :
  let w := Samples.world true (Some Samples.emptyDb) [] [] in
  let w1 := requested (IdbGetAll PendingSync) w in
  (isOnline w = true /\ loadFromIndexedDB PendingSync w = (Resolved [], w1))
  /\ processSyncQueue w = (Resolved tt, w1)
  /\ lastSyncTime w1 = None.
Proof.
  split; [split; reflexivity|].
  split; [|reflexivity].
  apply (drain_empty_queue (Samples.world true (Some Samples.emptyDb) [] [])); reflexivity.
Defined.

(** C3, as the specification states it, fails: after a drain of an empty
    queue [lastSyncTime] is not the current time. *)
Lemma drain_empty_queue_keeps_lastSyncTime :
  ~ (forall w w1,
       isOnline w = true ->
       loadFromIndexedDB PendingSync w = (Resolved [], w1) ->
       exists w', processSyncQueue w = (Resolved tt, w')
                  /\ lastSyncTime w' = Some (now w')).
Proof.
  intros claim.
  destruct (claim (Samples.world true (Some Samples.emptyDb) [] []) _ eq_refl eq_refl)
    as (w' & Hrun & Htime).
  vm_compute in Hrun. inversion Hrun; subst. discriminate.
Qed.

(** C7.  When the read of the queue is rejected, the pass ends there: no
    entry is delivered, the stores and [lastSyncTime] are untouched, and
    the one event dispatched is a [syncComplete] with [success = false]
    and the message of the read error. *)
Theorem drain_read_failure (w w1 : World) (e : Error) :
  isOnline w = true ->
  loadFromIndexedDB PendingSync w = (Rejected e, w1) ->
  exists w',
    processSyncQueue w = (Resolved tt, w')
    /\ trace w' = trace w1 ++ [SyncComplete false (Some (message e)) (now w)]
    /\ DrainSpec.completions (trace w') =
         DrainSpec.completions (trace w) ++ [(false, Some (message e), now w)]
    /\ DrainSpec.deliveries (trace w') = DrainSpec.deliveries (trace w)
    /\ lastSyncTime w' = lastSyncTime w
    /\ localStorage w' = localStorage w
    /\ db w' = db w
    /\ attempts w' = attempts w.
Proof.
  intros Hon Hload.
  exists (log (SyncComplete false (Some (message e)) (now w1)) w1).
  pose proof (load_frame PendingSync w) as F. rewrite Hload in F. simpl in F.
  destruct F as (_ & Ft & Fd & Fl & Fn & Fa & Ftr).
  split.
  - unfold processSyncQueue, tryCatch, bind. rewrite Hon. simpl.
    now rewrite Hload.
  - simpl. rewrite Fn, Ft, Fd, Fl, Fa.
    rewrite completions_app, deliveries_app. simpl.
    destruct Ftr as [-> | ->];
      rewrite ?completions_app, ?deliveries_app; simpl;
      rewrite ?app_nil_r; repeat split; auto.
Qed.
End DrainEdges.

(** ** Outcomes of a pass, forced sync, status *)

Section Outcomes.
Import SyncManager.

(** The world after a served request that rewrote one store. *)
Lemma delete_cases (s : StoreName) (k : string) (w : World) :
  (db w = None /\ deleteFromIndexedDB s k w = (Rejected NotInitialized, w))
  \/ (exists d reason,
        db w = Some d /\ hd None (idbFaults w) = Some reason
        /\ deleteFromIndexedDB s k w
           = (Rejected (StoreError reason), requested (IdbDelete s k) w))
  \/ (exists d,
        db w = Some d /\ hd None (idbFaults w) = None
        /\ deleteFromIndexedDB s k w
           = (Resolved tt,
              setDb (Some (setObjectStore s
                             (ObjectStore.delete (keyPath s) k (objectStore s d)) d))
                    (requested (IdbDelete s k) w))).
Proof.
  unfold deleteFromIndexedDB, bind, updateStore, modify.
  destruct (db w) as [d|] eqn:Hd; [right|left; auto].
  destruct (idbRequest_cases (IdbDelete s k) w) as [(r & F & E)|(F & E)];
    rewrite E; [left; eauto|right].
  exists d. simpl. rewrite Hd. auto.
Qed.

Lemma save_one_cases (s : StoreName) (r : RecordOf s) (w : World) :
  (db w = None /\ saveToIndexedDB s (One r) w = (Rejected NotInitialized, w))
  \/ (exists d reason,
        db w = Some d /\ hd None (idbFaults w) = Some reason
        /\ saveToIndexedDB s (One r) w
           = (Rejected (StoreError reason), requested (IdbPut s (keyPath s r)) w))
  \/ (exists d,
        db w = Some d /\ hd None (idbFaults w) = None
        /\ saveToIndexedDB s (One r) w
           = (Resolved (keyPath s r),
              setDb (Some (setObjectStore s
                             (ObjectStore.put (keyPath s) r (objectStore s d)) d))
                    (requested (IdbPut s (keyPath s r)) w))).
Proof.
  unfold saveToIndexedDB, bind, updateStore, modify, ret.
  destruct (db w) as [d|] eqn:Hd; [right|left; auto].
  destruct (idbRequest_cases (IdbPut s (keyPath s r)) w) as [(e & F & E)|(F & E)];
    rewrite E; [left; eauto|right].
  exists d. simpl. rewrite Hd. auto.
Qed.

(** The same for the pending queue, with the store written out. *)
Lemma queue_delete_cases (k : string) (w : World) :
  (db w = None /\ deleteFromIndexedDB PendingSync k w = (Rejected NotInitialized, w))
  \/ (exists d reason,
        db w = Some d /\ hd None (idbFaults w) = Some reason
        /\ deleteFromIndexedDB PendingSync k w
           = (Rejected (StoreError reason), requested (IdbDelete PendingSync k) w))
  \/ (exists d,
        db w = Some d /\ hd None (idbFaults w) = None
        /\ deleteFromIndexedDB PendingSync k w
           = (Resolved tt,
              setDb (Some (setQueue (ObjectStore.delete SyncItem.id k (pendingSync d)) d))
                    (requested (IdbDelete PendingSync k) w))).
Proof. exact (delete_cases PendingSync k w). Qed.

Lemma queue_save_cases (item : SyncItem.t) (w : World) :
  (db w = None
   /\ saveToIndexedDB PendingSync (@One SyncItem.t item) w = (Rejected NotInitialized, w))
  \/ (exists d reason,
        db w = Some d /\ hd None (idbFaults w) = Some reason
        /\ saveToIndexedDB PendingSync (@One SyncItem.t item) w
           = (Rejected (StoreError reason),
              requested (IdbPut PendingSync (SyncItem.id item)) w))
  \/ (exists d,
        db w = Some d /\ hd None (idbFaults w) = None
        /\ saveToIndexedDB PendingSync (@One SyncItem.t item) w
           = (Resolved (SyncItem.id item),
              setDb (Some (setQueue (ObjectStore.put SyncItem.id item (pendingSync d)) d))
                    (requested (IdbPut PendingSync (SyncItem.id item)) w))).
Proof. exact (save_one_cases PendingSync item w). Qed.

Lemma handleSyncFailure_settles (item : SyncItem.t) (w : World) :
  fst (handleSyncFailure item w) <> Pending.
Proof.
  unfold handleSyncFailure. cbv zeta.
  destruct (_ >=? _).
  - destruct (queue_delete_cases (SyncItem.id (SyncItem.bump item)) w)
      as [(_ & E)|[(d & r & _ & _ & E)|(d & _ & _ & E)]];
      rewrite E; discriminate.
  - unfold bind, ret.
    destruct (queue_save_cases (SyncItem.bump item) w)
      as [(_ & E)|[(d & r & _ & _ & E)|(d & _ & _ & E)]];
      rewrite E; discriminate.
Qed.

Lemma syncOne_settles (item : SyncItem.t) (w : World) :
  fst (syncOne item w) <> Pending.
Proof.
  unfold syncOne, tryCatch, bind, syncSingleItem.
  destruct (fails (nextAttempt w)).
  - apply handleSyncFailure_settles.
  - destruct (queue_delete_cases (SyncItem.id item) (attempted item w))
      as [(_ & E)|[(d & r & _ & _ & E)|(d & _ & _ & E)]];
      rewrite E; try apply handleSyncFailure_settles; discriminate.
Qed.

Lemma syncAll_settles (items : list SyncItem.t) (w : World) :
  fst (syncAll items w) <> Pending.
Proof.
  revert w. induction items as [|item rest IH]; intros w; simpl.
  - discriminate.
  - unfold bind. pose proof (syncOne_settles item w) as H.
    destruct (syncOne item w) as [[u|e|] w1]; simpl in *;
      [apply IH | discriminate | congruence].
Qed.

Lemma processSyncQueue_resolves (w : World) :
  exists w', processSyncQueue w = (Resolved tt, w').
Proof.
  unfold processSyncQueue. destruct (isOnline w); simpl; [|eauto].
  unfold updateLastSyncTime, tryCatch, bind, notifySyncComplete, modify, ret,
    gets, setItem.
  pose proof (load_settles PendingSync w) as Hl.
  destruct (loadFromIndexedDB PendingSync w) as [[items|e|] w1]; simpl in *;
    [|eauto|congruence].
  destruct items as [|item rest]; [eauto|].
  pose proof (syncAll_settles (item :: rest) w1) as Hs.
  destruct (syncAll (item :: rest) w1) as [[u|e|] w2]; simpl in *;
    [destruct u | eauto | congruence].
  destruct (lsFaults w2) as [|[reason|] rest']; simpl; eauto.
Qed.

(** C8.  A forced sync is rejected exactly when the manager is offline;
    the error is then the offline error and the world (queue,
    [lastSyncTime], everything else) is as before.  Online, the call is
    the drain pass itself: same outcome, same final world, settled only
    when the pass has ended. *)
Theorem forceSyncNow_offline_iff (w : World) :
  (if isOnline w
   then forceSyncNow w = processSyncQueue w
   else forceSyncNow w = (Rejected OfflineError, w))
  /\ ((exists e w', forceSyncNow w = (Rejected e, w')) <-> isOnline w = false)
  /\ (forall e w', forceSyncNow w = (Rejected e, w') -> e = OfflineError /\ w' = w).
Proof.
  unfold forceSyncNow.
  destruct (processSyncQueue_resolves w) as (w1 & Hrun).
  destruct (isOnline w); simpl; rewrite ?Hrun.
  - split; [reflexivity|]. split.
    + split; [intros (e & w' & H); discriminate | discriminate].
    + intros e w' H. discriminate.
  - split; [reflexivity|]. split.
    + split; [reflexivity | eauto].
    + intros e w' H. inversion H. auto.
Qed.

(** C10.  The status query always resolves.  When the read of the queue
    succeeds it reports the number of queued operations, with
    [hasPendingSync] set exactly when that number is positive; when the
    read is rejected it reports the defaults together with the current
    online flag. *)
Theorem getSyncStatus_never_rejects (w : World) :
  (exists st w', getSyncStatus w = (Resolved st, w'))
  /\ (forall items w1,
        loadFromIndexedDB PendingSync w = (Resolved items, w1) ->
        exists st,
          getSyncStatus w = (Resolved st, w1)
          /\ SyncStatus.pendingCount st = Z.of_nat (length items)
          /\ (SyncStatus.hasPendingSync st = true <-> 0 < SyncStatus.pendingCount st)
          /\ SyncStatus.lastSyncTime st = lastSyncTime w
          /\ SyncStatus.isOnline st = isOnline w)
  /\ (forall e w1,
        loadFromIndexedDB PendingSync w = (Rejected e, w1) ->
        getSyncStatus w
        = (Resolved (SyncStatus.mk false 0 None (isOnline w)), w1)).
Proof.
  unfold getSyncStatus, tryCatch, bind, gets.
  pose proof (load_settles PendingSync w) as Hl.
  pose proof (load_frame PendingSync w) as F.
  destruct (loadFromIndexedDB PendingSync w) as [[items|e|] w1]; simpl in *;
    [| |congruence]; destruct F as (Fo & Ft & _).
  - split; [eauto|]. split; [|discriminate].
    intros items' w1' H. inversion H; subst.
    eexists. split; [reflexivity|]. simpl.
    repeat split; auto; apply Z.ltb_lt.
  - split; [eauto|]. split; [discriminate|].
    intros e' w1' H. inversion H; subst. now rewrite Fo.
Qed.

(** C4.  A snapshot without a data section is rejected with the
    invalid-format error before anything else happens: the world after the
    call is the world before it, no store was cleared and no request was
    issued. *)
Theorem restore_without_data_rejected (backup : Snapshot) (w : World) :
  data backup = None ->
  restoreFromBackup backup w = (Rejected InvalidFormat, w).
Proof.
  intros H. unfold restoreFromBackup, tryCatch. now rewrite H.
Qed.

Lemma restore_without_data_rejected_witness :
  let w := Samples.world true (Some Samples.fullDb) [] [] in
  let backup := mkSnapshot None None None in
  data backup = None
  /\ restoreFromBackup backup w = (Rejected InvalidFormat, w).
Proof.
  split; [reflexivity | apply restore_without_data_rejected; reflexivity].
Defined.

Lemma drain_read_failure_witness :
  let w := Samples.world true (Some Samples.fullDb) [] [Some "UnknownError"] in
  let w1 := requested (IdbGetAll PendingSync) w in
  (isOnline w = true
   /\ loadFromIndexedDB PendingSync w = (Rejected (StoreError "UnknownError"), w1))
  /\ exists w',
       processSyncQueue w = (Resolved tt, w')
       /\ DrainSpec.completions (trace w') = [(false, Some "UnknownError", 1000)]
       /\ lastSyncTime w' = None.
Proof.
  split; [split; reflexivity|].
  destruct (drain_read_failure
              (Samples.world true (Some Samples.fullDb) [] [Some "UnknownError"])
              _ _ eq_refl eq_refl)
    as (w' & Hrun & _ & Hc & _ & Ht & _).
  exists w'. repeat split; assumption.
Defined.
End Outcomes.

(** ** The retry policy *)

Section RetryPolicy.
Import SyncManager.

(** [handleSyncFailure] against section 4.5: one request, the one the
    policy names; served, it leaves the queue the policy describes. *)
Lemma handleSyncFailure_cases (item : SyncItem.t) (w : World) (d : Database) :
  db w = Some d ->
  (exists reason,
     hd None (idbFaults w) = Some reason
     /\ handleSyncFailure item w
        = (Rejected (StoreError reason), requested (DrainSpec.retryRequest item) w))
  \/ (hd None (idbFaults w) = None
      /\ handleSyncFailure item w
         = (Resolved tt,
            setDb (Some (setQueue (DrainSpec.retryPolicy item (pendingSync d)) d))
                  (requested (DrainSpec.retryRequest item) w))).
Proof.
  intros Hd.
  unfold handleSyncFailure, DrainSpec.retryPolicy, DrainSpec.retryRequest.
  cbv zeta.
  change (SyncItem.retryCount (SyncItem.bump item))
    with (SyncItem.retryCount item + 1).
  change (SyncItem.maxRetries (SyncItem.bump item)) with (SyncItem.maxRetries item).
  change (SyncItem.id (SyncItem.bump item)) with (SyncItem.id item).
  destruct (SyncItem.retryCount item + 1 >=? SyncItem.maxRetries item).
  - destruct (queue_delete_cases (SyncItem.id item) w)
      as [(E & _)|[(d0 & r & _ & F & E)|(d0 & E0 & F & E)]].
    + congruence.
    + left. eauto.
    + right. rewrite E. split; [assumption|]. congruence.
  - unfold bind, ret.
    destruct (queue_save_cases (SyncItem.bump item) w)
      as [(E & _)|[(d0 & r & _ & F & E)|(d0 & E0 & F & E)]].
    + congruence.
    + left. rewrite E. eauto.
    + right. rewrite E. split; [assumption|]. simpl. congruence.
Qed.

Lemma retryPolicy_bounded (item : SyncItem.t) (queue : list SyncItem.t) :
  DrainSpec.queueBounded queue ->
  DrainSpec.queueBounded (DrainSpec.retryPolicy item queue).
Proof.
  intros H. unfold DrainSpec.retryPolicy, DrainSpec.queueBounded in *.
  destruct (SyncItem.retryCount item + 1 >=? SyncItem.maxRetries item) eqn:E.
  - now apply Forall_delete.
  - apply Forall_put; [|assumption]. simpl.
    rewrite Z.geb_leb in E. apply Z.leb_gt in E. exact E.
Qed.

Lemma handleSyncFailure_bounded (item : SyncItem.t) (w : World) :
  DrainSpec.storeBounded w ->
  let w' := snd (handleSyncFailure item w) in
  DrainSpec.storeBounded w'
  /\ exists evs, trace w' = trace w ++ evs /\ DrainSpec.deliveries evs = [].
Proof.
  intros Hb. cbv zeta. unfold DrainSpec.storeBounded in *.
  destruct (db w) as [d|] eqn:Hd.
  - destruct (handleSyncFailure_cases item w d Hd) as [(r & _ & E)|(_ & E)];
      rewrite E; simpl; rewrite ?Hd.
    + split; [assumption|]. eexists. split; [reflexivity|].
      unfold DrainSpec.retryRequest. now destruct (_ >=? _).
    + split; [now apply retryPolicy_bounded|]. eexists. split; [reflexivity|].
      unfold DrainSpec.retryRequest. now destruct (_ >=? _).
  - assert (E : handleSyncFailure item w = (Rejected NotInitialized, w)).
    { unfold handleSyncFailure. cbv zeta.
      destruct (_ >=? _); unfold bind, deleteFromIndexedDB, saveToIndexedDB;
        now rewrite Hd. }
    rewrite E. simpl. rewrite Hd. split; [exact I|].
    exists []. now rewrite app_nil_r.
Qed.
End RetryPolicy.

(** ** The queue bound under any run of a pass *)

Section Bounded.
Import SyncManager.

Lemma storeBounded_same_db (w w' : World) :
  db w' = db w -> DrainSpec.storeBounded w -> DrainSpec.storeBounded w'.
Proof. unfold DrainSpec.storeBounded. now intros ->. Qed.

Lemma handleSyncFailure_after (item : SyncItem.t) (w0 w : World) (pre : list Event) :
  DrainSpec.storeBounded w ->
  trace w = trace w0 ++ pre ->
  let w' := snd (handleSyncFailure item w) in
  DrainSpec.storeBounded w'
  /\ exists evs, trace w' = trace w0 ++ evs
                 /\ DrainSpec.deliveries evs = DrainSpec.deliveries pre.
Proof.
  intros Hb Ht. cbv zeta.
  destruct (handleSyncFailure_bounded item w Hb) as (Hb' & evs & Hevs & Hdel).
  split; [exact Hb'|].
  exists (pre ++ evs). rewrite Hevs, Ht, app_assoc. split; [reflexivity|].
  rewrite deliveries_app, Hdel. apply app_nil_r.
Qed.

Lemma syncOne_bounded (item : SyncItem.t) (w : World) :
  DrainSpec.storeBounded w ->
  let w' := snd (syncOne item w) in
  DrainSpec.storeBounded w'
  /\ exists evs, trace w' = trace w ++ evs /\ DrainSpec.deliveries evs = [item].
Proof.
  intros Hb. cbv zeta.
  assert (Ha : DrainSpec.storeBounded (attempted item w))
    by (apply (storeBounded_same_db w); [reflexivity | exact Hb]).
  unfold syncOne, tryCatch, bind, syncSingleItem.
  destruct (fails (nextAttempt w)).
  - apply (handleSyncFailure_after item w (attempted item w) [Delivery item] Ha).
    reflexivity.
  - destruct (queue_delete_cases (SyncItem.id item) (attempted item w))
      as [(_ & E)|[(d & r & _ & _ & E)|(d & Hd & _ & E)]]; rewrite E.
    + apply (handleSyncFailure_after item w (attempted item w) [Delivery item] Ha).
      reflexivity.
    + apply (handleSyncFailure_after item w _
               [Delivery item; IdbDelete PendingSync (SyncItem.id item)]).
      * apply (storeBounded_same_db (attempted item w)); [reflexivity | exact Ha].
      * simpl. now rewrite <- app_assoc.
    + simpl. split.
      * unfold DrainSpec.storeBounded in *. simpl in *. rewrite Hd in Ha.
        now apply Forall_delete.
      * exists [Delivery item; IdbDelete PendingSync (SyncItem.id item)].
        split; [now rewrite <- app_assoc | reflexivity].
Qed.

(** Whatever the remote endpoint and the store do, a run of the loop
    keeps the bound and hands over a prefix of the entries, in order. *)
Lemma syncAll_bounded (items : list SyncItem.t) (w : World) :
  DrainSpec.storeBounded w ->
  let w' := snd (syncAll items w) in
  DrainSpec.storeBounded w'
  /\ exists evs rest,
       trace w' = trace w ++ evs /\ items = DrainSpec.deliveries evs ++ rest.
Proof.
  revert w. induction items as [|item items IH]; intros w Hb; cbv zeta.
  - simpl. split; [exact Hb|]. exists [], []. now rewrite app_nil_r.
  - simpl. unfold bind.
    destruct (syncOne_bounded item w Hb) as (Hb1 & evs1 & Ht1 & Hd1).
    destruct (syncOne item w) as [[u|e|] w1]; simpl in *.
    + destruct (IH w1 Hb1) as (Hb2 & evs2 & rest & Ht2 & Hd2).
      split; [exact Hb2|]. exists (evs1 ++ evs2), rest.
      rewrite Ht2, Ht1, app_assoc, deliveries_app, Hd1. simpl.
      now rewrite Hd2.
    + split; [exact Hb1|]. exists evs1, items. now rewrite Hd1.
    + split; [exact Hb1|]. exists evs1, items. now rewrite Hd1.
Qed.

Lemma processSyncQueue_bounded (w : World) :
  DrainSpec.storeBounded w ->
  let w' := snd (processSyncQueue w) in
  DrainSpec.storeBounded w'
  /\ exists evs,
       trace w' = trace w ++ evs
       /\ Forall (fun item => SyncItem.retryCount item < SyncItem.maxRetries item)
                 (DrainSpec.deliveries evs).
Proof.
  intros Hb. cbv zeta. unfold processSyncQueue.
  destruct (isOnline w); simpl.
  2:{ split; [exact Hb|]. exists []. split; [now rewrite app_nil_r | constructor]. }
  unfold tryCatch, bind.
  destruct (loadFromIndexedDB PendingSync w) as [[items|e|] w1] eqn:Hload.
  - apply load_resolved in Hload. destruct Hload as (d & Hd & Hitems & _ & Hw1).
    assert (Hb1 : DrainSpec.storeBounded w1)
      by (apply (storeBounded_same_db w); [now rewrite Hw1 | exact Hb]).
    assert (Hq : DrainSpec.queueBounded items).
    { unfold DrainSpec.storeBounded in Hb. rewrite Hd in Hb. now rewrite Hitems. }
    assert (Ht1 : trace w1 = trace w ++ [IdbGetAll PendingSync]) by now rewrite Hw1.
    clear Hitems Hw1.
    destruct items as [|item rest].
    + simpl. split; [exact Hb1|]. exists [IdbGetAll PendingSync].
      split; [exact Ht1 | constructor].
    + destruct (syncAll_bounded (item :: rest) w1 Hb1)
        as (Hb2 & evs & rest' & Ht & Hpre).
      assert (Hdone : Forall (fun it => SyncItem.retryCount it < SyncItem.maxRetries it)
                             (DrainSpec.deliveries evs)).
      { unfold DrainSpec.queueBounded in Hq. rewrite Hpre in Hq.
        now apply Forall_app in Hq. }
      destruct (syncAll (item :: rest) w1) as [[u|e|] w2]; simpl in *.
      * destruct (updateLastSyncTime_cases w2) as [(reason & _ & E)|(_ & E)];
          rewrite E; simpl.
        -- split; [exact Hb2|].
           exists ((IdbGetAll PendingSync :: evs)
                     ++ [SyncComplete false (Some reason) (now w2)]).
           split.
           ++ rewrite Ht, Ht1. simpl. now rewrite <- !app_assoc.
           ++ rewrite deliveries_app. simpl. now rewrite app_nil_r.
        -- split; [exact Hb2|].
           exists ((IdbGetAll PendingSync :: evs)
                     ++ [SyncComplete true None (now w2)]).
           split.
           ++ rewrite Ht, Ht1. simpl. now rewrite <- !app_assoc.
           ++ rewrite deliveries_app. simpl. now rewrite app_nil_r.
      * split; [exact Hb2|].
        exists ((IdbGetAll PendingSync :: evs)
                  ++ [SyncComplete false (Some (message e)) (now w2)]).
        split.
        -- rewrite Ht, Ht1. simpl. now rewrite <- !app_assoc.
        -- rewrite deliveries_app. simpl. now rewrite app_nil_r.
      * split; [exact Hb2|].
        exists (IdbGetAll PendingSync :: evs).
        split; [rewrite Ht, Ht1; simpl; now rewrite <- !app_assoc | exact Hdone].
  - pose proof (load_frame PendingSync w) as F. rewrite Hload in F. simpl in F.
    destruct F as (_ & _ & Fd & _ & _ & _ & Ftr).
    simpl. split.
    + apply (storeBounded_same_db w); [exact Fd | exact Hb].
    + destruct Ftr as [-> | ->]; eexists; (split; [rewrite <- ?app_assoc; reflexivity|]);
        simpl; constructor.
  - exfalso. apply (load_settles PendingSync w). now rewrite Hload.
Qed.
End Bounded.

(** ** The bound along any history *)

Section Histories.
Import SyncManager.
Import DrainSpec.

Lemma keepsBound_refl (w : World) : storeBounded w -> keepsBound w w.
Proof.
  intros H. split; [exact H|]. exists []. split; [now rewrite app_nil_r | constructor].
Qed.

Lemma keepsBound_trans (w w1 w2 : World) :
  keepsBound w w1 -> keepsBound w1 w2 -> keepsBound w w2.
Proof.
  intros (_ & evs1 & T1 & D1) (B2 & evs2 & T2 & D2).
  split; [exact B2|]. exists (evs1 ++ evs2).
  rewrite T2, T1, app_assoc, deliveries_app. split; [reflexivity|].
  apply Forall_app. now split.
Qed.

(** A change of the world that leaves the stores alone and delivers
    nothing. *)
Lemma keepsBound_quiet (w w' : World) (evs : list Event) :
  storeBounded w -> db w' = db w -> trace w' = trace w ++ evs ->
  deliveries evs = [] -> keepsBound w w'.
Proof.
  intros B D T E. split; [now apply (storeBounded_same_db w)|].
  exists evs. rewrite E. split; [exact T | constructor].
Qed.

Lemma safe_ret {A} (a : A) : safe (ret a).
Proof. intros w B. now apply keepsBound_refl. Qed.

Lemma safe_gets {A} (f : World -> A) : safe (gets f).
Proof. intros w B. now apply keepsBound_refl. Qed.

Lemma safe_throw {A} (e : Error) : safe (throw (A := A) e).
Proof. intros w B. now apply keepsBound_refl. Qed.

Lemma safe_bind {A B} (m : M A) (k : A -> M B) :
  safe m -> (forall a, safe (k a)) -> safe (bind m k).
Proof.
  intros Hm Hk w B0. unfold bind. specialize (Hm w B0).
  destruct (m w) as [[a|e|] w1]; simpl in *; try exact Hm.
  apply (keepsBound_trans w w1); [exact Hm|]. apply Hk. apply Hm.
Qed.

Lemma safe_tryCatch {A} (m : M A) (h : Error -> M A) :
  safe m -> (forall e, safe (h e)) -> safe (tryCatch m h).
Proof.
  intros Hm Hh w B0. unfold tryCatch. specialize (Hm w B0).
  destruct (m w) as [[a|e|] w1]; simpl in *; try exact Hm.
  apply (keepsBound_trans w w1); [exact Hm|]. apply Hh. apply Hm.
Qed.

Lemma safe_at_db {A} (m : M A) (e : Error) :
  safe m ->
  safe (fun w => match db w with None => (Rejected e, w) | Some _ => m w end).
Proof.
  intros Hm w B0. destruct (db w) eqn:Hd; [now apply Hm | now apply keepsBound_refl].
Qed.

Lemma safe_idbRequest (ev : Event) : deliveries [ev] = [] -> safe (idbRequest ev).
Proof.
  intros E w B0.
  destruct (idbRequest_cases ev w) as [(r & _ & H)|(_ & H)]; rewrite H; simpl;
    now apply (keepsBound_quiet w _ [ev]).
Qed.

Lemma safe_quiet (f : World -> World) :
  (forall w, db (f w) = db w) ->
  (forall w, exists evs, trace (f w) = trace w ++ evs /\ deliveries evs = []) ->
  safe (modify f).
Proof.
  intros Hd Ht w B0. simpl. destruct (Ht w) as (evs & T & E).
  now apply (keepsBound_quiet w _ evs).
Qed.

Lemma safe_updateQueue (f : list SyncItem.t -> list SyncItem.t) :
  (forall queue, queueBounded queue -> queueBounded (f queue)) ->
  safe (updateStore PendingSync f).
Proof.
  intros Hf w B0. unfold updateStore, modify. simpl. split.
  - unfold storeBounded in *. destruct (db w) as [d|] eqn:Hd; simpl; rewrite ?Hd;
      [now apply Hf | exact I].
  - exists []. split; [|constructor].
    destruct (db w); simpl; now rewrite app_nil_r.
Qed.

Lemma safe_updateOther (s : StoreName) (f : list (RecordOf s) -> list (RecordOf s)) :
  s <> PendingSync -> safe (updateStore s f).
Proof.
  intros Hs w B0. unfold updateStore, modify. simpl. split.
  - unfold storeBounded in *. destruct (db w) as [d|] eqn:Hd; simpl; rewrite ?Hd;
      [|exact I].
    destruct s; simpl; congruence.
  - exists []. split; [|constructor].
    destruct (db w); simpl; now rewrite app_nil_r.
Qed.

Lemma safe_clearStore (s : StoreName) : safe (clearStore s).
Proof.
  unfold clearStore. apply safe_at_db. apply safe_bind.
  - now apply safe_idbRequest.
  - intros _. destruct s; try (apply safe_updateOther; discriminate).
    apply safe_updateQueue. intros; constructor.
Qed.

Lemma safe_clearAllData : safe clearAllData.
Proof.
  unfold clearAllData. apply safe_tryCatch; [|intros; apply safe_throw].
  repeat (apply safe_bind; [apply safe_clearStore | intros _]).
  apply safe_clearStore.
Qed.

Lemma safe_load (s : StoreName) : safe (loadFromIndexedDB s).
Proof.
  intros w. unfold loadFromIndexedDB. destruct (db w) as [d|] eqn:Hd.
  - revert w Hd. 
    assert (H : safe (idbRequest (IdbGetAll s) ;;
                      ret (ObjectStore.getAll (objectStore s d))))
      by (apply safe_bind; [now apply safe_idbRequest | intros; apply safe_ret]).
    intros w _. apply H.
  - apply keepsBound_refl.
Qed.

Lemma safe_load_key (s : StoreName) (k : string) : safe (loadFromIndexedDB_key s k).
Proof.
  intros w. unfold loadFromIndexedDB_key. destruct (db w) as [d|] eqn:Hd.
  - assert (H : safe (idbRequest (IdbGet s k) ;;
                      ret (ObjectStore.get (keyPath s) k (objectStore s d))))
      by (apply safe_bind; [now apply safe_idbRequest | intros; apply safe_ret]).
    apply H.
  - apply keepsBound_refl.
Qed.

(** The requests failed by an abort change the log and the fault script
    only. *)
Lemma aborted_frame (s : StoreName) (l : list (RecordOf s)) (w : World) :
  db (aborted s l w) = db w
  /\ localStorage (aborted s l w) = localStorage w
  /\ lastSyncTime (aborted s l w) = lastSyncTime w
  /\ exists evs, trace (aborted s l w) = trace w ++ evs /\ deliveries evs = [].
Proof.
  revert w. unfold aborted.
  induction l as [|r l IH]; intros w; simpl.
  - repeat split. exists []. now rewrite app_nil_r.
  - destruct (IH (requested (IdbPut s (keyPath s r)) w)) as (D & L & T & evs & Tr & E).
    rewrite D, L, T. repeat split.
    exists (IdbPut s (keyPath s r) :: evs). rewrite Tr. simpl.
    now rewrite <- app_assoc.
Qed.

Lemma safe_bulkPuts (s : StoreName) (l : list (RecordOf s)) :
  s <> PendingSync -> safe (bulkPuts s l).
Proof.
  intros Hs. induction l as [|r l IH]; [apply safe_ret|].
  intros w B0. cbn [bulkPuts].
  pose proof (safe_idbRequest (IdbPut s (keyPath s r)) eq_refl w B0) as K.
  destruct (idbRequest (IdbPut s (keyPath s r)) w) as [[u|e|] w1];
    cbn [snd] in K |- *.
  - apply (keepsBound_trans w w1); [exact K|].
    assert (H : safe (updateStore s (ObjectStore.put (keyPath s) r) ;;
                      keys <- bulkPuts s l ;; ret (keyPath s r :: keys))).
    { apply safe_bind; [now apply safe_updateOther|intros _].
      apply safe_bind; [exact IH|intros; apply safe_ret]. }
    apply H, K.
  - apply (keepsBound_trans w w1); [exact K|].
    destruct (aborted_frame s l w1) as (D & _ & _ & evs & T & E).
    apply (keepsBound_quiet w1 _ evs); auto. apply K.
  - exact K.
Qed.

Lemma safe_save_many (s : StoreName) (l : list (RecordOf s)) :
  s <> PendingSync -> safe (saveToIndexedDB s (Many l)).
Proof.
  intros Hs w B0. unfold saveToIndexedDB.
  destruct (db w) as [d|] eqn:Hd; [|now apply keepsBound_refl].
  unfold bulkSave. pose proof (safe_bulkPuts s l Hs w B0) as H.
  destruct (bulkPuts s l w) as [[keys|e|] w1]; simpl in *; try exact H.
  destruct H as (_ & evs & T & D). split.
  - now apply (storeBounded_same_db w).
  - now exists evs.
Qed.

Lemma safe_save_queue (item : SyncItem.t) :
  SyncItem.retryCount item < SyncItem.maxRetries item ->
  safe (saveToIndexedDB PendingSync (@One SyncItem.t item)).
Proof.
  intros Hi. unfold saveToIndexedDB. apply safe_at_db.
  apply safe_bind; [now apply safe_idbRequest|intros _].
  apply safe_bind; [|intros; apply safe_ret].
  apply safe_updateQueue. intros queue Hq. now apply Forall_put.
Qed.

Lemma safe_processSyncQueue : safe processSyncQueue.
Proof. intros w B0. now apply processSyncQueue_bounded. Qed.

Lemma safe_setItem (store : LocalStorage -> LocalStorage) : safe (setItem store).
Proof.
  apply safe_quiet; intros w; unfold setItem;
    destruct (lsFaults w) as [|[reason|] rest]; simpl; try reflexivity;
    exists []; now rewrite app_nil_r.
Qed.

Lemma safe_restoreSection (s : StoreName) (section : option (list (RecordOf s))) :
  s <> PendingSync -> safe (restoreSection s section).
Proof.
  intros Hs. unfold restoreSection. destruct section as [[|r l]|]; try apply safe_ret.
  apply safe_bind; [now apply safe_save_many | intros; apply safe_ret].
Qed.

Lemma safe_syncIndexedDBToLocalStorage : safe syncIndexedDBToLocalStorage.
Proof.
  unfold syncIndexedDBToLocalStorage.
  apply safe_tryCatch; [|intros; apply safe_ret].
  apply safe_bind; [apply safe_load|intros tasks].
  apply safe_bind; [apply safe_load|intros tags].
  apply safe_bind; [apply safe_load_key|intros themeData].
  apply safe_setItem.
Qed.

Lemma safe_restoreFromBackup (backup : Snapshot) : safe (restoreFromBackup backup).
Proof.
  unfold restoreFromBackup. apply safe_tryCatch; [|intros; apply safe_throw].
  destruct (data backup) as [d|]; [|apply safe_throw].
  apply safe_bind; [apply safe_clearAllData|intros _].
  repeat (apply safe_bind; [apply safe_restoreSection; discriminate|intros _]).
  apply safe_bind; [apply safe_syncIndexedDBToLocalStorage|intros; apply safe_ret].
Qed.

Lemma safe_createBackup : safe createBackup.
Proof.
  unfold createBackup. apply safe_tryCatch; [|intros; apply safe_throw].
  repeat (apply safe_bind; [apply safe_load|intros ?]).
  apply safe_gets.
Qed.

Lemma safe_getSyncStatus : safe getSyncStatus.
Proof.
  unfold getSyncStatus.
  apply safe_tryCatch; [|intros; apply safe_gets].
  apply safe_bind; [apply safe_load|intros; apply safe_gets].
Qed.

Lemma safe_forceSyncNow : safe forceSyncNow.
Proof.
  intros w B0. unfold forceSyncNow.
  destruct (isOnline w); simpl;
    [now apply safe_processSyncQueue | now apply keepsBound_refl].
Qed.

Lemma safe_addToSyncQueue (syncId operation data entityType : string) :
  safe (addToSyncQueue syncId operation data entityType).
Proof.
  intros w. unfold addToSyncQueue. cbv zeta.
  apply safe_tryCatch; [|intros; apply safe_ret].
  apply safe_bind; [apply safe_save_queue; simpl; lia|intros _].
  intros w1 B1. destruct (isOnline w1); [|now apply keepsBound_refl].
  pose proof (safe_processSyncQueue w1 B1) as H.
  now destruct (processSyncQueue w1).
Qed.

Lemma safe_setOnline (b : bool) : safe (modify (setOnline b)).
Proof.
  apply safe_quiet; intros w; [reflexivity|].
  exists []. now rewrite app_nil_r.
Qed.

Lemma safe_onOnline : safe onOnline.
Proof.
  unfold onOnline. apply safe_bind; [apply safe_setOnline|].
  intros _. apply safe_processSyncQueue.
Qed.

Lemma safe_onOffline : safe onOffline.
Proof. apply safe_setOnline. Qed.

Lemma run_keepsBound (a : Action) (w : World) :
  storeBounded w -> keepsBound w (run a w).
Proof.
  intros B0. destruct a; simpl.
  - now apply safe_addToSyncQueue.
  - now apply safe_processSyncQueue.
  - now apply safe_forceSyncNow.
  - now apply safe_getSyncStatus.
  - now apply safe_createBackup.
  - now apply safe_restoreFromBackup.
  - now apply safe_clearAllData.
  - now apply safe_syncIndexedDBToLocalStorage.
  - now apply safe_onOnline.
  - now apply safe_onOffline.
  - apply (keepsBound_quiet w _ []); auto. simpl. now rewrite app_nil_r.
  - apply (keepsBound_quiet w _ []); auto. simpl. now rewrite app_nil_r.
Qed.

(** Along any history the queue stays bounded and nothing at its bound is
    handed to the remote endpoint. *)
Lemma runAll_keepsBound (actions : list Action) (w : World) :
  storeBounded w -> keepsBound w (runAll actions w).
Proof.
  revert w. induction actions as [|a actions IH]; intros w B0; simpl.
  - now apply keepsBound_refl.
  - pose proof (run_keepsBound a w B0) as H1.
    apply (keepsBound_trans w (run a w)); [exact H1|]. apply IH. apply H1.
Qed.
End Histories.

(** ** Overlapping calls *)

Section Interleavings.
Import SyncManager.
Import DrainSpec.
Import Interleaved.

(** *** The serial schedule is [SyncManager]'s *)

Lemma complete_bindP {A B : Type} (p : Proc A) (f : A -> Proc B) (w : World) :
  complete (bindP p f) w = bind (complete p) (fun a => complete (f a)) w.
Proof.
  revert B f w.
  induction p as [A o|A C m k IH|A C m k IH|A q _ k IH]; intros B f w.
  - destruct o; reflexivity.
  - simpl. unfold bind at 1. simpl. destruct (m w) as [o w1]. rewrite IH. reflexivity.
  - simpl. unfold bind at 1. simpl. destruct (m w) as [[c|e|] w1];
      rewrite ?IH; reflexivity.
  - simpl. unfold bind at 1. simpl. destruct (complete q w) as [o w1].
    rewrite IH. reflexivity.
Qed.

Lemma complete_tryP {A : Type} (p : Proc A) (h : Error -> Proc A) (w : World) :
  complete (tryP p h) w = tryCatch (complete p) (fun e => complete (h e)) w.
Proof.
  revert w.
  induction p as [A o|A C m k IH|A C m k IH|A q _ k IH]; intros w.
  - destruct o; reflexivity.
  - simpl. unfold tryCatch at 1. simpl. destruct (m w) as [o w1]. rewrite IH.
    reflexivity.
  - simpl. unfold tryCatch at 1. simpl. destruct (m w) as [[c|e|] w1];
      rewrite ?IH; reflexivity.
  - simpl. unfold tryCatch at 1. simpl. destruct (complete q w) as [o w1].
    rewrite IH. reflexivity.
Qed.

Lemma serial_ret {A : Type} (a : A) : serial (retP a) (ret a).
Proof. intros w. reflexivity. Qed.

Lemma serial_throw {A : Type} (e : Error) : serial (throwP (A := A) e) (throw e).
Proof. intros w. reflexivity. Qed.

Lemma serial_now {A : Type} (m : M A) : serial (nowP m) m.
Proof. intros w. simpl. now destruct (m w). Qed.

Lemma serial_await {A : Type} (m : M A) : serial (await m) m.
Proof. intros w. simpl. now destruct (m w) as [[a|e|] w1]. Qed.

Lemma serial_bind {A B : Type} (p : Proc A) (f : A -> Proc B) (m : M A) (k : A -> M B) :
  serial p m -> (forall a, serial (f a) (k a)) -> serial (bindP p f) (bind m k).
Proof.
  intros Hp Hf w. rewrite complete_bindP. unfold bind. rewrite Hp.
  destruct (m w) as [[a|e|] w1]; try reflexivity. apply Hf.
Qed.

Lemma serial_try {A : Type} (p : Proc A) (h : Error -> Proc A) (m : M A) (g : Error -> M A) :
  serial p m -> (forall e, serial (h e) (g e)) -> serial (tryP p h) (tryCatch m g).
Proof.
  intros Hp Hh w. rewrite complete_tryP. unfold tryCatch. rewrite Hp.
  destruct (m w) as [[a|e|] w1]; try reflexivity. apply Hh.
Qed.

Lemma complete_gets_bind {A B : Type} (g : World -> A) (f : A -> Proc B) (w : World) :
  complete (bindP (nowP (gets g)) f) w = complete (f (g w)) w.
Proof. reflexivity. Qed.

Lemma serial_handleSyncFailure (item : SyncItem.t) :
  serial (Interleaved.handleSyncFailure item) (SyncManager.handleSyncFailure item).
Proof.
  unfold Interleaved.handleSyncFailure, SyncManager.handleSyncFailure. cbv zeta.
  destruct (_ >=? _).
  - apply serial_await.
  - apply serial_bind; [apply serial_await | intros; apply serial_ret].
Qed.

Lemma serial_syncOne (item : SyncItem.t) :
  serial (Interleaved.syncOne item) (SyncManager.syncOne item).
Proof.
  apply serial_try; [|intros; apply serial_handleSyncFailure].
  apply serial_bind; [apply serial_await | intros; apply serial_await].
Qed.

Lemma serial_syncAll (items : list SyncItem.t) :
  serial (Interleaved.syncAll items) (SyncManager.syncAll items).
Proof.
  induction items as [|item rest IH];
    cbn [Interleaved.syncAll SyncManager.syncAll]; [apply serial_ret|].
  apply serial_bind; [apply serial_syncOne | intros; exact IH].
Qed.

Lemma serial_processSyncQueue :
  serial Interleaved.processSyncQueue SyncManager.processSyncQueue.
Proof.
  intros w. unfold Interleaved.processSyncQueue, SyncManager.processSyncQueue.
  rewrite complete_gets_bind. destruct (isOnline w); cbn [negb]; [|reflexivity].
  revert w. apply serial_try; [|intros; apply serial_now].
  apply serial_bind; [apply serial_await|intros [|item rest]]; [apply serial_ret|].
  apply serial_bind; [apply serial_syncAll|intros _].
  apply serial_bind; [apply serial_now|intros _; apply serial_now].
Qed.

Lemma serial_addToSyncQueue (syncId operation data entityType : string) :
  serial (Interleaved.addToSyncQueue syncId operation data entityType)
         (SyncManager.addToSyncQueue syncId operation data entityType).
Proof.
  intros w. unfold Interleaved.addToSyncQueue, SyncManager.addToSyncQueue.
  rewrite complete_gets_bind. cbv zeta. generalize (now w). intros timestamp.
  revert w. apply serial_try; [|intros; apply serial_ret].
  apply serial_bind; [apply serial_await|intros _].
  intros w1. rewrite complete_gets_bind. destruct (isOnline w1); [|reflexivity].
  unfold spawn. cbn [complete]. rewrite serial_processSyncQueue.
  now destruct (SyncManager.processSyncQueue w1).
Qed.

Lemma serial_forceSyncNow : serial Interleaved.forceSyncNow SyncManager.forceSyncNow.
Proof.
  intros w. unfold Interleaved.forceSyncNow, SyncManager.forceSyncNow.
  rewrite complete_gets_bind.
  destruct (isOnline w); cbn [negb]; [apply serial_processSyncQueue | reflexivity].
Qed.

Lemma serial_getSyncStatus : serial Interleaved.getSyncStatus SyncManager.getSyncStatus.
Proof.
  apply serial_try; [|intros; apply serial_now].
  apply serial_bind; [apply serial_await | intros; apply serial_now].
Qed.

Lemma serial_createBackup : serial Interleaved.createBackup SyncManager.createBackup.
Proof.
  apply serial_try; [|intros; apply serial_throw].
  repeat (apply serial_bind; [apply serial_await | intros ?]).
  apply serial_now.
Qed.

Lemma serial_clearAllData : serial Interleaved.clearAllData SyncManager.clearAllData.
Proof.
  apply serial_try; [|intros; apply serial_throw].
  repeat (apply serial_bind; [apply serial_await | intros ?]).
  apply serial_await.
Qed.

Lemma serial_syncIndexedDBToLocalStorage :
  serial Interleaved.syncIndexedDBToLocalStorage
         SyncManager.syncIndexedDBToLocalStorage.
Proof.
  apply serial_try; [|intros; apply serial_ret].
  repeat (apply serial_bind; [apply serial_await | intros ?]).
  apply serial_now.
Qed.

Lemma serial_restoreSection (s : StoreName) (section : option (list (RecordOf s))) :
  serial (Interleaved.restoreSection s section) (SyncManager.restoreSection s section).
Proof.
  destruct section as [[|r l]|]; try apply serial_ret.
  apply serial_bind; [apply serial_await | intros; apply serial_ret].
Qed.

Lemma serial_restoreFromBackup (backup : Snapshot) :
  serial (Interleaved.restoreFromBackup backup) (SyncManager.restoreFromBackup backup).
Proof.
  unfold Interleaved.restoreFromBackup, SyncManager.restoreFromBackup.
  apply serial_try; [|intros; apply serial_throw].
  destruct (data backup) as [d|]; [|apply serial_throw].
  apply serial_bind; [apply serial_clearAllData | intros _].
  repeat (apply serial_bind; [apply serial_restoreSection | intros _]).
  apply serial_bind; [apply serial_syncIndexedDBToLocalStorage | intros _].
  apply serial_ret.
Qed.

Lemma serial_onOnline : serial Interleaved.onOnline SyncManager.onOnline.
Proof.
  intros w. unfold Interleaved.onOnline, SyncManager.onOnline.
  rewrite complete_bindP. unfold bind. rewrite serial_now.
  unfold modify, spawn. cbn [complete]. rewrite serial_processSyncQueue.
  destruct (processSyncQueue_resolves (setOnline true w)) as (w' & R).
  now rewrite R.
Qed.

Lemma complete_forget {A : Type} (p : Proc A) (w : World) :
  snd (complete (forget p) w) = snd (complete p w).
Proof.
  unfold forget. rewrite complete_bindP. unfold bind.
  now destruct (complete p w) as [[a|e|] w1].
Qed.

(** Each call, run on its own to its end, is the step of a serial
    history. *)
Lemma complete_procOf (a : Action) (w : World) :
  snd (complete (procOf a) w) = run a w.
Proof.
  destruct a; unfold procOf, run; rewrite ?complete_forget.
  - now rewrite serial_addToSyncQueue.
  - now rewrite serial_processSyncQueue.
  - now rewrite serial_forceSyncNow.
  - now rewrite serial_getSyncStatus.
  - now rewrite serial_createBackup.
  - now rewrite serial_restoreFromBackup.
  - now rewrite serial_clearAllData.
  - now rewrite serial_syncIndexedDBToLocalStorage.
  - now rewrite serial_onOnline.
  - reflexivity.
  - reflexivity.
  - reflexivity.
Qed.

(** *** The bound under every interleaving *)

Lemma safeP_bind {A B : Type} (p : Proc A) (f : A -> Proc B) :
  safeP p -> (forall a, safeP (f a)) -> safeP (bindP p f).
Proof.
  revert B f.
  induction p as [A o|A C m k IH|A C m k IH|A q _ k IH]; intros B f Hp Hf.
  - destruct o; simpl; auto.
  - intros w Bw. destruct (Hp w Bw) as [K S]. split; [exact K|]. now apply IH.
  - intros w Bw. destruct (Hp w Bw) as [K S]. split; [exact K|]. now apply IH.
  - destruct Hp as [Hq Hk]. split; [exact Hq|]. now apply IH.
Qed.

Lemma safeP_try {A : Type} (p : Proc A) (h : Error -> Proc A) :
  safeP p -> (forall e, safeP (h e)) -> safeP (tryP p h).
Proof.
  induction p as [A o|A C m k IH|A C m k IH|A q _ k IH]; intros Hp Hh.
  - destruct o; simpl; auto.
  - intros w Bw. destruct (Hp w Bw) as [K S]. split; [exact K|]. now apply IH.
  - intros w Bw. destruct (Hp w Bw) as [K S]. split; [exact K|]. now apply IH.
  - destruct Hp as [Hq Hk]. split; [exact Hq|]. now apply IH.
Qed.

Lemma safeP_await {A : Type} (m : M A) : safe m -> safeP (await m).
Proof. intros H w Bw. split; [now apply H | exact I]. Qed.

Lemma safeP_now {A : Type} (m : M A) : safe m -> safeP (nowP m).
Proof. intros H w Bw. split; [now apply H | exact I]. Qed.

(** The code after an [await] may rely on what a bounded world gave. *)
Lemma safeP_await_bind {A B : Type} (m : M A) (f : A -> Proc B) :
  (forall w, storeBounded w ->
             keepsBound w (snd (m w))
             /\ match fst (m w) with Resolved a => safeP (f a) | _ => True end) ->
  safeP (bindP (await m) f).
Proof.
  intros H w Bw. destruct (H w Bw) as [K S]. split; [exact K|].
  destruct (fst (m w)); simpl; auto.
Qed.

Lemma safeP_gets_bind {A B : Type} (g : World -> A) (f : A -> Proc B) :
  (forall a, safeP (f a)) -> safeP (bindP (nowP (gets g)) f).
Proof.
  intros H w Bw. split; [now apply keepsBound_refl | apply H].
Qed.

Lemma safe_delete_queue (k : string) : safe (deleteFromIndexedDB PendingSync k).
Proof.
  unfold deleteFromIndexedDB. apply safe_at_db.
  apply safe_bind; [now apply safe_idbRequest|intros _].
  apply safe_updateQueue. intros queue Hq. now apply Forall_delete.
Qed.

Lemma safe_syncSingleItem (item : SyncItem.t) :
  SyncItem.retryCount item < SyncItem.maxRetries item ->
  safe (syncSingleItem item).
Proof.
  intros Hi w Bw. unfold syncSingleItem.
  assert (K : keepsBound w (attempted item w)).
  { split; [exact Bw|]. exists [Delivery item]. split; [reflexivity|].
    simpl. now constructor. }
  now destruct (fails (nextAttempt w)).
Qed.

Lemma safe_notifySyncComplete (success : bool) (error : option string) :
  safe (notifySyncComplete success error).
Proof.
  apply safe_quiet; intros w; [reflexivity|]. eexists. split; reflexivity.
Qed.

Lemma safe_updateLastSyncTime : safe updateLastSyncTime.
Proof.
  unfold updateLastSyncTime.
  apply safe_bind;
    [apply safe_quiet; intros w; [reflexivity | exists []; now rewrite app_nil_r]|].
  intros _. apply safe_bind; [apply safe_gets | intros; apply safe_setItem].
Qed.

Lemma safeP_handleSyncFailure (item : SyncItem.t) :
  safeP (Interleaved.handleSyncFailure item).
Proof.
  unfold Interleaved.handleSyncFailure. cbv zeta.
  destruct (SyncItem.retryCount (SyncItem.bump item)
            >=? SyncItem.maxRetries (SyncItem.bump item)) eqn:C.
  - apply safeP_await, safe_delete_queue.
  - apply safeP_bind; [|intros; exact I].
    apply safeP_await, safe_save_queue.
    rewrite Z.geb_leb in C. now apply Z.leb_gt in C.
Qed.

Lemma safeP_syncOne (item : SyncItem.t) :
  SyncItem.retryCount item < SyncItem.maxRetries item ->
  safeP (Interleaved.syncOne item).
Proof.
  intros Hi. apply safeP_try; [|intros; apply safeP_handleSyncFailure].
  apply safeP_bind; [now apply safeP_await, safe_syncSingleItem|].
  intros _. apply safeP_await, safe_delete_queue.
Qed.

Lemma safeP_syncAll (items : list SyncItem.t) :
  queueBounded items -> safeP (Interleaved.syncAll items).
Proof.
  induction 1 as [|item rest Hi _ IH]; cbn [Interleaved.syncAll]; [exact I|].
  apply safeP_bind; [now apply safeP_syncOne | intros; exact IH].
Qed.

Lemma safeP_processSyncQueue : safeP Interleaved.processSyncQueue.
Proof.
  apply safeP_gets_bind. intros [|]; cbn [negb]; [|exact I].
  apply safeP_try; [|intros; apply safeP_now, safe_notifySyncComplete].
  apply safeP_await_bind. intros w Bw. split; [now apply safe_load|].
  destruct (loadFromIndexedDB PendingSync w) as [[items|e|] w1] eqn:Hload;
    cbn [fst]; try exact I.
  apply load_resolved in Hload. destruct Hload as (d & Hd & Hitems & _).
  assert (Hq : queueBounded items).
  { unfold storeBounded in Bw. rewrite Hd in Bw. now rewrite Hitems. }
  destruct items as [|item rest]; [exact I|].
  apply safeP_bind; [now apply safeP_syncAll|intros _].
  apply safeP_bind; [apply safeP_now, safe_updateLastSyncTime|intros _].
  apply safeP_now, safe_notifySyncComplete.
Qed.

Lemma safeP_addToSyncQueue (syncId operation data entityType : string) :
  safeP (Interleaved.addToSyncQueue syncId operation data entityType).
Proof.
  apply safeP_gets_bind. intros timestamp. cbv zeta.
  apply safeP_try; [|intros; exact I].
  apply safeP_bind; [apply safeP_await, safe_save_queue; simpl; lia|intros _].
  apply safeP_gets_bind. intros [|]; [|exact I].
  split; [apply safeP_processSyncQueue | exact I].
Qed.

Lemma safeP_forceSyncNow : safeP Interleaved.forceSyncNow.
Proof.
  apply safeP_gets_bind. intros [|]; cbn [negb];
    [apply safeP_processSyncQueue | exact I].
Qed.

Lemma safeP_getSyncStatus : safeP Interleaved.getSyncStatus.
Proof.
  apply safeP_try; [|intros; apply safeP_now, safe_gets].
  apply safeP_bind; [apply safeP_await, safe_load|].
  intros; apply safeP_now, safe_gets.
Qed.

Lemma safeP_createBackup : safeP Interleaved.createBackup.
Proof.
  apply safeP_try; [|intros; exact I].
  repeat (apply safeP_bind; [apply safeP_await, safe_load|intros ?]).
  apply safeP_now, safe_gets.
Qed.

Lemma safeP_clearAllData : safeP Interleaved.clearAllData.
Proof.
  apply safeP_try; [|intros; exact I].
  repeat (apply safeP_bind; [apply safeP_await, safe_clearStore|intros ?]).
  apply safeP_await, safe_clearStore.
Qed.

Lemma safeP_syncIndexedDBToLocalStorage :
  safeP Interleaved.syncIndexedDBToLocalStorage.
Proof.
  apply safeP_try; [|intros; exact I].
  apply safeP_bind; [apply safeP_await, safe_load|intros tasks].
  apply safeP_bind; [apply safeP_await, safe_load|intros tags].
  apply safeP_bind; [apply safeP_await, safe_load_key|intros themeData].
  apply safeP_now, safe_setItem.
Qed.

Lemma safeP_restoreSection (s : StoreName) (section : option (list (RecordOf s))) :
  s <> PendingSync -> safeP (Interleaved.restoreSection s section).
Proof.
  intros Hs. destruct section as [[|r l]|]; try exact I.
  apply safeP_bind; [|intros; exact I].
  now apply safeP_await, safe_save_many.
Qed.

Lemma safeP_restoreFromBackup (backup : Snapshot) :
  safeP (Interleaved.restoreFromBackup backup).
Proof.
  unfold Interleaved.restoreFromBackup.
  apply safeP_try; [|intros; exact I].
  destruct (data backup) as [d|]; [|exact I].
  apply safeP_bind; [apply safeP_clearAllData|intros _].
  repeat (apply safeP_bind; [apply safeP_restoreSection; discriminate|intros _]).
  apply safeP_bind; [apply safeP_syncIndexedDBToLocalStorage|intros; exact I].
Qed.

Lemma safeP_forget {A : Type} (p : Proc A) : safeP p -> safeP (forget p).
Proof. intros H. apply safeP_bind; [exact H | intros; exact I]. Qed.

Lemma safeP_procOf (a : Action) : safeP (procOf a).
Proof.
  destruct a; unfold procOf.
  - apply safeP_addToSyncQueue.
  - apply safeP_processSyncQueue.
  - apply safeP_forceSyncNow.
  - apply safeP_forget, safeP_getSyncStatus.
  - apply safeP_forget, safeP_createBackup.
  - apply safeP_forget, safeP_restoreFromBackup.
  - apply safeP_clearAllData.
  - apply safeP_syncIndexedDBToLocalStorage.
  - apply safeP_bind; [apply safeP_now, safe_setOnline|intros _].
    split; [apply safeP_processSyncQueue | exact I].
  - apply safeP_now, safe_setOnline.
  - apply safeP_now, safe_quiet; intros w; [reflexivity|].
    exists []. now rewrite app_nil_r.
  - apply safeP_now, safe_quiet; intros w; [reflexivity|].
    exists []. now rewrite app_nil_r.
Qed.

Lemma advance_safe {A : Type} (p : Proc A) (w : World) :
  safeP p -> storeBounded w ->
  keepsBound w (snd (advance p w))
  /\ safeP (fst (fst (advance p w)))
  /\ Forall (safeP (A := unit)) (snd (fst (advance p w))).
Proof.
  revert w.
  induction p as [A o|A C m k IH|A C m k IH|A q IHq k IHk]; intros w Hp Bw.
  - simpl. split; [now apply keepsBound_refl|]. split; [exact I | constructor].
  - simpl. destruct (Hp w Bw) as [K S].
    destruct (m w) as [o w1]. simpl in K, S.
    destruct (IH o w1 S (proj1 K)) as (K1 & S1 & F1).
    split; [now apply (keepsBound_trans w w1)|]. now split.
  - simpl. split; [now apply keepsBound_refl|]. split; [exact Hp | constructor].
  - simpl. destruct Hp as [Hq Hk].
    destruct (IHq w Hq Bw) as (K1 & S1 & F1).
    destruct (advance q w) as [[q' qs] w1]. simpl in K1, S1, F1.
    destruct (IHk w1 Hk (proj1 K1)) as (K2 & S2 & F2).
    destruct (advance k w1) as [[k' ks] w2]. simpl in K2, S2, F2. simpl.
    split; [now apply (keepsBound_trans w w1)|]. split; [exact S2|].
    constructor; [exact S1|]. apply Forall_app. now split.
Qed.

Lemma resume_safe (p : Proc unit) (w : World) :
  safeP p -> storeBounded w ->
  keepsBound w (snd (resume p w))
  /\ safeP (fst (fst (resume p w)))
  /\ Forall (safeP (A := unit)) (snd (fst (resume p w))).
Proof.
  intros Hp Bw. destruct p as [o|C m k|C m k|q k]; simpl;
    try (split; [now apply keepsBound_refl|]; split; [exact Hp | constructor]).
  destruct (Hp w Bw) as [K S]. destruct (m w) as [o w1]. simpl in K, S.
  destruct o as [c|e|].
  - destruct (advance_safe (k (Resolved c)) w1 S (proj1 K)) as (K1 & S1 & F1).
    split; [now apply (keepsBound_trans w w1)|]. now split.
  - destruct (advance_safe (k (Rejected e)) w1 S (proj1 K)) as (K1 & S1 & F1).
    split; [now apply (keepsBound_trans w w1)|]. now split.
  - simpl. split; [exact K|]. split; [exact I | constructor].
Qed.

Lemma Forall_update {X : Type} (P : X -> Prop) (i : nat) (x : X) (l : list X) :
  P x -> Forall P l -> Forall P (update i x l).
Proof.
  intros Hx Hl. revert i.
  induction Hl as [|y l Hy Hl IH]; intros [|i]; simpl; constructor; auto.
Qed.

Lemma step_safe (s : Step) (sys : System) :
  storeBounded (world sys) -> Forall (safeP (A := unit)) (inflight sys) ->
  keepsBound (world sys) (world (step s sys))
  /\ Forall (safeP (A := unit)) (inflight (step s sys)).
Proof.
  intros Bw Hpool. destruct s as [a|i|itemId]; simpl.
  - destruct (advance_safe (procOf a) (world sys) (safeP_procOf a) Bw)
      as (K & S & F).
    destruct (advance (procOf a) (world sys)) as [[p started] w1]. simpl in *.
    split; [exact K|]. apply Forall_app. split; [exact Hpool|]. now constructor.
  - destruct (nth_error (inflight sys) i) as [p|] eqn:Hp;
      [|split; [now apply keepsBound_refl | exact Hpool]].
    assert (Sp : safeP p).
    { apply nth_error_In in Hp. rewrite Forall_forall in Hpool. now apply Hpool. }
    destruct (resume_safe p (world sys) Sp Bw) as (K & S & F).
    destruct (resume p (world sys)) as [[p' started] w1]. simpl in *.
    split; [exact K|]. apply Forall_app. split; [|exact F].
    now apply Forall_update.
  - split; [|exact Hpool].
    apply (safe_updateQueue (ObjectStore.delete SyncItem.id itemId)); [|exact Bw].
    intros queue Hq. now apply Forall_delete.
Qed.

(** Whatever calls overlap, and however their requests complete, the
    queue stays bounded and nothing at its bound is handed over. *)
Lemma steps_keepsBound (history : list Step) (sys : System) :
  storeBounded (world sys) -> Forall (safeP (A := unit)) (inflight sys) ->
  keepsBound (world sys) (world (steps history sys))
  /\ Forall (safeP (A := unit)) (inflight (steps history sys)).
Proof.
  revert sys. induction history as [|s history IH]; intros sys Bw Hpool; simpl.
  - split; [now apply keepsBound_refl | exact Hpool].
  - destruct (step_safe s sys Bw Hpool) as (K & F).
    destruct (IH (step s sys) (proj1 K) F) as (K' & F').
    split; [|exact F']. now apply (keepsBound_trans _ (world (step s sys))).
Qed.

Lemma steps_app (before after : list Step) (sys : System) :
  steps (before ++ after) sys = steps after (steps before sys).
Proof. apply fold_left_app. Qed.

Lemma interleaved_keepsBound (before after : list Step) (w : World) :
  storeBounded w ->
  keepsBound (world (steps before (mkSystem w [])))
             (world (steps after (steps before (mkSystem w [])))).
Proof.
  intros Bw.
  destruct (steps_keepsBound before (mkSystem w []) Bw (Forall_nil _)) as (K & F).
  now apply steps_keepsBound; [apply K|].
Qed.
End Interleavings.

(** ** C1: the retry policy and its bound *)

Section RetryBound.
Import SyncManager.
Import DrainSpec.

(** C1, as the code has it.  A failed delivery raises the entry's
    [retryCount] by one and issues one store request: a delete when the
    raised count has reached [maxRetries], a write-back of the raised
    entry otherwise.  When the store serves the request the entry is gone,
    respectively stored with the raised count; when the store fails it the
    call is rejected with the store's error and the database is as it was.
    Entries start at 0 of 3.  Either way, and after any further history of
    the manager, every stored entry has [retryCount < maxRetries], and
    every entry handed to the remote endpoint was below its bound: in a
    history whose calls run one after the other, and in a history whose
    calls overlap (drain passes that nobody awaits among them), with
    their requests completing in any order. *)
Theorem retry_policy_bounds (w : World) (d : Database) (item : SyncItem.t) :
  db w = Some d ->
  queueBounded (pendingSync d) ->
  let item' := SyncItem.bump item in
  let w' := snd (handleSyncFailure item w) in
  SyncItem.retryCount item' = SyncItem.retryCount item + 1
  /\ (forall reason,
        hd None (idbFaults w) = Some reason ->
        fst (handleSyncFailure item w) = Rejected (StoreError reason)
        /\ db w' = Some d)
  /\ (hd None (idbFaults w) = None ->
        fst (handleSyncFailure item w) = Resolved tt
        /\ exists queue',
             db w' = Some (setQueue queue' d)
             /\ (SyncItem.retryCount item' >= SyncItem.maxRetries item' ->
                 queue' = ObjectStore.delete SyncItem.id (SyncItem.id item) (pendingSync d)
                 /\ ObjectStore.get SyncItem.id (SyncItem.id item) queue' = None)
             /\ (SyncItem.retryCount item' < SyncItem.maxRetries item' ->
                 queue' = ObjectStore.put SyncItem.id item' (pendingSync d)
                 /\ ObjectStore.get SyncItem.id (SyncItem.id item) queue' = Some item'))
  /\ (forall syncId operation data entityType timestamp,
        let fresh := newSyncItem syncId operation data entityType timestamp in
        SyncItem.retryCount fresh = 0 /\ SyncItem.maxRetries fresh = 3)
  /\ storeBounded w'
  /\ (forall actions, keepsBound w' (runAll actions w'))
  /\ (forall before after,
        let sys := Interleaved.steps before (Interleaved.mkSystem w' []) in
        keepsBound (Interleaved.world sys)
                   (Interleaved.world (Interleaved.steps after sys))).
Proof.
  intros Hd Hq. cbv zeta.
  assert (Hb : storeBounded w) by (unfold storeBounded; now rewrite Hd).
  pose proof (handleSyncFailure_bounded item w Hb) as (Hb' & _).
  split; [reflexivity|].
  split; [|split; [|split; [|split; [|split]]]].
  - intros reason Hf.
    destruct (handleSyncFailure_cases item w d Hd) as [(r & F & E)|(F & E)];
      [|congruence].
    rewrite E. simpl. split; [congruence | exact Hd].
  - intros Hf.
    destruct (handleSyncFailure_cases item w d Hd) as [(r & F & E)|(F & E)];
      [congruence|].
    rewrite E. simpl. split; [reflexivity|].
    exists (retryPolicy item (pendingSync d)). split; [reflexivity|].
    unfold retryPolicy.
    change (SyncItem.retryCount (SyncItem.bump item))
      with (SyncItem.retryCount item + 1).
    change (SyncItem.maxRetries (SyncItem.bump item)) with (SyncItem.maxRetries item).
    destruct (SyncItem.retryCount item + 1 >=? SyncItem.maxRetries item) eqn:C;
      rewrite Z.geb_leb in C.
    + apply Z.leb_le in C. split; [|lia].
      intros _. split; [reflexivity | apply get_delete_same].
    + apply Z.leb_gt in C. split; [lia|].
      intros _. split; [reflexivity|].
      apply (get_put_same SyncItem.id (SyncItem.bump item)).
  - intros. split; reflexivity.
  - exact Hb'.
  - intros actions. now apply runAll_keepsBound.
  - intros before after. now apply interleaved_keepsBound.
Qed.

Lemma retry_policy_bounds_witness :
  let d := setQueue [Samples.op1_twice] Samples.fullDb in
  let w := Samples.world true (Some d) [] [] in
  (db w = Some d /\ queueBounded (pendingSync d))
  /\ fst (handleSyncFailure Samples.op1_twice w) = Resolved tt
  /\ storeBounded (snd (handleSyncFailure Samples.op1_twice w)).
Proof.
  assert (Hq : queueBounded (pendingSync (setQueue [Samples.op1_twice] Samples.fullDb)))
    by (repeat constructor).
  split; [split; [reflexivity | exact Hq]|].
  destruct (retry_policy_bounds
              (Samples.world true (Some (setQueue [Samples.op1_twice] Samples.fullDb)) [] [])
              _ Samples.op1_twice eq_refl Hq)
    as (_ & _ & Hok & _ & Hb & _).
  split; [apply Hok; reflexivity | exact Hb].
Defined.

(** C1, as the specification states it, fails: an entry whose raised
    count has reached [maxRetries] stays in the queue when the store
    fails the delete. *)
Lemma retry_policy_drop_can_fail :
  ~ (forall w d item,
       db w = Some d ->
       In item (pendingSync d) ->
       SyncItem.retryCount item + 1 >= SyncItem.maxRetries item ->
       forall d',
         db (snd (handleSyncFailure item w)) = Some d' ->
         ObjectStore.get SyncItem.id (SyncItem.id item) (pendingSync d') = None).
Proof.
  intros claim.
  specialize (claim
    (Samples.world true (Some (setQueue [Samples.op1_twice] Samples.fullDb)) []
                   [Some "UnknownError"])
    _ Samples.op1_twice eq_refl (or_introl eq_refl)).
  specialize (claim ltac:(simpl; lia) _ eq_refl).
  discriminate claim.
Qed.
End RetryBound.

(** ** C2: a pass over a store that serves every request *)

Section ReliablePass.
Import SyncManager.
Import DrainSpec.

Lemma reliable_hd (w : World) : reliable w -> hd None (idbFaults w) = None.
Proof.
  unfold reliable. destruct (idbFaults w) as [|f fs]; [reflexivity|].
  intros H. now inversion H.
Qed.

Lemma reliable_tl (w w' : World) :
  reliable w -> idbFaults w' = tl (idbFaults w) -> reliable w'.
Proof.
  unfold reliable. intros H ->. destruct (idbFaults w) as [|f fs]; [constructor|].
  now inversion H.
Qed.

Lemma deliveries_drainEvents (items : list SyncItem.t) (atts : list Attempt) :
  deliveries (drainEvents items atts) = items.
Proof.
  revert atts. induction items as [|item items IH]; intros atts; simpl; [reflexivity|].
  unfold retryRequest.
  destruct (fails (attemptOf atts)); [destruct (_ >=? _)|]; simpl; now rewrite IH.
Qed.

Lemma completions_drainEvents (items : list SyncItem.t) (atts : list Attempt) :
  completions (drainEvents items atts) = [].
Proof.
  revert atts. induction items as [|item items IH]; intros atts; simpl; [reflexivity|].
  unfold retryRequest.
  destruct (fails (attemptOf atts)); [destruct (_ >=? _)|]; simpl; now rewrite IH.
Qed.

(** One entry: the delivery, then the one store request its outcome
    calls for, and the loop goes on. *)
Lemma syncOne_reliable (item : SyncItem.t) (w : World) (d : Database) :
  db w = Some d ->
  reliable w ->
  exists w',
    syncOne item w = (Resolved tt, w')
    /\ db w' = Some (setQueue (drainQueue [item] (attempts w) (pendingSync d)) d)
    /\ trace w' = trace w ++ drainEvents [item] (attempts w)
    /\ now w' = drainClock [item] (attempts w) (now w)
    /\ attempts w' = tl (attempts w)
    /\ idbFaults w' = tl (idbFaults w)
    /\ isOnline w' = isOnline w
    /\ lastSyncTime w' = lastSyncTime w
    /\ localStorage w' = localStorage w
    /\ lsFaults w' = lsFaults w.
Proof.
  intros Hd Hr. pose proof (reliable_hd w Hr) as Hf.
  unfold syncOne, tryCatch, bind, syncSingleItem. simpl drainQueue.
  simpl drainEvents. simpl drainClock.
  change (attemptOf (attempts w)) with (nextAttempt w).
  destruct (fails (nextAttempt w)).
  - destruct (handleSyncFailure_cases item (attempted item w) d Hd)
      as [(r & F & _)|(_ & E)]; [simpl in F; congruence|].
    rewrite E. eexists. split; [reflexivity|]. simpl.
    rewrite <- app_assoc. repeat split; reflexivity.
  - destruct (queue_delete_cases (SyncItem.id item) (attempted item w))
      as [(E & _)|[(d0 & r & _ & F & _)|(d0 & Hd0 & _ & E)]].
    + simpl in E. congruence.
    + simpl in F. congruence.
    + rewrite E. simpl in Hd0. assert (d0 = d) by congruence. subst d0.
      eexists. split; [reflexivity|]. simpl.
      rewrite <- app_assoc. repeat split; reflexivity.
Qed.

Lemma syncAll_reliable (items : list SyncItem.t) (w : World) (d : Database) :
  db w = Some d ->
  reliable w ->
  exists w',
    syncAll items w = (Resolved tt, w')
    /\ db w' = Some (setQueue (drainQueue items (attempts w) (pendingSync d)) d)
    /\ trace w' = trace w ++ drainEvents items (attempts w)
    /\ now w' = drainClock items (attempts w) (now w)
    /\ isOnline w' = isOnline w
    /\ lastSyncTime w' = lastSyncTime w
    /\ localStorage w' = localStorage w
    /\ lsFaults w' = lsFaults w.
Proof.
  revert w d. induction items as [|item items IH]; intros w d Hd Hr.
  - exists w. simpl. rewrite app_nil_r, Hd. destruct d. repeat split; reflexivity.
  - destruct (syncOne_reliable item w d Hd Hr)
      as (w1 & E1 & D1 & T1 & N1 & A1 & F1 & O1 & L1 & S1 & Q1).
    destruct (IH w1 _ D1 (reliable_tl w w1 Hr F1))
      as (w2 & E2 & D2 & T2 & N2 & O2 & L2 & S2 & Q2).
    exists w2. simpl syncAll. unfold bind. rewrite E1, E2.
    split; [reflexivity|].
    rewrite D2, T2, T1, N2, N1, A1, O2, O1, L2, L1, S2, S1, Q2, Q1.
    simpl. rewrite <- app_assoc. repeat split; reflexivity.
Qed.

(** C2, as the code has it.  Online, the queue read and not empty, and
    every later store request served: the entries are handed to the remote
    endpoint one after the other in the order read, each followed by its
    own store request before the next delivery (a delete after a success,
    the retry policy's request after a failure); no failure stops the
    loop; at the end [lastSyncTime] is the clock at that moment.  When
    [localStorage] takes the write of that time, one [syncComplete] event
    with [success = true] is dispatched, the only one of the pass; when
    [setItem] throws, the stored time is the old one and the one event of
    the pass has [success = false] and the error thrown. *)
Theorem drain_pass_reliable (w w1 : World) (items : list SyncItem.t) :
  isOnline w = true ->
  loadFromIndexedDB PendingSync w = (Resolved items, w1) ->
  items <> [] ->
  reliable w1 ->
  exists w' d,
    processSyncQueue w = (Resolved tt, w')
    /\ db w = Some d
    /\ items = pendingSync d
    /\ deliveries (drainEvents items (attempts w)) = items
    /\ db w' = Some (setQueue (drainQueue items (attempts w) items) d)
    /\ lastSyncTime w' = Some (now w')
    /\ now w' = drainClock items (attempts w) (now w)
    /\ (hd None (lsFaults w) = None ->
        trace w' = trace w
                   ++ IdbGetAll PendingSync
                   :: drainEvents items (attempts w)
                   ++ [SyncComplete true None (now w')]
        /\ completions (IdbGetAll PendingSync
                          :: drainEvents items (attempts w)
                          ++ [SyncComplete true None (now w')])
           = [(true, None, now w')]
        /\ ls_lastSyncTime (localStorage w') = Some (now w'))
    /\ (forall reason,
          hd None (lsFaults w) = Some reason ->
          trace w' = trace w
                     ++ IdbGetAll PendingSync
                     :: drainEvents items (attempts w)
                     ++ [SyncComplete false (Some reason) (now w')]
          /\ completions (IdbGetAll PendingSync
                            :: drainEvents items (attempts w)
                            ++ [SyncComplete false (Some reason) (now w')])
             = [(false, Some reason, now w')]
          /\ localStorage w' = localStorage w).
Proof.
  intros Hon Hload Hne Hr.
  destruct (load_resolved _ _ _ _ Hload) as (d & Hd & Hitems & _ & Hw1).
  assert (Hd1 : db w1 = Some d) by now rewrite Hw1.
  destruct (syncAll_reliable items w1 d Hd1 Hr)
    as (w2 & E2 & D2 & T2 & N2 & O2 & L2 & S2 & Q2).
  assert (Ha : attempts w1 = attempts w) by now rewrite Hw1.
  assert (Ht : trace w1 = trace w ++ [IdbGetAll PendingSync]) by now rewrite Hw1.
  assert (Hn : now w1 = now w) by now rewrite Hw1.
  assert (Hs : localStorage w1 = localStorage w) by now rewrite Hw1.
  assert (Hq : lsFaults w1 = lsFaults w) by now rewrite Hw1.
  rewrite Ha, Hn, Hs, Hq in *. clear Ha Hn Hs Hq.
  change (items = pendingSync d) in Hitems.
  assert (Hrun : forall o w3,
            updateLastSyncTime w2 = (o, w3) ->
            processSyncQueue w
            = (match o with Pending => Pending | _ => Resolved tt end,
               match o with
               | Resolved _ => log (SyncComplete true None (now w3)) w3
               | Rejected e => log (SyncComplete false (Some (message e)) (now w3)) w3
               | Pending => w3
               end)).
  { intros o w3 E3. unfold processSyncQueue, tryCatch, bind. rewrite Hon. simpl.
    rewrite Hload. destruct items as [|item rest]; [congruence|].
    rewrite E2, E3. destruct o; reflexivity. }
  destruct (updateLastSyncTime_cases w2) as [(reason & F & E)|(F & E)];
    rewrite Q2 in F; eexists; exists d;
    (split; [exact (Hrun _ _ E)|]); simpl;
    rewrite D2, T2, Ht, N2, ?S2, <- Hitems;
    rewrite ?completions_app, ?completions_drainEvents, deliveries_drainEvents;
    rewrite <- ?app_assoc; simpl.
  - do 6 (split; [reflexivity || assumption|]). split.
    + intros G. congruence.
    + intros reason' G. assert (reason' = reason) by congruence. subst reason'.
      rewrite completions_app, completions_drainEvents. auto.
  - do 6 (split; [reflexivity || assumption|]). split.
    + intros _. auto.
    + intros reason G. congruence.
Qed.

Lemma drain_pass_reliable_witness :
  let w := Samples.world true (Some Samples.fullDb)
             [mkAttempt 700 true; mkAttempt 900 false] [] in
  let w1 := requested (IdbGetAll PendingSync) w in
  (isOnline w = true
   /\ loadFromIndexedDB PendingSync w = (Resolved [Samples.op1; Samples.op2], w1)
   /\ [Samples.op1; Samples.op2] <> []
   /\ reliable w1)
  /\ exists w',
       processSyncQueue w = (Resolved tt, w')
       /\ lastSyncTime w' = Some (now w')
       /\ now w' = 2600.
Proof.
  assert (Hr : reliable (requested (IdbGetAll PendingSync)
                           (Samples.world true (Some Samples.fullDb)
                              [mkAttempt 700 true; mkAttempt 900 false] [])))
    by constructor.
  split; [repeat split; [discriminate | exact Hr]|].
  destruct (drain_pass_reliable
              (Samples.world true (Some Samples.fullDb)
                 [mkAttempt 700 true; mkAttempt 900 false] [])
              _ [Samples.op1; Samples.op2] eq_refl eq_refl
              ltac:(discriminate) Hr)
    as (w' & d & Hrun & _ & _ & _ & _ & Ht & Hn & _ & _).
  exists w'. repeat split; assumption.
Defined.

(** C2, as the specification states it, fails: when the store fails the
    write-back of the retry policy, the pass ends without touching
    [lastSyncTime] and reports [success = false]. *)
Lemma drain_pass_aborts_on_store_failure :
  ~ (forall w w1 items,
       isOnline w = true ->
       loadFromIndexedDB PendingSync w = (Resolved items, w1) ->
       items <> [] ->
       exists w',
         processSyncQueue w = (Resolved tt, w')
         /\ lastSyncTime w' = Some (now w')
         /\ In (SyncComplete true None (now w')) (trace w')).
Proof.
  intros claim.
  destruct (claim
              (Samples.world true (Some Samples.fullDb) [mkAttempt 700 true]
                 [None; Some "QuotaExceededError"])
              _ [Samples.op1; Samples.op2] eq_refl eq_refl ltac:(discriminate))
    as (w' & Hrun & Htime & _).
  vm_compute in Hrun. inversion Hrun; subst. discriminate.
Qed.
End ReliablePass.

(** ** C5: backup, then restore *)

Section BackupRestore.
Import SyncManager.
Import DrainSpec.

(** A backup of an open store that serves its three reads: the snapshot
    has version 1.0.0, the clock as timestamp and the three collections in
    full; stores, [localStorage] and [lastSyncTime] are as before. *)
Lemma createBackup_shape (w : World) (d : Database) :
  db w = Some d ->
  reliable w ->
  exists w',
    createBackup w
    = (Resolved (mkSnapshot (Some "1.0.0") (Some (now w))
                   (Some (mkSnapshotData (Some (tasks d)) (Some (tags d))
                                         (Some (metadata d))))),
       w')
    /\ db w' = Some d
    /\ localStorage w' = localStorage w
    /\ lastSyncTime w' = lastSyncTime w
    /\ now w' = now w
    /\ reliable w'.
Proof.
  intros Hd Hr.
  assert (step : forall s w0, db w0 = Some d -> reliable w0 ->
            loadFromIndexedDB s w0
            = (Resolved (objectStore s d), requested (IdbGetAll s) w0)).
  { intros s w0 Hd0 Hr0. unfold loadFromIndexedDB, bind, ret. rewrite Hd0.
    destruct (idbRequest_cases (IdbGetAll s) w0) as [(r & F & _)|(_ & E)].
    - rewrite (reliable_hd w0 Hr0) in F. discriminate.
    - now rewrite E. }
  assert (next : forall ev w0, reliable w0 -> reliable (requested ev w0))
    by (intros ev w0 Hr0; now apply (reliable_tl w0)).
  eexists. split.
  - unfold createBackup, tryCatch, bind.
    rewrite (step Tasks w Hd Hr).
    rewrite (step Tags (requested (IdbGetAll Tasks) w) Hd (next _ _ Hr)).
    rewrite (step Metadata
               (requested (IdbGetAll Tags) (requested (IdbGetAll Tasks) w))
               Hd (next _ _ (next _ _ Hr))).
    reflexivity.
  - simpl. repeat split; try assumption. now repeat apply next.
Qed.

(** C5 at a store with one task, one tag and one metadata entry, every
    request served.  The backup is as specified; restoring it clears the
    stores, writes the task, and then waits for ever on the bulk write:
    the call never settles, the tag and the metadata entry are never
    written back, and [localStorage] is not refreshed. *)
Theorem restore_after_backup_loses_tags :
  let w := Samples.world true (Some Samples.fullDb) [] [] in
  let snapshot :=
    mkSnapshot (Some "1.0.0") (Some 1000)
      (Some (mkSnapshotData (Some [Samples.task1]) (Some [Samples.tag1])
                            (Some [Samples.theme]))) in
  let w1 := snd (createBackup w) in
  let w2 := snd (restoreFromBackup snapshot w1) in
  fst (createBackup w) = Resolved snapshot
  /\ db w1 = Some Samples.fullDb
  /\ fst (restoreFromBackup snapshot w1) = Pending
  /\ db w2 = Some (mkDatabase [Samples.task1] [] [] [])
  /\ ls_todoApp (localStorage w2) = None.
Proof.
  cbv zeta.
  split; [vm_compute; reflexivity|].
  split; [vm_compute; reflexivity|].
  split; [vm_compute; reflexivity|].
  split; vm_compute; reflexivity.
Qed.

Lemma clearStore_reliable (s : StoreName) (w : World) (d : Database) :
  db w = Some d ->
  reliable w ->
  exists w',
    clearStore s w = (Resolved tt, w')
    /\ db w' = Some (setObjectStore s [] d)
    /\ reliable w'
    /\ localStorage w' = localStorage w
    /\ lastSyncTime w' = lastSyncTime w.
Proof.
  intros Hd Hr. unfold clearStore, bind, updateStore, modify. rewrite Hd.
  destruct (idbRequest_cases (IdbClear s) w) as [(r & F & _)|(_ & E)].
  - rewrite (reliable_hd w Hr) in F. discriminate.
  - rewrite E. simpl. rewrite Hd. eexists. split; [reflexivity|]. simpl.
    repeat split; try reflexivity. now apply (reliable_tl w).
Qed.

Lemma clearAllData_reliable (w : World) (d : Database) :
  db w = Some d ->
  reliable w ->
  exists w',
    clearAllData w = (Resolved tt, w')
    /\ db w' = Some (mkDatabase [] [] [] [])
    /\ reliable w'
    /\ localStorage w' = localStorage w
    /\ lastSyncTime w' = lastSyncTime w.
Proof.
  intros Hd Hr.
  destruct (clearStore_reliable Tasks w d Hd Hr) as (w1 & E1 & D1 & R1 & L1 & T1).
  destruct (clearStore_reliable Tags w1 _ D1 R1) as (w2 & E2 & D2 & R2 & L2 & T2).
  destruct (clearStore_reliable Metadata w2 _ D2 R2) as (w3 & E3 & D3 & R3 & L3 & T3).
  destruct (clearStore_reliable PendingSync w3 _ D3 R3) as (w4 & E4 & D4 & R4 & L4 & T4).
  exists w4. split.
  - unfold clearAllData, tryCatch, bind. now rewrite E1, E2, E3, E4.
  - rewrite D4. simpl. repeat split; try assumption; congruence.
Qed.

(** The puts of a bulk write of tasks touch no other store. *)
Lemma bulkPuts_tasks_frame (l : list Task.t) (w w' : World) (d : Database)
    (o : Outcome (list string)) :
  db w = Some d ->
  bulkPuts Tasks l w = (o, w') ->
  localStorage w' = localStorage w
  /\ exists d',
       db w' = Some d'
       /\ tags d' = tags d /\ metadata d' = metadata d
       /\ pendingSync d' = pendingSync d.
Proof.
  revert w d o w'. induction l as [|item rest IH]; intros w d o w' Hd H.
  - inversion H; subst. split; [reflexivity|]. now exists d.
  - simpl bulkPuts in H. unfold bind, updateStore, modify, ret in H.
    destruct (idbRequest_cases (IdbPut Tasks (Task.id item)) w)
      as [(r & _ & E)|(_ & E)]; rewrite E in H.
    + inversion H; subst.
      destruct (aborted_frame Tasks rest (requested (IdbPut Tasks (Task.id item)) w))
        as (D & L & _).
      split; [exact L|]. exists d. rewrite D. auto.
    + simpl db in H. rewrite Hd in H.
      match type of H with
      | context [bulkPuts Tasks rest ?w1] =>
          destruct (bulkPuts Tasks rest w1) as [o2 w2] eqn:E2;
          destruct (IH w1 _ o2 w2 eq_refl E2) as (L & d' & D' & T' & M' & Q')
      end.
      simpl in *.
      assert (w' = w2) by (destruct o2; now inversion H). subst w'.
      split; [exact L|]. now exists d'.
Qed.

Lemma save_many_tasks_frame (l : list Task.t) (w w' : World) (d : Database)
    (o : Outcome string) :
  db w = Some d ->
  saveToIndexedDB Tasks (Many l) w = (o, w') ->
  o = Pending
  /\ localStorage w' = localStorage w
  /\ exists d',
       db w' = Some d'
       /\ tags d' = tags d /\ metadata d' = metadata d
       /\ pendingSync d' = pendingSync d.
Proof.
  intros Hd H. unfold saveToIndexedDB, bulkSave in H. rewrite Hd in H.
  destruct (bulkPuts Tasks l w) as [o2 w2] eqn:E2.
  destruct (bulkPuts_tasks_frame l w w2 d o2 Hd E2) as (L & d' & D' & T' & M' & Q').
  destruct o2 as [keys|e|]; inversion H; subst; simpl.
  - split; [reflexivity|]. split; [exact L|]. now exists d'.
  - split; [reflexivity|]. split; [exact L|]. now exists d.
  - split; [reflexivity|]. split; [exact L|]. now exists d'.
Qed.

(** Restoring a snapshot that carries tasks, on an open store that serves
    every request: the call never settles, and the stores after the tasks
    are empty. *)
Lemma restore_with_tasks_never_settles
    (w : World) (d : Database) (backup : Snapshot) (sd : SnapshotData)
    (t : Task.t) (l : list Task.t) :
  db w = Some d ->
  reliable w ->
  data backup = Some sd ->
  sd_tasks sd = Some (t :: l) ->
  fst (restoreFromBackup backup w) = Pending
  /\ localStorage (snd (restoreFromBackup backup w)) = localStorage w
  /\ exists d',
       db (snd (restoreFromBackup backup w)) = Some d'
       /\ tags d' = [] /\ metadata d' = [] /\ pendingSync d' = [].
Proof.
  intros Hd Hr Hdata Htasks.
  destruct (clearAllData_reliable w d Hd Hr) as (w1 & Hclear & Hd1 & _ & Hl1 & _).
  destruct (restoreFromBackup backup w) as [o w'] eqn:Hrun.
  unfold restoreFromBackup, tryCatch in Hrun. rewrite Hdata in Hrun.
  unfold bind at 1 in Hrun. rewrite Hclear in Hrun.
  unfold bind at 1 in Hrun. rewrite Htasks in Hrun. unfold restoreSection in Hrun.
  unfold bind at 1 in Hrun. revert Hrun.
  match goal with
  | |- context [saveToIndexedDB Tasks ?section w1] =>
      destruct (saveToIndexedDB Tasks section w1) as [o2 w2] eqn:E2
  end.
  destruct (save_many_tasks_frame (t :: l) w1 w2 _ o2 Hd1 E2)
    as (-> & L & d' & D' & T' & M' & Q').
  intros Hrun. inversion Hrun; subst. simpl.
  split; [reflexivity|]. split; [congruence|]. now exists d'.
Qed.

(** So the round trip of any store with a task and a tag loses the tag. *)
Lemma backup_restore_loses_tags (w : World) (d : Database) :
  db w = Some d ->
  reliable w ->
  tasks d <> [] ->
  exists snapshot w1,
    createBackup w = (Resolved snapshot, w1)
    /\ fst (restoreFromBackup snapshot w1) = Pending
    /\ exists d',
         db (snd (restoreFromBackup snapshot w1)) = Some d'
         /\ tags d' = [] /\ metadata d' = [].
Proof.
  intros Hd Hr Hne.
  destruct (createBackup_shape w d Hd Hr) as (w1 & Hb & Hd1 & _ & _ & _ & Hr1).
  destruct (tasks d) as [|t l] eqn:Ht; [congruence|].
  eexists. exists w1. split; [exact Hb|].
  destruct (restore_with_tasks_never_settles w1 d
              (mkSnapshot (Some "1.0.0") (Some (now w))
                 (Some (mkSnapshotData (Some (t :: l)) (Some (tags d))
                                       (Some (metadata d)))))
              _ t l Hd1 Hr1 eq_refl eq_refl)
    as (P & _ & d' & D' & T' & M' & _).
  split; [exact P|]. now exists d'.
Qed.

(** The bulk write is where every restore of a non-empty section
    stops. *)
Lemma save_many_never_settles (s : StoreName) (l : list (RecordOf s)) (w : World) :
  db w <> None -> fst (saveToIndexedDB s (Many l) w) = Pending.
Proof.
  intros Hd. unfold saveToIndexedDB. destruct (db w); [|congruence].
  now destruct (bulkSave s l w).
Qed.
End BackupRestore.

(** ** Scenarios of section 8 *)

Section Scenarios.
Import SyncManager.
Import DrainSpec.

(** One entry, three passes, three failed deliveries: stored at 1, at 2,
    then gone, without ever having been delivered. *)
Example three_failures_drop_the_entry :
  let w := Samples.world true (Some (setQueue [Samples.op1] Samples.emptyDb))
             [mkAttempt 500 true; mkAttempt 500 true; mkAttempt 500 true] [] in
  let pass := ProcessSyncQueue in
  option_map pendingSync (db (runAll [pass] w)) = Some [SyncItem.bump Samples.op1]
  /\ option_map pendingSync (db (runAll [pass; pass] w)) = Some [Samples.op1_twice]
  /\ option_map pendingSync (db (runAll [pass; pass; pass] w)) = Some []
  /\ deliveries (trace (runAll [pass; pass; pass] w))
     = [Samples.op1; SyncItem.bump Samples.op1; Samples.op1_twice].
Proof. cbv zeta. split; [|split; [|split]]; vm_compute; reflexivity. Qed.

(** Two operations queued offline, then the network comes back and both
    are delivered: empty queue, [lastSyncTime] set, one success event. *)
Example offline_then_online_flushes :
  let w := Samples.world false (Some Samples.emptyDb) [] [] in
  let w' := runAll [AddToSyncQueue "sync_a1" "create" "{}" "task";
                    AddToSyncQueue "sync_b2" "update" "{}" "task"] w in
  let w'' := run OnOnline w' in
  option_map pendingSync (db w')
  = Some [newSyncItem "sync_a1" "create" "{}" "task" 1000;
          newSyncItem "sync_b2" "update" "{}" "task" 1000]
  /\ option_map pendingSync (db w'') = Some []
  /\ lastSyncTime w'' = Some 2000
  /\ completions (trace w'') = [(true, None, 2000)].
Proof. cbv zeta. split; [|split; [|split]]; vm_compute; reflexivity. Qed.

(** Two operations queued online, the second while the pass started by
    the first is waiting for its delivery: the pass started by the second
    reads both entries, so the two passes overlap and the first entry is
    handed to the remote endpoint twice.  The queue ends empty and two
    completions are dispatched. *)
Example overlapping_passes_deliver_twice :
  let a := newSyncItem "sync_a1" "create" "{}" "task" 1000 in
  let b := newSyncItem "sync_b2" "update" "{}" "task" 1000 in
  let history :=
    [Interleaved.Call (AddToSyncQueue "sync_a1" "create" "{}" "task");
     Interleaved.Resume 0;      (* a is stored; the first pass starts *)
     Interleaved.Resume 1;      (* it reads [a] and starts delivering a *)
     Interleaved.Call (AddToSyncQueue "sync_b2" "update" "{}" "task");
     Interleaved.Resume 2;      (* b is stored; the second pass starts *)
     Interleaved.Resume 3;      (* it reads [a; b] and starts delivering a *)
     Interleaved.Resume 1;      (* first pass: a delivered, delete issued *)
     Interleaved.Resume 1;      (* first pass: a deleted, pass complete *)
     Interleaved.Resume 3;      (* second pass: a delivered again *)
     Interleaved.Resume 3;      (* a deleted again, delivery of b started *)
     Interleaved.Resume 3;      (* b delivered *)
     Interleaved.Resume 3] in   (* b deleted, pass complete *)
  let sys := Interleaved.steps history
               (Interleaved.mkSystem
                  (Samples.world true (Some Samples.emptyDb) [] []) []) in
  deliveries (trace (Interleaved.world sys)) = [a; a; b]
  /\ option_map pendingSync (db (Interleaved.world sys)) = Some []
  /\ length (completions (trace (Interleaved.world sys))) = 2%nat.
Proof. cbv zeta. split; [|split]; vm_compute; reflexivity. Qed.
End Scenarios.

(** * Further properties *)

(** ** The task list controller: storage *)

Section TodoStorage.
Import TodoApp.
Import TodoOps.

Lemma saveState_fields (app : App) :
  tasks (saveState app) = tasks app
  /\ tags (saveState app) = tags app
  /\ currentTheme (saveState app) = currentTheme app
  /\ quotaExceeded (saveState app) = quotaExceeded app.
Proof. unfold saveState. destruct (quotaExceeded app) eqn:Q; simpl; auto. Qed.

Lemma saveState_persisted (app : App) :
  quotaExceeded app = false -> persisted (saveState app).
Proof. intros Q. unfold saveState, persisted. now rewrite Q. Qed.

Lemma showToast_persisted (message : string) (type : ToastType) (app : App) :
  persisted app -> persisted (showToast message type app).
Proof. now unfold persisted. Qed.

(** A state whose saved copy is current, with room in storage and a
    theme that is not the empty string. *)
Lemma run_keeps_saved (a : Action) (app : App) :
  quotaExceeded app = false ->
  persisted app ->
  currentTheme app <> "" ->
  quotaExceeded (run a app) = false
  /\ persisted (run a app)
  /\ currentTheme (run a app) <> "".
Proof.
  intros Q P T.
  assert (saved : forall app0 message type,
            quotaExceeded app0 = false -> currentTheme app0 <> "" ->
            let app1 := showToast message type (saveState app0) in
            quotaExceeded app1 = false /\ persisted app1
            /\ currentTheme app1 <> "").
  { intros app0 message type Q0 T0. cbv zeta.
    destruct (saveState_fields app0) as (_ & _ & Et & Eq).
    split; [simpl; congruence|]. split.
    - apply showToast_persisted. now apply saveState_persisted.
    - simpl. congruence. }
  destruct a; simpl.
  - unfold handleAddTask. destruct (title =? "")%string; [auto|].
    now apply saved.
  - unfold handleEditTask. destruct (findTask taskId app); [|auto].
    destruct (title =? "")%string; [auto|]. now apply saved.
  - unfold toggleTaskDone. destruct (findTask taskId app) as [task|]; [|auto].
    destruct (Task.done (toggleDone task)); now apply saved.
  - now apply saved.
  - unfold handleTagManagement. destruct (tagName =? "")%string; [auto|].
    destruct (existsb _ _); [auto|]. now apply saved.
  - now apply saved.
  - now apply saved.
  - unfold toggleTheme, applyTheme. cbv zeta.
    destruct (saveState_fields
                (setTheme (if (currentTheme app =? "light")%string
                           then "dark" else "light") app))
      as (_ & _ & Et & Eq).
    split; [simpl in *; congruence|]. split.
    + now apply saveState_persisted.
    + rewrite Et. simpl. now destruct (currentTheme app =? "light")%string.
Qed.

Lemma runAll_keeps_saved (actions : list Action) (app : App) :
  quotaExceeded app = false ->
  persisted app ->
  currentTheme app <> "" ->
  quotaExceeded (runAll actions app) = false
  /\ persisted (runAll actions app)
  /\ currentTheme (runAll actions app) <> "".
Proof.
  revert app. induction actions as [|a actions IH]; intros app Q P T; simpl.
  - auto.
  - destruct (run_keeps_saved a app Q P T) as (Q1 & P1 & T1). now apply IH.
Qed.

(** After any sequence of user actions on a state whose saved copy is
    current, with room in storage: as long as a task is left, opening
    the application again gives the same tasks, tags and theme. *)
Theorem reload_restores_state (actions : list Action) (app : App) (e : Welcome) :
  quotaExceeded app = false ->
  persisted app ->
  currentTheme app <> "" ->
  tasks (runAll actions app) <> [] ->
  let reloaded := boot (todoApp (runAll actions app)) false e in
  tasks reloaded = tasks (runAll actions app)
  /\ tags reloaded = tags (runAll actions app)
  /\ currentTheme reloaded = currentTheme (runAll actions app).
Proof.
  intros Q P T N. cbv zeta.
  destruct (runAll_keeps_saved actions app Q P T) as (_ & P1 & T1).
  unfold persisted in P1. rewrite P1.
  unfold boot, loadState, storedItem, initializeSelects, renderTasks,
    updateStats, applyTheme, showWelcomeData. simpl.
  apply String.eqb_neq in T1. rewrite T1.
  destruct (tasks (runAll actions app)) as [|t l]; [congruence|]. simpl. auto.
Qed.

Lemma reload_restores_state_witness :
  let app := saveState (mkApp [] defaultTags "light" None false []) in
  let actions := [AddTask "k1" 5 "milk" "" ""; ToggleTheme; AddTag "home"] in
  let e := mkWelcome "a" "b" "c" 100 "2026-01-01" in
  (quotaExceeded app = false /\ persisted app /\ currentTheme app <> ""
   /\ tasks (runAll actions app) <> [])
  /\ tasks (boot (todoApp (runAll actions app)) false e)
     = [Task.mk "k1" "milk" "" "" false 5]
  /\ currentTheme (boot (todoApp (runAll actions app)) false e) = "dark".
Proof.
  cbv zeta.
  assert (H : quotaExceeded (saveState (mkApp [] defaultTags "light" None false [])) = false
              /\ persisted (saveState (mkApp [] defaultTags "light" None false []))
              /\ currentTheme (saveState (mkApp [] defaultTags "light" None false [])) <> ""
              /\ tasks (runAll [AddTask "k1" 5 "milk" "" ""; ToggleTheme; AddTag "home"]
                          (saveState (mkApp [] defaultTags "light" None false []))) <> [])
    by (repeat split; discriminate).
  split; [exact H|].
  destruct H as (Q & P & T & N).
  destruct (reload_restores_state _ _ (mkWelcome "a" "b" "c" 100 "2026-01-01") Q P T N)
    as (E1 & _ & E3).
  split; [rewrite E1 | rewrite E3]; reflexivity.
Defined.

(** Opening the application on a storage whose task list is empty, or on
    no storage at all, puts the three welcome tasks in the list and
    saves them when storage has room: a list the user emptied does not
    stay empty across a reload. *)
Theorem empty_list_reloads_as_welcome (storage : option SavedState) (full : bool)
    (e : Welcome) :
  match storage with
  | Some d => saved_tasks d = []
  | None => True
  end ->
  let reloaded := boot storage full e in
  tasks reloaded = welcomeTasks e
  /\ (full = false ->
      option_map saved_tasks (todoApp reloaded) = Some (welcomeTasks e)).
Proof.
  intros H. cbv zeta.
  unfold boot, loadState, storedItem, initializeSelects, renderTasks,
    updateStats, applyTheme, showWelcomeData.
  destruct storage as [d|]; simpl in *.
  - rewrite H. destruct (saved_theme d =? "")%string; simpl;
      unfold saveState; simpl; destruct full; simpl; split; auto; discriminate.
  - unfold saveState; simpl; destruct full; simpl; split; auto; discriminate.
Qed.

Lemma empty_list_reloads_as_welcome_witness :
  let e := mkWelcome "a" "b" "c" 100 "2026-01-01" in
  let storage := todoApp (clearAllData (mkApp [] [] "dark" None false [])) in
  match storage with
  | Some d => saved_tasks d = []
  | None => True
  end
  /\ tasks (boot storage false e) = welcomeTasks e.
Proof.
  cbv zeta. split; [reflexivity|].
  apply (empty_list_reloads_as_welcome
           (todoApp (clearAllData (mkApp [] [] "dark" None false []))) false
           (mkWelcome "a" "b" "c" 100 "2026-01-01")).
  reflexivity.
Defined.

(** With storage full, an action does to the state in memory exactly
    what it does when storage has room (same tasks, tags and theme
    afterwards), but the saved copy stays what it was. *)
Theorem full_storage_keeps_old_copy (a : Action) (app : App) :
  quotaExceeded app = true ->
  let roomy := mkApp (tasks app) (tags app) (currentTheme app) (todoApp app)
                     false (toasts app) in
  tasks (run a app) = tasks (run a roomy)
  /\ tags (run a app) = tags (run a roomy)
  /\ currentTheme (run a app) = currentTheme (run a roomy)
  /\ todoApp (run a app) = todoApp app
  /\ quotaExceeded (run a app) = true.
Proof.
  intros Q. destruct app as [ts tg th sv q to]. simpl in Q. subst q. cbv zeta.
  destruct a; simpl;
    unfold handleAddTask, handleEditTask, toggleTaskDone, deleteTask,
      handleTagManagement, removeTag, clearAllData, toggleTheme, findTask;
    simpl;
    repeat match goal with
           | |- context [if ?c then _ else _] => destruct c
           | |- context [match find ?f ?l with _ => _ end] =>
               destruct (find f l)
           end;
    unfold saveState, updateStats, renderTasks, initializeSelects, closeModal,
      applyTheme; simpl; auto.
Qed.

Lemma full_storage_keeps_old_copy_witness :
  let app := mkApp [] defaultTags "light" None true [] in
  quotaExceeded app = true
  /\ todoApp (run (AddTask "k1" 5 "milk" "" "") app) = None
  /\ tasks (run (AddTask "k1" 5 "milk" "" "") app)
     = [Task.mk "k1" "milk" "" "" false 5].
Proof.
  cbv zeta. split; [reflexivity|].
  destruct (full_storage_keeps_old_copy (AddTask "k1" 5 "milk" "" "")
              (mkApp [] defaultTags "light" None true []) eq_refl)
    as (T & _ & _ & S & _).
  split; [exact S | exact T].
Defined.
End TodoStorage.

(** ** The task list controller: tasks and tags *)

Section TodoLists.
Import TodoApp.
Import TodoOps.

Lemma find_updateFirst (taskId : string) (f : Task.t -> Task.t) (l : list Task.t) :
  find (fun t => (Task.id t =? taskId)%string) l = None ->
  updateFirst taskId f l = l.
Proof.
  induction l as [|t l IH]; simpl; [reflexivity|].
  destruct (Task.id t =? taskId)%string; [discriminate|].
  intros H. now rewrite IH.
Qed.

(** The task [find] returns is the one that changes, and the only one. *)
Lemma updateFirst_split (taskId : string) (f : Task.t -> Task.t) (l : list Task.t)
    (task : Task.t) :
  find (fun t => (Task.id t =? taskId)%string) l = Some task ->
  exists before after,
    l = before ++ task :: after
    /\ Task.id task = taskId
    /\ Forall (fun t => Task.id t <> taskId) before
    /\ updateFirst taskId f l = before ++ f task :: after.
Proof.
  induction l as [|t l IH]; simpl; [discriminate|].
  destruct (String.eqb_spec (Task.id t) taskId) as [E|E].
  - intros H. inversion H; subst. exists [], l. repeat split; auto.
  - intros H. destruct (IH H) as (before & after & -> & Ei & Fb & Eu).
    exists (t :: before), after. rewrite Eu. repeat split; auto.
Qed.

Lemma updateFirst_twice (taskId : string) (l : list Task.t) :
  updateFirst taskId toggleDone (updateFirst taskId toggleDone l) = l.
Proof.
  induction l as [|t l IH]; simpl; [reflexivity|].
  destruct (Task.id t =? taskId)%string eqn:E; simpl; rewrite E.
  - destruct t. unfold toggleDone. simpl. now rewrite negb_involutive.
  - now rewrite IH.
Qed.

Lemma toggleTaskDone_tasks (taskId : string) (app : App) :
  tasks (toggleTaskDone taskId app) = updateFirst taskId toggleDone (tasks app).
Proof.
  unfold toggleTaskDone, findTask.
  destruct (find _ (tasks app)) as [task|] eqn:F.
  - destruct (Task.done (toggleDone task));
      unfold updateStats, renderTasks; simpl;
      destruct (saveState_fields
                  (setTasks (updateFirst taskId toggleDone (tasks app)) app))
        as (E & _); exact E.
  - now rewrite find_updateFirst.
Qed.

(** Ticking a task twice gives back the task list; ticking an id that no
    task has changes nothing at all, not even the toasts or the saved
    copy; a tick changes the [done] flag of one task and nothing else. *)
Theorem toggleTaskDone_twice (taskId : string) (app : App) :
  tasks (toggleTaskDone taskId (toggleTaskDone taskId app)) = tasks app
  /\ (findTask taskId app = None -> toggleTaskDone taskId app = app)
  /\ (forall task,
        findTask taskId app = Some task ->
        exists before after,
          tasks app = before ++ task :: after
          /\ tasks (toggleTaskDone taskId app)
             = before ++ toggleDone task :: after
          /\ Task.done (toggleDone task) = negb (Task.done task)).
Proof.
  split; [|split].
  - rewrite !toggleTaskDone_tasks. apply updateFirst_twice.
  - intros H. unfold toggleTaskDone. now rewrite H.
  - intros task H. unfold findTask in H.
    destruct (updateFirst_split taskId toggleDone _ _ H)
      as (before & after & E & _ & _ & Eu).
    exists before, after. rewrite toggleTaskDone_tasks. auto.
Qed.

(** Editing changes the first task that has the id, in its title, tag and
    due date only; an empty title, or an id no task has, leaves tasks
    and saved copy as they are. *)
Theorem handleEditTask_edits_one (taskId title tag due : string) (app : App) :
  (title = "" \/ findTask taskId app = None ->
   tasks (handleEditTask taskId title tag due app) = tasks app
   /\ todoApp (handleEditTask taskId title tag due app) = todoApp app)
  /\ (forall task,
        title <> "" ->
        findTask taskId app = Some task ->
        exists before after,
          tasks app = before ++ task :: after
          /\ Forall (fun t => Task.id t <> taskId) before
          /\ tasks (handleEditTask taskId title tag due app)
             = before
               ++ Task.mk (Task.id task) title tag due (Task.done task)
                          (Task.createdAt task)
               :: after).
Proof.
  split.
  - intros H. unfold handleEditTask.
    destruct (findTask taskId app) as [task|] eqn:F; [|auto].
    destruct H as [-> | H]; [simpl; auto | discriminate].
  - intros task Ht F. unfold handleEditTask. rewrite F.
    apply String.eqb_neq in Ht. rewrite Ht. cbv zeta.
    unfold findTask in F.
    match goal with
    | |- context [updateFirst taskId ?f (tasks app)] =>
        destruct (updateFirst_split taskId f _ _ F)
          as (before & after & E & _ & Fb & Eu);
        destruct (saveState_fields (setTasks (updateFirst taskId f (tasks app)) app))
          as (Es & _)
    end.
    exists before, after. unfold closeModal, updateStats, renderTasks. simpl.
    rewrite Es. simpl. auto.
Qed.

(** An empty title adds no task: tasks, tags and saved copy stay, and the
    only effect is one error toast. *)
Theorem handleAddTask_empty_title (newId : string) (now : Z) (tag due : string)
    (app : App) :
  let app' := handleAddTask newId now "" tag due app in
  tasks app' = tasks app /\ tags app' = tags app
  /\ todoApp app' = todoApp app
  /\ toasts app' = toasts app ++ [(error, "يرجى إدخال عنوان المهمة")].
Proof. cbv zeta. unfold handleAddTask. simpl. auto. Qed.

Lemma deleteTask_tasks (taskId : string) (app : App) :
  tasks (deleteTask taskId app)
  = filter (fun t => negb (Task.id t =? taskId)%string) (tasks app).
Proof.
  unfold deleteTask, closeModal, updateStats, renderTasks. simpl.
  match goal with
  | |- tasks (saveState ?a) = _ => destruct (saveState_fields a) as (E & _)
  end.
  exact E.
Qed.

Lemma filter_absent (taskId : string) (l : list Task.t) :
  find (fun t => (Task.id t =? taskId)%string) l = None ->
  filter (fun t => negb (Task.id t =? taskId)%string) l = l.
Proof.
  induction l as [|t l IH]; simpl; [reflexivity|].
  destruct (Task.id t =? taskId)%string; [discriminate|].
  intros H. simpl. now rewrite IH.
Qed.

Lemma filter_others (taskId : string) (l : list Task.t) :
  Forall (fun t => Task.id t <> taskId) l ->
  filter (fun t => negb (Task.id t =? taskId)%string) l = l.
Proof.
  induction 1 as [|t l Ht Fl IH]; simpl; [reflexivity|].
  apply String.eqb_neq in Ht. rewrite Ht. simpl. now rewrite IH.
Qed.

(** Deleting removes every task with the id and no other, keeps the
    order of the rest, and leaves the list alone when no task has the id;
    with distinct ids the list gets exactly one shorter. *)
Theorem deleteTask_removes_id (taskId : string) (app : App) :
  (forall t, In t (tasks (deleteTask taskId app))
             <-> In t (tasks app) /\ Task.id t <> taskId)
  /\ (findTask taskId app = None -> tasks (deleteTask taskId app) = tasks app)
  /\ (forall task,
        NoDup (map Task.id (tasks app)) ->
        findTask taskId app = Some task ->
        exists before after,
          tasks app = before ++ task :: after
          /\ tasks (deleteTask taskId app) = before ++ after).
Proof.
  rewrite deleteTask_tasks. split; [|split].
  - intros t. rewrite filter_In. split; intros (H1 & H2); split; auto.
    + intros E. apply String.eqb_eq in E. now rewrite E in H2.
    + apply String.eqb_neq in H2. now rewrite H2.
  - intros H. now apply filter_absent.
  - intros task N F. unfold findTask in F.
    destruct (updateFirst_split taskId (fun t => t) _ _ F)
      as (before & after & E & Ei & Fb & _).
    exists before, after. split; [exact E|]. rewrite E in *.
    rewrite filter_app. simpl. rewrite Ei, String.eqb_refl. simpl.
    rewrite map_app in N. simpl in N. apply NoDup_remove_2 in N.
    assert (Fa : Forall (fun t => Task.id t <> taskId) after).
    { apply Forall_forall. intros t Ht E'. apply N. apply in_or_app. right.
      rewrite Ei, <- E'. now apply in_map. }
    now rewrite (filter_others taskId before Fb), (filter_others taskId after Fa).
Qed.
End TodoLists.

Section TodoTags.
Import TodoApp.
Import TodoOps.

Lemma existsb_tag (tagName : string) (l : list string) :
  existsb (fun tag => (tag =? tagName)%string) l = true <-> In tagName l.
Proof.
  rewrite existsb_exists. split.
  - intros (x & Hx & E). apply String.eqb_eq in E. now subst.
  - intros H. exists tagName. split; [exact H | apply String.eqb_refl].
Qed.

Lemma handleTagManagement_tags (tagName : string) (app : App) :
  tags (handleTagManagement tagName app)
  = if (tagName =? "")%string then tags app
    else if existsb (fun tag => (tag =? tagName)%string) (tags app)
         then tags app
         else tags app ++ [tagName].
Proof.
  unfold handleTagManagement.
  destruct (tagName =? "")%string; [reflexivity|].
  destruct (existsb _ _); [reflexivity|].
  unfold initializeSelects. simpl.
  match goal with
  | |- tags (saveState ?a) = _ => destruct (saveState_fields a) as (_ & E & _)
  end.
  exact E.
Qed.

Lemma defaultTags_NoDup : NoDup defaultTags.
Proof.
  unfold defaultTags.
  repeat (constructor; [simpl; intuition discriminate|]). constructor.
Qed.

Lemma run_tags_NoDup (a : Action) (app : App) :
  NoDup (tags app) -> NoDup (tags (run a app)).
Proof.
  intros N. destruct a; unfold run.
  - unfold handleAddTask. destruct (title =? "")%string; [exact N|].
    unfold updateStats, renderTasks. simpl.
    match goal with
    | |- NoDup (tags (saveState ?a)) =>
        destruct (saveState_fields a) as (_ & E & _); rewrite E
    end. exact N.
  - unfold handleEditTask. destruct (findTask taskId app); [|exact N].
    destruct (title =? "")%string; [exact N|].
    unfold closeModal, updateStats, renderTasks. simpl.
    match goal with
    | |- NoDup (tags (saveState ?a)) =>
        destruct (saveState_fields a) as (_ & E & _); rewrite E
    end. exact N.
  - unfold toggleTaskDone. destruct (findTask taskId app) as [task|]; [|exact N].
    destruct (Task.done (toggleDone task));
      unfold updateStats, renderTasks; simpl;
      match goal with
      | |- NoDup (tags (saveState ?a)) =>
          destruct (saveState_fields a) as (_ & E & _); rewrite E
      end; exact N.
  - unfold deleteTask, closeModal, updateStats, renderTasks. simpl.
    match goal with
    | |- NoDup (tags (saveState ?a)) =>
        destruct (saveState_fields a) as (_ & E & _); rewrite E
    end. exact N.
  - rewrite handleTagManagement_tags.
    destruct (tagName =? "")%string; [exact N|].
    destruct (existsb _ (tags app)) eqn:X; [exact N|].
    apply NoDup_app; [exact N | repeat constructor; auto |].
    intros x Hx [<- | []].
    apply existsb_tag in Hx. congruence.
  - rewrite removeTag_tags. now apply NoDup_filter.
  - unfold clearAllData, closeModal, updateStats, renderTasks, initializeSelects.
    simpl.
    match goal with
    | |- NoDup (tags (saveState ?a)) =>
        destruct (saveState_fields a) as (_ & E & _); rewrite E
    end. apply defaultTags_NoDup.
  - unfold toggleTheme, applyTheme.
    match goal with
    | |- NoDup (tags (saveState ?a)) =>
        destruct (saveState_fields a) as (_ & E & _); rewrite E
    end. exact N.
Qed.

(** No sequence of user actions puts a tag name twice in the tag list: a
    name already there is refused with a warning and changes nothing,
    and an empty name is ignored. *)
Theorem tags_stay_distinct (actions : list Action) (app : App) :
  NoDup (tags app) ->
  NoDup (tags (runAll actions app))
  /\ (forall tagName,
        In tagName (tags app) ->
        tagName <> "" ->
        tasks (handleTagManagement tagName app) = tasks app
        /\ tags (handleTagManagement tagName app) = tags app
        /\ todoApp (handleTagManagement tagName app) = todoApp app
        /\ toasts (handleTagManagement tagName app)
           = toasts app ++ [(warning, "التصنيف موجود مسبقاً")])
  /\ handleTagManagement "" app = app.
Proof.
  intros N. split; [|split].
  - revert app N. induction actions as [|a actions IH]; intros app N; simpl.
    + exact N.
    + apply IH. now apply run_tags_NoDup.
  - intros tagName Hin Hne. unfold handleTagManagement.
    apply String.eqb_neq in Hne. rewrite Hne.
    apply existsb_tag in Hin. rewrite Hin. simpl. auto.
  - reflexivity.
Qed.

Lemma tags_stay_distinct_witness :
  let app := mkApp [] defaultTags "light" None false [] in
  NoDup (tags app)
  /\ NoDup (tags (runAll [AddTag "home"; AddTag "home"; RemoveTag "عمل"] app)).
Proof.
  cbv zeta. split; [apply defaultTags_NoDup|].
  apply (tags_stay_distinct [AddTag "home"; AddTag "home"; RemoveTag "عمل"]
           (mkApp [] defaultTags "light" None false [])).
  apply defaultTags_NoDup.
Defined.

Lemma filter_fresh (tagName : string) (l : list string) :
  ~ In tagName l ->
  filter (fun tag => negb (tag =? tagName)%string) l = l.
Proof.
  induction l as [|x l IH]; simpl; [reflexivity|].
  intros H. destruct (String.eqb_spec x tagName) as [E|E]; simpl.
  - exfalso. apply H. now left.
  - rewrite IH; [reflexivity|]. intros Hin. apply H. now right.
Qed.

(** Adding a tag that was not in the list and removing it again gives
    back the tag list, in its order. *)
Theorem add_then_remove_tag (tagName : string) (app : App) :
  ~ In tagName (tags app) ->
  tags (removeTag tagName (handleTagManagement tagName app)) = tags app.
Proof.
  intros H. rewrite removeTag_tags, handleTagManagement_tags.
  destruct (tagName =? "")%string; [now apply filter_fresh|].
  destruct (existsb _ (tags app)) eqn:X.
  - apply existsb_tag in X. contradiction.
  - rewrite filter_app. simpl. rewrite String.eqb_refl. simpl.
    rewrite app_nil_r. now apply filter_fresh.
Qed.

Lemma add_then_remove_tag_witness :
  let app := mkApp [] defaultTags "light" None false [] in
  ~ In "home" (tags app)
  /\ tags (removeTag "home" (handleTagManagement "home" app)) = defaultTags.
Proof.
  cbv zeta.
  assert (H : ~ In "home" (tags (mkApp [] defaultTags "light" None false [])))
    by (simpl; intuition discriminate).
  split; [exact H|].
  apply (add_then_remove_tag "home" (mkApp [] defaultTags "light" None false []) H).
Defined.
End TodoTags.

(** ** [escapeHtml] *)

Section EscapeHtml.
Import TodoOps.
Local Open Scope string_scope.

Lemma string_app_assoc (x y z : string) : (x ++ y) ++ z = x ++ (y ++ z).
Proof. induction x as [|a x IH]; simpl; [reflexivity | now rewrite IH]. Qed.

Lemma replaceAll_app (c : ascii) (by_ x y : string) :
  replaceAll c by_ (x ++ y) = replaceAll c by_ x ++ replaceAll c by_ y.
Proof.
  induction x as [|a x IH]; simpl; [reflexivity|].
  destruct (Ascii.eqb a c); simpl; rewrite IH; [|reflexivity].
  now rewrite string_app_assoc.
Qed.

Lemma escapeHtml_app (x y : string) :
  escapeHtml (x ++ y) = escapeHtml x ++ escapeHtml y.
Proof. unfold escapeHtml. now rewrite !replaceAll_app. Qed.

(** One character: its entity for the five, itself otherwise. *)
Lemma escapeHtml_char (c : ascii) :
  (c = "&"%char /\ escapeHtml (String c "") = "&amp;")
  \/ (c = "<"%char /\ escapeHtml (String c "") = "&lt;")
  \/ (c = ">"%char /\ escapeHtml (String c "") = "&gt;")
  \/ (c = "034"%char /\ escapeHtml (String c "") = "&quot;")
  \/ (c = "'"%char /\ escapeHtml (String c "") = "&#039;")
  \/ ((c <> "&"%char /\ c <> "<"%char /\ c <> ">"%char /\ c <> "034"%char
       /\ c <> "'"%char)
      /\ escapeHtml (String c "") = String c "").
Proof.
  destruct (Ascii.eqb_spec c "&"%char) as [->|N1]; [left; split; reflexivity|].
  destruct (Ascii.eqb_spec c "<"%char) as [->|N2];
    [right; left; split; reflexivity|].
  destruct (Ascii.eqb_spec c ">"%char) as [->|N3];
    [right; right; left; split; reflexivity|].
  destruct (Ascii.eqb_spec c "034"%char) as [->|N4];
    [right; right; right; left; split; reflexivity|].
  destruct (Ascii.eqb_spec c "'"%char) as [->|N5];
    [right; right; right; right; left; split; reflexivity|].
  do 5 right. split; [auto|].
  unfold escapeHtml. simpl.
  apply Ascii.eqb_neq in N1, N2, N3, N4, N5.
  rewrite N1. simpl. rewrite N2. simpl. rewrite N3. simpl. rewrite N4. simpl.
  now rewrite N5.
Qed.

Lemma escapeHtml_cons (c : ascii) (s : string) :
  escapeHtml (String c s) = escapeHtml (String c "") ++ escapeHtml s.
Proof. now rewrite <- escapeHtml_app. Qed.

(** The five replacements never meet each other's output: the result is
    the text with each of the five characters replaced once by its
    entity, so it holds no [<], [>], double or single quote, whatever the
    input, and escaping is compatible with concatenation. *)
Theorem escapeHtml_leaves_no_markup (unsafe : string) :
  (forall c, In c (list_ascii_of_string (escapeHtml unsafe)) ->
             c <> "<"%char /\ c <> ">"%char /\ c <> "034"%char /\ c <> "'"%char)
  /\ (forall rest, escapeHtml (unsafe ++ rest) = escapeHtml unsafe ++ escapeHtml rest)
  /\ escapeHtml "<&>" = "&lt;&amp;&gt;".
Proof.
  split; [|split; [intros; apply escapeHtml_app | reflexivity]].
  induction unsafe as [|a s IH]; intros c Hc; [contradiction|].
  rewrite escapeHtml_cons in Hc.
  assert (split_in : forall x y, In c (list_ascii_of_string (x ++ y)) ->
            In c (list_ascii_of_string x) \/ In c (list_ascii_of_string y)).
  { intros x y. induction x as [|b x IHx]; simpl; [auto|].
    intros [E|H]; [auto|]. destruct (IHx H); auto. }
  apply split_in in Hc. destruct Hc as [Hc|Hc]; [|now apply IH].
  destruct (escapeHtml_char a)
    as [(_ & E)|[(_ & E)|[(_ & E)|[(_ & E)|[(_ & E)|((N1 & N2 & N3 & N4 & N5) & E)]]]]];
    rewrite E in Hc; simpl in Hc;
    repeat match goal with
           | H : _ \/ _ |- _ => destruct H
           | H : False |- _ => contradiction
           end;
    subst; repeat split; try discriminate; auto.
Qed.

(** Escaping loses nothing: two texts with the same escaped form are the
    same text. *)
Theorem escapeHtml_injective (s t : string) :
  escapeHtml s = escapeHtml t -> s = t.
Proof.
  revert t. induction s as [|a s IH]; intros t H.
  - destruct t as [|b t]; [reflexivity|].
    rewrite escapeHtml_cons in H.
    destruct (escapeHtml_char b)
      as [(_ & E)|[(_ & E)|[(_ & E)|[(_ & E)|[(_ & E)|(_ & E)]]]]];
      rewrite E in H; discriminate.
  - destruct t as [|b t].
    + rewrite escapeHtml_cons in H.
      destruct (escapeHtml_char a)
        as [(_ & E)|[(_ & E)|[(_ & E)|[(_ & E)|[(_ & E)|(_ & E)]]]]];
        rewrite E in H; discriminate.
    + rewrite (escapeHtml_cons a), (escapeHtml_cons b) in H.
      destruct (escapeHtml_char a)
        as [(Ea & E)|[(Ea & E)|[(Ea & E)|[(Ea & E)|[(Ea & E)|((A1 & A2 & A3 & A4 & A5) & E)]]]]];
        rewrite E in H; clear E;
        destruct (escapeHtml_char b)
          as [(Eb & E)|[(Eb & E)|[(Eb & E)|[(Eb & E)|[(Eb & E)|((B1 & B2 & B3 & B4 & B5) & E)]]]]];
        rewrite E in H; clear E; simpl in H;
        try subst a; try subst b;
        try discriminate;
        try (inversion H; subst; try congruence; f_equal; now apply IH).
Qed.

Lemma escapeHtml_injective_witness :
  escapeHtml "a<b" = escapeHtml "a<b" /\ "a<b" = "a<b".
Proof. split; [reflexivity | apply escapeHtml_injective; reflexivity]. Defined.
End EscapeHtml.

(** ** [getFilteredTasks] *)

Section Filtered.
Import TodoApp.
Import TodoOps.
Variable toLowerCase : string -> string.
Variables todayDate weekFromNow : string.

Lemma Forall_filter_keep {A} (P : A -> Prop) (p : A -> bool) (l : list A) :
  Forall P l -> Forall P (filter p l).
Proof.
  intros H. apply Forall_forall. intros x Hx. apply filter_In in Hx.
  destruct Hx as [Hx _]. revert x Hx. now apply Forall_forall.
Qed.

Lemma Forall_filter_test {A} (p : A -> bool) (l : list A) :
  Forall (fun x => p x = true) (filter p l).
Proof. apply Forall_forall. intros x Hx. now apply filter_In in Hx. Qed.

(** Each stage keeps a sublist, chosen task by task. *)
Lemma stage_is_filter (stage : Filters -> list Task.t -> list Task.t) (f : Filters) :
  stage = bySearch toLowerCase \/ stage = byTag
  \/ stage = byDate todayDate weekFromNow \/ stage = byView todayDate ->
  exists keep, forall l, stage f l = filter keep l.
Proof.
  assert (all : forall l : list Task.t, l = filter (fun _ => true) l).
  { induction l as [|t l IH]; simpl; [reflexivity | now rewrite <- IH]. }
  intros [-> | [-> | [-> | ->]]];
    unfold bySearch, byTag, byDate, byView;
    repeat match goal with
           | |- context [if ?c then _ else _] => destruct c
           end;
    eauto.
Qed.

Lemma stage_keeps (P : Task.t -> Prop)
    (stage : Filters -> list Task.t -> list Task.t) (f : Filters) (l : list Task.t) :
  stage = bySearch toLowerCase \/ stage = byTag
  \/ stage = byDate todayDate weekFromNow \/ stage = byView todayDate ->
  Forall P l -> Forall P (stage f l).
Proof.
  intros S H. destruct (stage_is_filter stage f S) as (keep & E).
  rewrite E. now apply Forall_filter_keep.
Qed.

(** What the list shows: tasks of the list, in their order; with a tag
    selected only tasks of that tag; with a query only titles that
    contain it; in the completed view only finished tasks; under the
    overdue filter only unfinished tasks with a due date before today.
    With nothing selected in the view of all tasks, every task. *)
Theorem getFilteredTasks_shows_matching (f : Filters) (app : App) :
  let shown := getFilteredTasks toLowerCase todayDate weekFromNow f app in
  (exists keep, shown = filter keep (tasks app))
  /\ (selectedTag f <> "" ->
      Forall (fun task => Task.tag task = selectedTag f) shown)
  /\ (searchQuery f <> "" ->
      Forall (fun task => includes (searchQuery f) (toLowerCase (Task.title task)) = true)
             shown)
  /\ (currentView f = "completed" ->
      Forall (fun task => Task.done task = true) shown)
  /\ (selectedDateFilter f = "overdue" ->
      Forall (fun task => Task.done task = false
                          /\ String.ltb (Task.due task) todayDate = true) shown)
  /\ (searchQuery f = "" -> selectedTag f = "" -> selectedDateFilter f = ""
      -> currentView f = "all" -> shown = tasks app).
Proof.
  cbv zeta. unfold getFilteredTasks.
  split; [|split; [|split; [|split; [|split]]]].
  - destruct (stage_is_filter (bySearch toLowerCase) f) as (k1 & E1); [auto|].
    destruct (stage_is_filter byTag f) as (k2 & E2); [auto|].
    destruct (stage_is_filter (byDate todayDate weekFromNow) f) as (k3 & E3); [auto 6|].
    destruct (stage_is_filter (byView todayDate) f) as (k4 & E4); [auto 6|].
    exists (fun t => k1 t && k2 t && k3 t && k4 t).
    rewrite E4, E3, E2, E1.
    induction (tasks app) as [|t l IH]; simpl; [reflexivity|].
    destruct (k1 t); simpl; [|exact IH].
    destruct (k2 t); simpl; [|exact IH].
    destruct (k3 t); simpl; [|exact IH].
    destruct (k4 t); simpl; [now rewrite IH | exact IH].
  - intros H. apply stage_keeps; [auto 6|]. apply stage_keeps; [auto 6|].
    unfold byTag, nonEmpty. apply String.eqb_neq in H. rewrite H. simpl.
    apply Forall_forall. intros t Ht. apply filter_In in Ht.
    destruct Ht as [_ Ht]. now apply String.eqb_eq in Ht.
  - intros H. do 3 (apply stage_keeps; [auto 6|]).
    unfold bySearch, nonEmpty. apply String.eqb_neq in H. rewrite H. simpl.
    apply Forall_filter_test.
  - intros H. unfold byView. rewrite H. simpl.
    apply (Forall_filter_test Task.done).
  - intros H. apply stage_keeps; [auto 6|].
    unfold byDate, nonEmpty. rewrite H. simpl.
    apply Forall_forall. intros t Ht. apply filter_In in Ht.
    destruct Ht as [_ Ht]. apply andb_prop in Ht. destruct Ht as [Ht D].
    apply andb_prop in Ht. destruct Ht as [_ L].
    split; [now apply negb_true_iff in D | exact L].
  - intros H1 H2 H3 H4.
    unfold byView, byDate, byTag, bySearch, nonEmpty.
    now rewrite H1, H2, H3, H4.
Qed.
End Filtered.

(** ** The offline manager *)

Section Offline.
Import OfflineManager.

Lemma syncRequests_app (evs evs' : list Effect) :
  syncRequests (evs ++ evs') = (syncRequests evs + syncRequests evs')%nat.
Proof. unfold syncRequests. now rewrite filter_app, length_app. Qed.

Lemma syncRequests_status (callbacks : list nat) (s : Status) :
  syncRequests (map (fun callback => StatusChanged callback s) callbacks) = 0%nat.
Proof. induction callbacks as [|c l IH]; [reflexivity | exact IH]. Qed.

Lemma syncRequests_mode (callbacks : list nat) (s : Status) :
  syncRequests (map (fun callback => ModeChanged callback s) callbacks) = 0%nat.
Proof. induction callbacks as [|c l IH]; [reflexivity | exact IH]. Qed.

(** A change of the network flag: every status callback once, in the
    order of registration, then the sync request if it is due. *)
Lemma handleNetworkChange_effects (m : Manager) :
  let m' := handleNetworkChange m in
  effects m'
  = effects m
    ++ map (fun callback => StatusChanged callback (getStatus m)) (statusChange m)
    ++ (if isOnline m && negb (offlineMode m) && serviceWorker m && controller m
        then [SyncRequest] else [])
  /\ isOnline m' = isOnline m /\ offlineMode m' = offlineMode m
  /\ userPreference m' = userPreference m
  /\ offlinePreference m' = offlinePreference m
  /\ statusChange m' = statusChange m /\ modeChange m' = modeChange m
  /\ serviceWorker m' = serviceWorker m /\ controller m' = controller m
  /\ todoApp m' = todoApp m /\ now m' = now m
  /\ storageFull m' = storageFull m.
Proof.
  cbv zeta. unfold handleNetworkChange, updateUI, triggerSync, notifyStatusChange.
  destruct m as [on mode pref sc mc st sw ctl app t evs full]. simpl.
  destruct on, mode, sw, ctl; simpl;
    rewrite ?app_nil_r, <- ?app_assoc; repeat split; reflexivity.
Qed.

(** The probe is edge-triggered.  A probe that agrees with the network
    flag changes nothing and calls nobody.  One that disagrees (a
    rejected probe counts as offline) sets the flag to its verdict, calls
    every status callback once with the new status, and posts a sync
    request exactly when the verdict is online, offline mode is off and a
    service worker controls the page. *)
Theorem checkConnectivity_edge_triggered (probe : Probe) (m : Manager) :
  let verdict := match probe with Responded ok => ok | Failed => false end in
  let m' := checkConnectivity probe m in
  (verdict = isOnline m -> m' = m)
  /\ (verdict <> isOnline m ->
      isOnline m' = verdict
      /\ offlineMode m' = offlineMode m
      /\ effects m'
         = effects m
           ++ map (fun callback =>
                     StatusChanged callback
                       (mkStatus verdict (offlineMode m)
                                 (negb verdict || offlineMode m)))
                  (statusChange m)
           ++ (if verdict && negb (offlineMode m) && serviceWorker m && controller m
               then [SyncRequest] else [])).
Proof.
  cbv zeta. unfold checkConnectivity. destruct probe as [ok|].
  - destruct (Bool.eqb ok (isOnline m)) eqn:E.
    + apply Bool.eqb_prop in E. split; [reflexivity | congruence].
    + split; [intros H; rewrite H, Bool.eqb_reflx in E; discriminate|].
      intros _. destruct (handleNetworkChange_effects (setOnline ok m))
        as (Ee & Eo & Em & _).
      rewrite Ee, Eo, Em. simpl. auto.
  - destruct (isOnline m) eqn:E.
    + split; [discriminate|]. intros _.
      destruct (handleNetworkChange_effects (setOnline false m))
        as (Ee & Eo & Em & _).
      rewrite Ee, Eo, Em. simpl. auto.
    + split; [reflexivity | congruence].
Qed.

Lemma network_run_quiet (a : Action) (m : Manager) :
  match a with Choose _ | Toggle => False | _ => True end ->
  offlineMode m = true ->
  offlineMode (run a m) = true
  /\ syncRequests (effects (run a m)) = syncRequests (effects m).
Proof.
  intros Ha Hm.
  assert (quiet : forall m0, offlineMode m0 = true ->
            offlineMode (handleNetworkChange m0) = true
            /\ syncRequests (effects (handleNetworkChange m0))
               = syncRequests (effects m0)).
  { intros m0 H0. destruct (handleNetworkChange_effects m0) as (Ee & _ & Em & _).
    rewrite Ee, Em, H0. split; [reflexivity|].
    rewrite !syncRequests_app, syncRequests_status.
    destruct (isOnline m0); unfold syncRequests; simpl; lia. }
  destruct a; simpl; try contradiction; auto.
  - apply (quiet (setOnline true m)). exact Hm.
  - apply (quiet (setOnline false m)). exact Hm.
  - unfold checkConnectivity. destruct probe as [ok|].
    + destruct (Bool.eqb ok (isOnline m));
        [auto | apply (quiet (setOnline ok m)); exact Hm].
    + destruct (isOnline m);
        [apply (quiet (setOnline false m)); exact Hm | auto].
Qed.

(** While offline mode is on, nothing the network does (online and
    offline events, probes agreeing or not) makes the manager ask the
    service worker for a sync; and switching the mode, by the dialog or
    by the toggle, never asks for one either, not even when it leaves
    offline mode with the network up. *)
Theorem offline_mode_never_requests_sync (actions : list Action) (m : Manager) :
  (Forall (fun a => match a with Choose _ | Toggle => False | _ => True end)
          actions ->
   offlineMode m = true ->
   syncRequests (effects (runAll actions m)) = syncRequests (effects m))
  /\ (forall enableOffline,
        syncRequests (effects (handleOfflineChoice enableOffline m))
        = syncRequests (effects m))
  /\ syncRequests (effects (toggleOfflineMode m)) = syncRequests (effects m).
Proof.
  split; [|split].
  - revert m. induction actions as [|a actions IH]; intros m Hall Hm; simpl.
    + reflexivity.
    + inversion Hall as [|? ? Ha Hrest]; subst.
      destruct (network_run_quiet a m Ha Hm) as (Hm' & E).
      rewrite (IH _ Hrest Hm'). exact E.
  - intros enableOffline.
    unfold handleOfflineChoice, toastIfApp, notifyModeChange, updateUI,
      registerServiceWorker.
    destruct m as [on mode pref sc mc st sw ctl app t evs full].
    destruct full, enableOffline, sw, app; simpl;
      rewrite ?syncRequests_app, ?syncRequests_mode; unfold syncRequests; simpl; lia.
  - unfold toggleOfflineMode, toastIfApp, notifyModeChange, updateUI.
    destruct m as [on mode pref sc mc st sw ctl app t evs full].
    destruct full, app; simpl;
      rewrite ?syncRequests_app, ?syncRequests_mode; unfold syncRequests; simpl; lia.
Qed.

Lemma construct_preferenceSaved (onLine : bool) (stored : Stored)
    (sw ctl app : bool) (t : Z) :
  preferenceSaved (construct onLine stored sw ctl app t)
  /\ offlinePreference (construct onLine stored sw ctl app t) = stored
  /\ storageFull (construct onLine stored sw ctl app t) = false.
Proof.
  unfold construct, preferenceSaved, loadUserPreference, showInitialModal, updateUI,
    registerServiceWorker.
  destruct stored as [| |[b ts]]; simpl.
  - split; [split; [reflexivity | discriminate] | split; reflexivity].
  - split; [split; [reflexivity | discriminate] | split; reflexivity].
  - destruct b, sw; simpl; split; eauto.
Qed.

Lemma run_preferenceSaved (a : Action) (m : Manager) :
  a <> Quota true ->
  preferenceSaved m /\ storageFull m = false ->
  preferenceSaved (run a m) /\ storageFull (run a m) = false.
Proof.
  intros Ha [P F].
  assert (net : forall m0, preferenceSaved m0 /\ storageFull m0 = false ->
            preferenceSaved (handleNetworkChange m0)
            /\ storageFull (handleNetworkChange m0) = false).
  { intros m0 [P0 F0]. destruct (handleNetworkChange_effects m0)
      as (_ & _ & Em & Eu & Es & _ & _ & _ & _ & _ & _ & Ef).
    unfold preferenceSaved in *. now rewrite Em, Eu, Es, Ef. }
  destruct a; unfold run; [| | | | |now split..|].
  - apply net. now split.
  - apply net. now split.
  - unfold checkConnectivity. destruct probe as [ok|].
    + destruct (Bool.eqb ok (isOnline m)); [now split | apply net; now split].
    + destruct (isOnline m) eqn:E; [apply net; now split | now split].
  - unfold handleOfflineChoice, toastIfApp, notifyModeChange, updateUI,
      registerServiceWorker, preferenceSaved.
    destruct m as [on mode pref sc mc st sw ctl app t evs full].
    simpl in F. subst full.
    destruct enableOffline, sw, app; simpl; eauto.
  - unfold toggleOfflineMode, toastIfApp, notifyModeChange, updateUI,
      preferenceSaved.
    destruct m as [on mode pref sc mc st sw ctl app t evs full].
    simpl in F. subst full.
    destruct app; simpl; eauto.
  - destruct full; [congruence|]. simpl. now split.
Qed.

(** The offline-mode choice survives a reload as long as [localStorage]
    takes every write.  After such a history, a manager constructed on
    the preference left in storage has the same offline mode and the same
    preference, and it opens the initial dialog exactly when no choice
    was ever made.  When [setItem] throws, the choice is set in memory
    only: nothing is stored, no callback runs, no toast is shown, and a
    manager constructed afterwards has the mode of the old stored
    preference, not the one just chosen. *)
Theorem preference_survives_reload (actions : list Action)
    (onLine : bool) (stored : Stored) (sw ctl app : bool) (t : Z)
    (onLine' sw' ctl' app' : bool) (t' : Z) :
  let m := runAll actions (construct onLine stored sw ctl app t) in
  let m' := construct onLine' (offlinePreference m) sw' ctl' app' t' in
  (Forall (fun a => a <> Quota true) actions ->
   offlineMode m' = offlineMode m
   /\ userPreference m' = userPreference m
   /\ (In InitialModal (effects m') <-> userPreference m = None))
  /\ (forall choice,
        storageFull m = true ->
        let chosen := handleOfflineChoice choice m in
        offlineMode chosen = choice
        /\ userPreference chosen = Some choice
        /\ offlinePreference chosen = offlinePreference m
        /\ effects chosen = effects m
        /\ construct onLine' (offlinePreference chosen) sw' ctl' app' t' = m').
Proof.
  cbv zeta. split.
  - intros Hall.
    assert (P : preferenceSaved
                  (runAll actions (construct onLine stored sw ctl app t))).
    { destruct (construct_preferenceSaved onLine stored sw ctl app t)
        as (P0 & _ & F0).
      generalize (conj P0 F0). clear P0 F0.
      generalize (construct onLine stored sw ctl app t).
      induction Hall as [|a actions Ha Hall IH]; intros m0 PF; simpl;
        [exact (proj1 PF)|].
      apply IH. now apply run_preferenceSaved. }
    revert P. generalize (runAll actions (construct onLine stored sw ctl app t)).
    intros m P. unfold preferenceSaved in P.
    unfold construct, loadUserPreference, showInitialModal, updateUI,
      registerServiceWorker.
    destruct (userPreference m) as [mode|].
    + destruct P as (Em & ts & Es). rewrite Es, Em. simpl.
      destruct mode, sw'; simpl; repeat split; try discriminate;
        intros H; repeat destruct H as [H|H]; try discriminate; contradiction.
    + destruct P as (Em & Es). rewrite Em.
      destruct (offlinePreference m) as [| |p]; [| |now destruct (Es p)]; simpl;
        repeat split; auto.
  - generalize (runAll actions (construct onLine stored sw ctl app t)).
    intros m choice F. unfold handleOfflineChoice.
    destruct m as [on mode pref sc mc st sw0 ctl0 app0 t0 evs full].
    simpl in F. subst full. simpl. auto.
Qed.

Lemma preference_survives_reload_witness :
  let m := OfflineManager.runAll [Choose true; Quota true]
             (construct true NoItem true true true 10) in
  offlineMode (construct true (offlinePreference m) true true true 20) = true
  /\ offlineMode (handleOfflineChoice false m) = false
  /\ offlineMode (construct true (offlinePreference (handleOfflineChoice false m))
                            true true true 20) = true.
Proof.
  cbv zeta.
  destruct (preference_survives_reload [Choose true; Quota true]
              true NoItem true true true 10 true true true true 20)
    as [_ Hfull].
  destruct (Hfull false eq_refl) as (Hm & _ & _ & _ & Hc).
  split; [reflexivity|]. split; [exact Hm|]. rewrite Hc. reflexivity.
Defined.
End Offline.

(** ** The service worker: caches *)

Section WorkerCaches.
Import ServiceWorker.
Variable origin : string.

Lemma cacheMatch_put_same (u : string) (r : Response) (cache : Cache) :
  cacheMatch u (cachePut u r cache) = Some r.
Proof.
  unfold cacheMatch, cachePut.
  induction cache as [|[v s] cache IH]; simpl.
  - now rewrite String.eqb_refl.
  - destruct (v =? u)%string eqn:E; simpl; [exact IH|]. now rewrite E.
Qed.

Lemma cacheMatch_put_other (u v : string) (r : Response) (cache : Cache) :
  cacheMatch v cache <> None -> cacheMatch v (cachePut u r cache) <> None.
Proof.
  destruct (String.eqb_spec u v) as [->|N].
  - intros _. now rewrite cacheMatch_put_same.
  - unfold cacheMatch, cachePut.
    induction cache as [|[x s] cache IH]; simpl; [congruence|].
    destruct (String.eqb_spec x v) as [->|Nx].
    + intros _. apply not_eq_sym in N. apply String.eqb_neq in N. rewrite N.
      simpl. rewrite String.eqb_refl. discriminate.
    + intros H. destruct (x =? u)%string; simpl; [now apply IH|].
      apply String.eqb_neq in Nx. rewrite Nx. now apply IH.
Qed.

Lemma cachesHas_open (name : string) (caches : CacheStorage) :
  cachesHas name (cachesOpen name caches) = true.
Proof.
  unfold cachesOpen. destruct (cachesHas name caches) eqn:E; [exact E|].
  unfold cachesHas. rewrite existsb_app. simpl.
  now rewrite String.eqb_refl, orb_true_r.
Qed.

Lemma cachesMatch_open (name u : string) (caches : CacheStorage) :
  cachesMatch u (cachesOpen name caches) = cachesMatch u caches.
Proof.
  unfold cachesOpen. destruct (cachesHas name caches); [reflexivity|].
  induction caches as [|[n c] caches IH]; simpl; [reflexivity|].
  now destruct (cacheMatch u c).
Qed.

(** After a write of [u] to a cache that exists, a URL that no cache
    held is found with the response written. *)
Lemma cachesMatch_after_put (name u : string) (r : Response) (caches : CacheStorage) :
  cachesHas name caches = true ->
  cachesMatch u caches = None ->
  cachesMatch u (inCache name (cachePut u r) caches) = Some r.
Proof.
  induction caches as [|[n c] caches IH]; simpl; [discriminate|].
  destruct (cacheMatch u c) eqn:M; [discriminate|].
  intros H N. destruct (n =? name)%string eqn:E; simpl.
  - now rewrite cacheMatch_put_same.
  - rewrite M. now apply IH.
Qed.

(** A URL held by the cache called [name] is found by [caches.match]. *)
Lemma cachesMatch_held (name u : string) (cache : Cache) (caches : CacheStorage) :
  In (name, cache) caches -> cacheMatch u cache <> None ->
  cachesMatch u caches <> None.
Proof.
  induction caches as [|[n c] caches IH]; simpl; [contradiction|].
  intros [E|H] M.
  - inversion E; subst. destruct (cacheMatch u cache); congruence.
  - destruct (cacheMatch u c); [discriminate | now apply IH].
Qed.

Lemma prefix_app (p s t : string) :
  String.prefix p s = true -> String.prefix p (s ++ t) = true.
Proof.
  revert p. induction s as [|b s IH]; intros p H; destruct p as [|a p];
    simpl in *; try discriminate.
  - now destruct t.
  - reflexivity.
  - destruct (Ascii.ascii_dec a b); [now apply IH | discriminate].
Qed.

(** What the worker answers without the network.  A request that is not
    a GET, or whose URL does not start with [http], is left to the
    browser and changes no cache.  A GET for a URL some cache holds is
    answered from the cache whatever the network would say, and changes
    no cache.  A GET that no cache holds, with the network down, gets the
    cached [/index.html] when it is a navigation (nothing at all when
    that page is not cached) and the 503 [Offline] response otherwise;
    no cache changes. *)
Theorem onFetch_without_network (network : string -> option Response)
    (request : Request) (caches : CacheStorage) :
  (method request <> "GET" \/ String.prefix "http" (url request) = false ->
   onFetch origin network request caches = (NotHandled, caches))
  /\ (method request = "GET" ->
      String.prefix "http" (url request) = true ->
      (forall r,
         cachesMatch (url request) caches = Some r ->
         onFetch origin network request caches = (RespondWith (Some r), caches))
      /\ (cachesMatch (url request) caches = None ->
          network (url request) = None ->
          onFetch origin network request caches
          = (RespondWith
               (if (mode request =? "navigate")%string
                then cachesMatch (origin ++ "/index.html") caches
                else Some offlineResponse),
             caches))).
Proof.
  unfold onFetch. split.
  - intros [H|H].
    + apply String.eqb_neq in H. now rewrite H.
    + destruct (method request =? "GET")%string; simpl; [|reflexivity].
      now rewrite H.
  - intros Hm Hp. rewrite Hm, Hp. simpl. split.
    + intros r Hr. now rewrite Hr.
    + intros Hc Hn. rewrite Hc, Hn.
      now destruct (mode request =? "navigate")%string.
Qed.

(** A page fetched once is there afterwards.  When no cache holds the
    URL of a GET and the network answers 200 with a basic response, the
    worker passes the response on and stores it; from then on the same
    URL is answered with that response, whatever the network does, and
    the caches no longer change. *)
Theorem fetched_once_then_cached (network : string -> option Response)
    (request : Request) (caches : CacheStorage) (r : Response) :
  method request = "GET" ->
  String.prefix "http" (url request) = true ->
  cachesMatch (url request) caches = None ->
  network (url request) = Some r ->
  status r = 200 ->
  type r = "basic" ->
  let caches' := snd (onFetch origin network request caches) in
  fst (onFetch origin network request caches) = RespondWith (Some r)
  /\ forall network' mode',
       onFetch origin network' (mkRequest "GET" (url request) mode') caches'
       = (RespondWith (Some r), caches').
Proof.
  intros Hm Hp Hc Hn Hs Ht. cbv zeta.
  assert (E : onFetch origin network request caches
              = (RespondWith (Some r),
                 inCache DYNAMIC_CACHE (cachePut (url request) r)
                         (cachesOpen DYNAMIC_CACHE caches))).
  { unfold onFetch. rewrite Hm, Hp, Hc, Hn, Hs, Ht. reflexivity. }
  rewrite E. simpl. split; [reflexivity|].
  intros network' mode'. unfold onFetch. simpl. rewrite Hp. simpl.
  rewrite cachesMatch_after_put; [reflexivity | apply cachesHas_open |].
  now rewrite cachesMatch_open.
Qed.
End WorkerCaches.

Section WorkerLifecycle.
Import ServiceWorker.
Variable origin : string.

Lemma filter_all {A} (l : list A) : filter (fun _ => true) l = l.
Proof. induction l as [|x l IH]; simpl; [reflexivity | now rewrite IH]. Qed.

Lemma activate_fold (names : list string) (caches : CacheStorage) :
  fold_left
    (fun caches cacheName =>
       if negb (cacheName =? STATIC_CACHE)%string
          && negb (cacheName =? DYNAMIC_CACHE)%string
       then cachesDelete cacheName caches
       else caches)
    names caches
  = filter (fun c => isCurrent c
                     || negb (existsb (fun n => (n =? fst c)%string) names))
           caches.
Proof.
  revert caches. induction names as [|a names IH]; intros caches; simpl.
  - rewrite <- (filter_all caches) at 1. apply filter_ext.
    intros c. now rewrite orb_true_r.
  - rewrite IH. clear IH.
    destruct (negb (a =? STATIC_CACHE)%string && negb (a =? DYNAMIC_CACHE)%string)
      eqn:N.
    + unfold cachesDelete.
      induction caches as [|c caches IHc]; simpl; [reflexivity|].
      destruct (String.eqb_spec (fst c) a) as [E|E]; simpl.
      * rewrite IHc. unfold isCurrent. rewrite E, String.eqb_refl. simpl.
        apply andb_prop in N. destruct N as [N1 N2].
        apply negb_true_iff in N1, N2. now rewrite N1, N2.
      * rewrite IHc. apply not_eq_sym in E. apply String.eqb_neq in E.
        now rewrite E.
    + apply filter_ext. intros c.
      destruct (String.eqb_spec a (fst c)) as [E|E]; simpl; [|reflexivity].
      unfold isCurrent. rewrite <- E.
      destruct (a =? STATIC_CACHE)%string, (a =? DYNAMIC_CACHE)%string;
        simpl in *; congruence.
Qed.

(** Activation deletes every cache but the two of the current version,
    and leaves those two, their order and their content as they are; a
    second activation changes nothing more. *)
Theorem activate_keeps_current_caches (caches : CacheStorage) :
  activate caches = filter isCurrent caches
  /\ activate (activate caches) = activate caches
  /\ (forall name,
        cachesHas name (activate caches) = true ->
        name = STATIC_CACHE \/ name = DYNAMIC_CACHE).
Proof.
  assert (E : forall caches, activate caches = filter isCurrent caches).
  { intros c0. unfold activate. rewrite activate_fold. apply filter_ext_in.
    intros c Hc.
    assert (X : existsb (fun n => (n =? fst c)%string) (map fst c0) = true).
    { apply existsb_exists. exists (fst c). split; [now apply in_map|].
      apply String.eqb_refl. }
    rewrite X. apply orb_false_r. }
  split; [apply E|]. split.
  - rewrite !E. induction caches as [|c caches IH]; simpl; [reflexivity|].
    destruct (isCurrent c) eqn:C; simpl; [|exact IH]. now rewrite C, IH.
  - intros name. rewrite E. unfold cachesHas. rewrite existsb_exists.
    intros (c & Hin & Hn). apply filter_In in Hin. destruct Hin as [_ C].
    apply String.eqb_eq in Hn. subst name.
    unfold isCurrent in C. apply orb_prop in C.
    destruct C as [C|C]; apply String.eqb_eq in C; auto.
Qed.

Lemma fetchAll_all_ok (network : string -> option Response) (urls : list string) :
  (forall u, In u urls -> exists r, network u = Some r /\ ok r = true) ->
  exists entries, fetchAll network urls = Some entries /\ map fst entries = urls.
Proof.
  induction urls as [|u urls IH]; intros H; simpl.
  - now exists [].
  - destruct (H u (or_introl eq_refl)) as (r & Hr & Hok).
    destruct IH as (entries & E & M); [intros v Hv; apply H; now right|].
    rewrite Hr, E, Hok. exists ((u, r) :: entries). simpl. now rewrite M.
Qed.

Lemma fetchAll_one_bad (network : string -> option Response) (urls : list string)
    (u : string) :
  In u urls ->
  (network u = None \/ exists r, network u = Some r /\ ok r = false) ->
  fetchAll network urls = None.
Proof.
  induction urls as [|v urls IH]; simpl; [contradiction|].
  intros [->|Hin] Hbad.
  - destruct Hbad as [N|(r & Hr & Hok)].
    + now rewrite N.
    + rewrite Hr, Hok. now destruct (fetchAll network urls).
  - rewrite (IH Hin Hbad). now destruct (network v).
Qed.

Lemma putAll_keeps (entries : list (string * Response)) (cache : Cache) (u : string) :
  cacheMatch u cache <> None -> cacheMatch u (putAll entries cache) <> None.
Proof.
  revert cache. induction entries as [|[v r] entries IH]; intros cache H; simpl.
  - exact H.
  - apply IH. now apply cacheMatch_put_other.
Qed.

Lemma putAll_holds (entries : list (string * Response)) (cache : Cache) (u : string) :
  In u (map fst entries) -> cacheMatch u (putAll entries cache) <> None.
Proof.
  revert cache. induction entries as [|[v r] entries IH]; intros cache; simpl.
  - contradiction.
  - intros [->|H].
    + apply putAll_keeps. rewrite cacheMatch_put_same. discriminate.
    + now apply IH.
Qed.

Lemma inCache_named (name : string) (f : Cache -> Cache) (caches : CacheStorage) :
  cachesHas name caches = true ->
  exists cache, In (name, f cache) (inCache name f caches).
Proof.
  unfold cachesHas. rewrite existsb_exists. intros ([n c] & Hin & E).
  simpl in E. apply String.eqb_eq in E. subst n.
  exists c. unfold inCache. apply in_map_iff. exists (name, c).
  simpl. now rewrite String.eqb_refl.
Qed.

(** Installation is all or nothing, and what it stores works offline.
    When every static file is fetched with an [ok] response, each of them
    is afterwards answered from the cache, whatever the network does.
    When one file is missing or not [ok], the install stores no file:
    the caches are as before, but for an empty static cache. *)
Theorem install_all_or_nothing (network : string -> option Response)
    (caches : CacheStorage) :
  String.prefix "http" origin = true ->
  ((forall path, In path STATIC_FILES ->
                 exists r, network (origin ++ path)%string = Some r /\ ok r = true) ->
   forall path network' mode',
     In path STATIC_FILES ->
     exists r,
       onFetch origin network' (mkRequest "GET" (origin ++ path) mode')
               (install origin network caches)
       = (RespondWith (Some r), install origin network caches))
  /\ (forall path,
        In path STATIC_FILES ->
        (network (origin ++ path)%string = None
         \/ exists r, network (origin ++ path)%string = Some r /\ ok r = false) ->
        install origin network caches = cachesOpen STATIC_CACHE caches).
Proof.
  intros Hp. split.
  - intros Hall path network' mode' Hin.
    destruct (fetchAll_all_ok network
                (map (fun p => (origin ++ p)%string) STATIC_FILES))
      as (entries & E & M).
    { intros u Hu. apply in_map_iff in Hu. destruct Hu as (p & <- & Hp').
      now apply Hall. }
    assert (Hm : cachesMatch (origin ++ path)
                   (install origin network caches) <> None).
    { unfold install. rewrite E.
      destruct (inCache_named STATIC_CACHE (putAll entries)
                  (cachesOpen STATIC_CACHE caches) (cachesHas_open _ _))
        as (cache & Hc).
      apply (cachesMatch_held STATIC_CACHE _ _ _ Hc).
      apply putAll_holds. rewrite M.
      apply in_map_iff. now exists path. }
    destruct (cachesMatch (origin ++ path) (install origin network caches))
      as [r|] eqn:Hr; [|congruence].
    exists r. unfold onFetch. simpl. rewrite (prefix_app _ _ _ Hp). simpl.
    now rewrite Hr.
  - intros path Hin Hbad. unfold install.
    rewrite (fetchAll_one_bad network _ (origin ++ path)); [reflexivity| |exact Hbad].
    apply in_map_iff. now exists path.
Qed.

Lemma onFetch_good (network : string -> option Response) (request : Request)
    (caches : CacheStorage) :
  onlyGoodResponses caches ->
  onlyGoodResponses (snd (onFetch origin network request caches)).
Proof.
  intros G. unfold onFetch.
  destruct (negb (method request =? "GET")%string); [exact G|].
  destruct (negb (String.prefix "http" (url request))); [exact G|].
  destruct (cachesMatch (url request) caches); [exact G|].
  destruct (network (url request)) as [r|];
    [|destruct (mode request =? "navigate")%string; exact G].
  destruct (status r =? 200) eqn:S; simpl; [|exact G].
  destruct (type r =? "basic")%string eqn:T; simpl; [|exact G].
  apply Z.eqb_eq in S. apply String.eqb_eq in T.
  intros name cache u r0 Hin Hu.
  unfold inCache in Hin. apply in_map_iff in Hin.
  destruct Hin as ([n c] & E & Hc). simpl in E.
  assert (Gc : forall v s, In (v, s) c -> status s = 200 /\ type s = "basic").
  { unfold cachesOpen in Hc. destruct (cachesHas DYNAMIC_CACHE caches).
    - intros v s Hv. exact (G n c v s Hc Hv).
    - apply in_app_or in Hc. destruct Hc as [Hc|[Hc|[]]].
      + intros v s Hv. exact (G n c v s Hc Hv).
      + inversion Hc; subst. intros v s []. }
  destruct (n =? DYNAMIC_CACHE)%string; inversion E; subst.
  - unfold cachePut in Hu. apply in_app_or in Hu. destruct Hu as [Hu|[Hu|[]]].
    + apply filter_In in Hu. destruct Hu as [Hu _]. exact (Gc _ _ Hu).
    + inversion Hu; subst. auto.
  - exact (Gc _ _ Hu).
Qed.

(** The fetch handler stores only what it may: if every cached response
    has status 200 and type [basic], so has every cached response after
    any series of fetch events, whatever the network answered. *)
Theorem fetches_store_only_good_responses
    (events : list ((string -> option Response) * Request))
    (caches : CacheStorage) :
  onlyGoodResponses caches ->
  onlyGoodResponses (afterFetches origin events caches).
Proof.
  revert caches. unfold afterFetches.
  induction events as [|[network request] events IH]; intros caches G; simpl.
  - exact G.
  - apply IH. now apply onFetch_good.
Qed.
End WorkerLifecycle.

Section WorkerLifecycleExamples.
Import ServiceWorker.

Lemma fetched_once_then_cached_witness :
  let page := mkResponse 200 "OK" "basic" "<html>" in
  let network := fun u : string => if (u =? "http://x/a")%string then Some page else None in
  let request := mkRequest "GET" "http://x/a" "navigate" in
  (method request = "GET" /\ String.prefix "http" (url request) = true
   /\ cachesMatch (url request) [] = None /\ network (url request) = Some page
   /\ status page = 200 /\ type page = "basic")
  /\ onFetch "http://x" (fun _ => None) request
       (snd (onFetch "http://x" network request []))
     = (RespondWith (Some page), snd (onFetch "http://x" network request [])).
Proof.
  cbv zeta. split; [repeat split; reflexivity|].
  apply (fetched_once_then_cached "http://x"
           (fun u : string =>
              if (u =? "http://x/a")%string
              then Some (mkResponse 200 "OK" "basic" "<html>") else None)
           (mkRequest "GET" "http://x/a" "navigate") []
           (mkResponse 200 "OK" "basic" "<html>")); reflexivity.
Defined.

Lemma install_all_or_nothing_witness :
  String.prefix "http" "http://x" = true
  /\ install "http://x" (fun _ => None) [] = cachesOpen STATIC_CACHE [].
Proof.
  split; [reflexivity|].
  refine (proj2 (install_all_or_nothing "http://x" (fun _ => None) [] eq_refl)
                "/" (or_introl eq_refl) (or_introl eq_refl)).
Defined.

Lemma fetches_store_only_good_responses_witness :
  let bad := mkResponse 404 "Not Found" "basic" "" in
  let events := [(fun _ : string => Some bad, mkRequest "GET" "http://x/a" "cors")] in
  onlyGoodResponses []
  /\ onlyGoodResponses (afterFetches "http://x" events []).
Proof.
  cbv zeta.
  assert (G : onlyGoodResponses []) by (intros name cache u r []).
  split; [exact G|].
  apply (fetches_store_only_good_responses "http://x"
           [(fun _ : string => Some (mkResponse 404 "Not Found" "basic" ""),
             mkRequest "GET" "http://x/a" "cors")] [] G).
Defined.
End WorkerLifecycleExamples.

Section BackgroundSync.
Import ServiceWorker.

(** With the queue read, the store is there, and so every removal
    settles: the loop comes to its end. *)
Lemma syncEach_log (items : list SyncItem.t) (w : Worker) :
  store w <> None ->
  fst (syncEach items w) = true
  /\ store (snd (syncEach items w)) <> None
  /\ clients (snd (syncEach items w)) = clients w
  /\ posted (snd (syncEach items w)) = posted w
  /\ synced (snd (syncEach items w)) = synced w ++ items.
Proof.
  revert w. induction items as [|item items IH]; intros w Hs; simpl.
  - rewrite app_nil_r. auto.
  - unfold removePendingSyncItem, request, syncSingleItem. simpl.
    destruct (store w) as [queue|] eqn:Q; [|congruence].
    destruct (hd None (idbFaults w)); simpl;
      [|destruct (hd None (tl (idbFaults w))); simpl];
      match goal with
      | |- context [syncEach items ?w1] =>
          destruct (IH w1) as (F & S & C & P & Y);
          [simpl; rewrite ?Q; discriminate|];
          rewrite F, C, P, Y; simpl; rewrite <- app_assoc; auto
      end.
Qed.

Lemma syncEach_subset (items : list SyncItem.t) (w : Worker) (x : SyncItem.t) :
  In x (pendingSync (snd (syncEach items w))) -> In x (pendingSync w).
Proof.
  revert w. induction items as [|item items IH]; intros w; simpl; [auto|].
  unfold removePendingSyncItem, request, syncSingleItem, pendingSync. simpl.
  destruct (hd None (idbFaults w)); simpl; [apply IH|].
  destruct (store w) as [queue|] eqn:Q; simpl; [|intros []].
  destruct (hd None (tl (idbFaults w))); simpl; intros H; apply IH in H;
    unfold pendingSync in H; simpl in H; [exact H|].
  unfold ObjectStore.delete in H. apply filter_In in H. tauto.
Qed.

Lemma syncEach_served (items : list SyncItem.t) (w : Worker) :
  idbFaults w = [] ->
  pendingSync (snd (syncEach items w))
  = filter (fun x => negb (existsb (fun i => (SyncItem.id x =? SyncItem.id i)%string)
                                   items))
           (pendingSync w).
Proof.
  revert w. induction items as [|item items IH]; intros w F; simpl.
  - symmetry. apply filter_all.
  - unfold removePendingSyncItem, request, syncSingleItem. simpl.
    rewrite F. simpl.
    destruct (store w) as [queue|] eqn:Q; simpl.
    + rewrite IH by reflexivity. unfold pendingSync. simpl. rewrite Q.
      unfold ObjectStore.delete. clear Q.
      induction queue as [|x l IHl]; simpl; [reflexivity|].
      destruct (SyncItem.id x =? SyncItem.id item)%string; simpl; [exact IHl|].
      now rewrite IHl.
    + unfold pendingSync. simpl. now rewrite Q.
Qed.

Lemma syncEach_refused (items : list SyncItem.t) (reasons : list string) (w : Worker) :
  idbFaults w = map Some reasons ->
  (length items <= length reasons)%nat ->
  pendingSync (snd (syncEach items w)) = pendingSync w.
Proof.
  revert reasons w.
  induction items as [|item items IH]; intros reasons w F L; simpl; [reflexivity|].
  destruct reasons as [|reason reasons]; simpl in L; [lia|].
  unfold removePendingSyncItem, request, syncSingleItem. simpl.
  rewrite F. simpl.
  rewrite (IH reasons); [reflexivity|reflexivity|lia].
Qed.

(** Background sync that cannot read the queue.  When the request that
    opens the database fails, or the store is there and the request that
    reads it fails, no item is handed to the server or removed, and every
    client is told of the failure with the error.  When the database
    opens but has no [pendingSync] store, the read never settles: nothing
    is handed over and no client is ever told anything. *)
Theorem worker_sync_read_failure (w : Worker) (reason : string) :
  hd None (idbFaults w) = Some reason
  \/ (hd None (idbFaults w) = None /\ store w <> None
      /\ hd None (tl (idbFaults w)) = Some reason) ->
  (pendingSync (syncTasks w) = pendingSync w
   /\ synced (syncTasks w) = synced w
   /\ posted (syncTasks w)
      = posted w ++ map (fun client => (client, SYNC_COMPLETE false (Some reason)))
                        (clients w))
  /\ forall w0,
       hd None (idbFaults w0) = None -> store w0 = None ->
       fst (getPendingSyncData w0) = Never
       /\ synced (syncTasks w0) = synced w0
       /\ posted (syncTasks w0) = posted w0.
Proof.
  intros H. split.
  - unfold syncTasks, getPendingSyncData, request, pendingSync.
    destruct H as [H|(H1 & Hs & H2)].
    + rewrite H. simpl. auto.
    + rewrite H1. simpl. destruct (store w) as [items|]; [|congruence].
      rewrite H2. simpl. auto.
  - intros w0 H0 Hs. unfold syncTasks, getPendingSyncData, request.
    rewrite H0. simpl. rewrite Hs. simpl. auto.
Qed.

Lemma worker_sync_read_failure_witness :
  let w := mkWorker (Some [Samples.op1]) [None; Some "AbortError"]
                    [1%nat; 2%nat] [] [] in
  pendingSync (syncTasks w) = [Samples.op1]
  /\ synced (syncTasks w) = []
  /\ posted (syncTasks w)
     = [(1%nat, SYNC_COMPLETE false (Some "AbortError"));
        (2%nat, SYNC_COMPLETE false (Some "AbortError"))].
Proof.
  refine (proj1 (worker_sync_read_failure
           (mkWorker (Some [Samples.op1]) [None; Some "AbortError"]
                     [1%nat; 2%nat] [] [])
           "AbortError" (or_intror (conj eq_refl (conj _ eq_refl))))).
  discriminate.
Defined.

Lemma syncTasks_read_ok (w : Worker) :
  hd None (idbFaults w) = None ->
  hd None (tl (idbFaults w)) = None ->
  store w <> None ->
  let w1 := mkWorker (store w) (tl (tl (idbFaults w))) (clients w)
                     (posted w) (synced w) in
  syncTasks w = match pendingSync w with
                | [] => w1
                | _ => postToAll (SYNC_COMPLETE true None)
                                 (snd (syncEach (pendingSync w) w1))
                end.
Proof.
  intros H1 H2 Hs. unfold syncTasks, getPendingSyncData, request, pendingSync.
  rewrite H1. simpl. destruct (store w) as [items|] eqn:Q; [|congruence].
  rewrite H2. simpl. destruct items as [|item items]; [reflexivity|].
  set (w1 := mkWorker (Some (item :: items)) (tl (tl (idbFaults w))) (clients w)
                      (posted w) (synced w)).
  destruct (syncEach_log (item :: items) w1) as (F & _); [discriminate|].
  destruct (syncEach (item :: items) w1) as [b w2]. simpl in F. now subst b.
Qed.

Lemma syncTasks_no_store (w : Worker) :
  hd None (idbFaults w) = None ->
  store w = None ->
  syncTasks w
  = mkWorker None (tl (idbFaults w)) (clients w) (posted w) (synced w).
Proof.
  intros H1 Hs. unfold syncTasks, getPendingSyncData, request.
  rewrite H1. simpl. now rewrite Hs.
Qed.

(** Background sync that reads the queue hands every pending item to the
    server step, once and in queue order, adds nothing to the queue, and
    posts a message only when the queue was not empty: then one success
    message per client, whatever became of the removals. *)
Theorem worker_sync_hands_over_queue (w : Worker) :
  hd None (idbFaults w) = None ->
  hd None (tl (idbFaults w)) = None ->
  synced (syncTasks w) = synced w ++ pendingSync w
  /\ (forall item, In item (pendingSync (syncTasks w)) -> In item (pendingSync w))
  /\ posted (syncTasks w)
     = posted w ++ match pendingSync w with
                   | [] => []
                   | _ => map (fun client => (client, SYNC_COMPLETE true None))
                              (clients w)
                   end.
Proof.
  intros H1 H2. destruct (store w) as [items|] eqn:Q.
  - rewrite (syncTasks_read_ok w H1 H2) by (rewrite Q; discriminate). cbv zeta.
    set (w1 := mkWorker (store w) (tl (tl (idbFaults w))) (clients w)
                        (posted w) (synced w)).
    destruct (syncEach_log (pendingSync w) w1) as (_ & _ & C & P & S);
      [unfold w1; simpl; rewrite Q; discriminate|].
    pose proof (syncEach_subset (pendingSync w) w1) as I.
    assert (E1 : pendingSync w1 = pendingSync w) by reflexivity.
    destruct (pendingSync w) as [|item rest].
    + simpl. rewrite !app_nil_r. split; [reflexivity|]. split; [|reflexivity].
      intros x Hx. now rewrite E1 in Hx.
    + remember (snd (syncEach (item :: rest) w1)) as w2 eqn:E.
      unfold postToAll. unfold pendingSync at 1. cbn [store synced posted].
      rewrite C, P, S. split; [reflexivity|]. split; [|reflexivity].
      intros x Hx. rewrite <- E1. apply I. exact Hx.
  - rewrite (syncTasks_no_store w H1 Q). unfold pendingSync. simpl. rewrite Q.
    rewrite !app_nil_r. repeat split; auto.
Qed.

Lemma worker_sync_hands_over_queue_witness :
  let w := mkWorker (Some [Samples.op1]) [] [7%nat] [] [] in
  synced (syncTasks w) = [Samples.op1]
  /\ posted (syncTasks w) = [(7%nat, SYNC_COMPLETE true None)].
Proof.
  cbv zeta.
  destruct (worker_sync_hands_over_queue
              (mkWorker (Some [Samples.op1]) [] [7%nat] [] []) eq_refl eq_refl)
    as (S & _ & P).
  split; [exact S | exact P].
Defined.

(** Background sync with a database that serves every request leaves the
    pending queue empty. *)
Theorem worker_sync_empties_queue (w : Worker) :
  idbFaults w = [] ->
  pendingSync (syncTasks w) = [].
Proof.
  intros F. destruct (store w) as [items|] eqn:Q.
  - rewrite (syncTasks_read_ok w)
      by (rewrite ?F, ?Q; reflexivity || discriminate).
    cbv zeta. rewrite F. simpl tl.
    set (w1 := mkWorker (store w) [] (clients w) (posted w) (synced w)).
    assert (G : forall l l', incl l' l ->
              filter (fun x => negb (existsb
                        (fun i => (SyncItem.id x =? SyncItem.id i)%string) l)) l'
              = []).
    { intros l. induction l' as [|x l' IH]; intros I; simpl; [reflexivity|].
      assert (X : existsb (fun i => (SyncItem.id x =? SyncItem.id i)%string) l
                  = true).
      { apply existsb_exists. exists x. split; [apply I; now left|].
        apply String.eqb_refl. }
      rewrite X. simpl. apply IH. intros y Hy. apply I. now right. }
    assert (E : pendingSync (snd (syncEach (pendingSync w) w1)) = []).
    { rewrite syncEach_served by reflexivity. apply G, incl_refl. }
    destruct (pendingSync w) as [|item rest] eqn:P.
    + unfold w1, pendingSync in *. simpl. exact P.
    + exact E.
  - rewrite (syncTasks_no_store w) by (rewrite ?F; assumption || reflexivity).
    reflexivity.
Qed.

Lemma worker_sync_empties_queue_witness :
  pendingSync (syncTasks (mkWorker (Some [Samples.op1]) [] [7%nat] [] [])) = [].
Proof.
  exact (worker_sync_empties_queue
           (mkWorker (Some [Samples.op1]) [] [7%nat] [] []) eq_refl).
Defined.

(** Background sync reports success although nothing was removed: when
    the queue is read and then every removal is refused, the queue is as
    before and each client still gets the success message. *)
Theorem worker_sync_success_with_failed_removals (w : Worker) (reasons : list string) :
  idbFaults w = None :: None :: map Some reasons ->
  (length (pendingSync w) <= length reasons)%nat ->
  pendingSync w <> [] ->
  pendingSync (syncTasks w) = pendingSync w
  /\ posted (syncTasks w)
     = posted w ++ map (fun client => (client, SYNC_COMPLETE true None)) (clients w).
Proof.
  intros F L N.
  assert (Hs : store w <> None).
  { intros Q. apply N. unfold pendingSync. now rewrite Q. }
  rewrite (syncTasks_read_ok w) by (rewrite ?F; reflexivity || assumption).
  cbv zeta. rewrite F. simpl tl.
  set (w1 := mkWorker (store w) (map Some reasons) (clients w)
                      (posted w) (synced w)).
  destruct (syncEach_log (pendingSync w) w1 Hs) as (_ & _ & C & P & _).
  pose proof (syncEach_refused (pendingSync w) reasons w1 eq_refl L) as R.
  assert (E1 : pendingSync w1 = pendingSync w) by reflexivity.
  destruct (pendingSync w) as [|item items] eqn:Q; [congruence|].
  remember (snd (syncEach (item :: items) w1)) as w2 eqn:E.
  unfold postToAll. cbn [posted]. rewrite C, P.
  split; [|reflexivity].
  change (pendingSync w2 = item :: items). now rewrite R, E1.
Qed.

Lemma worker_sync_success_with_failed_removals_witness :
  let w := mkWorker (Some [Samples.op1]) [None; None; Some "QuotaExceededError"]
                    [7%nat] [] [] in
  pendingSync (syncTasks w) = [Samples.op1]
  /\ posted (syncTasks w) = [(7%nat, SYNC_COMPLETE true None)].
Proof.
  refine (worker_sync_success_with_failed_removals
            (mkWorker (Some [Samples.op1]) [None; None; Some "QuotaExceededError"]
                      [7%nat] [] [])
            ["QuotaExceededError"] eq_refl _ _).
  - simpl. lia.
  - discriminate.
Defined.
End BackgroundSync.

Section StoreAccess.
Import SyncManager.
Import DrainSpec.

Lemma objectStore_set (s : StoreName) (l : list (RecordOf s)) (d : Database) :
  objectStore s (setObjectStore s l d) = l.
Proof. destruct s; reflexivity. Qed.

Lemma setObjectStore_twice (s : StoreName) (l l' : list (RecordOf s)) (d : Database) :
  setObjectStore s l' (setObjectStore s l d) = setObjectStore s l' d.
Proof. destruct s; reflexivity. Qed.

Lemma setObjectStore_same (s : StoreName) (d : Database) :
  setObjectStore s (objectStore s d) d = d.
Proof. destruct s, d; reflexivity. Qed.

Lemma requested_reliable (ev : Event) (w : World) :
  reliable w -> reliable (requested ev w).
Proof. intros H. now apply (reliable_tl w). Qed.

Lemma bulkPuts_served (s : StoreName) (l : list (RecordOf s)) (w : World)
    (d : Database) :
  db w = Some d ->
  reliable w ->
  exists w',
    bulkPuts s l w = (Resolved (map (keyPath s) l), w')
    /\ db w'
       = Some (setObjectStore s
                 (fold_left (fun store r => ObjectStore.put (keyPath s) r store) l
                            (objectStore s d)) d)
    /\ localStorage w' = localStorage w.
Proof.
  revert w d. induction l as [|r l IH]; intros w d Hd Hr.
  - exists w. simpl. unfold ret. rewrite setObjectStore_same. auto.
  - simpl. unfold bind at 1.
    destruct (idbRequest_cases (IdbPut s (keyPath s r)) w) as [(e & F & _)|(_ & E)].
    { rewrite (reliable_hd w Hr) in F. discriminate. }
    rewrite E. unfold bind at 1. unfold updateStore, modify.
    cbn [db requested log setIdbFaults]. rewrite Hd.
    set (w1 := setDb _ _).
    destruct (IH w1 (setObjectStore s
                       (ObjectStore.put (keyPath s) r (objectStore s d)) d))
      as (w' & B & D & L).
    { reflexivity. }
    { unfold w1. apply (reliable_tl w); [exact Hr | reflexivity]. }
    exists w'. unfold bind, ret. rewrite B. split; [reflexivity|].
    rewrite D, objectStore_set, setObjectStore_twice. split; [reflexivity|].
    rewrite L. reflexivity.
Qed.

(** Saving an array never reports back.  On a closed database the call
    is rejected at once; on an open one the promise stays pending for
    ever, although with every request served each record of the array
    has been put, in order. *)
Theorem bulk_save_never_resolves (s : StoreName) (l : list (RecordOf s)) (w : World) :
  (forall key, fst (saveToIndexedDB s (Many l) w) <> Resolved key)
  /\ (db w = None -> saveToIndexedDB s (Many l) w = (Rejected NotInitialized, w))
  /\ (forall d, db w = Some d -> reliable w ->
        fst (saveToIndexedDB s (Many l) w) = Pending
        /\ db (snd (saveToIndexedDB s (Many l) w))
           = Some (setObjectStore s
                     (fold_left (fun store r => ObjectStore.put (keyPath s) r store) l
                                (objectStore s d)) d)).
Proof.
  split; [|split].
  - intros key. unfold saveToIndexedDB.
    destruct (db w); [|discriminate]. now destruct (bulkSave s l w).
  - intros Hd. unfold saveToIndexedDB. now rewrite Hd.
  - intros d Hd Hr.
    destruct (bulkPuts_served s l w d Hd Hr) as (w' & B & D & _).
    unfold saveToIndexedDB, bulkSave. rewrite Hd, B. simpl. auto.
Qed.

Lemma load_with_served (s : StoreName) (key : option string) (w : World)
    (d : Database) :
  db w = Some d ->
  reliable w ->
  fst (loadFromIndexedDB_with s key w)
  = Resolved
      (match key with
       | Some k =>
           if negb (k =? "")%string
           then Got (ObjectStore.get (keyPath s) k (objectStore s d))
           else GotAll (objectStore s d)
       | None => GotAll (objectStore s d)
       end).
Proof.
  intros Hd Hr. unfold loadFromIndexedDB_with, bind, ret. rewrite Hd.
  assert (step : forall ev, idbRequest ev w = (Resolved tt, requested ev w)).
  { intros ev. destruct (idbRequest_cases ev w) as [(e & F & _)|(_ & G)];
      [rewrite (reliable_hd w Hr) in F; discriminate | exact G]. }
  destruct key as [k|]; [destruct (negb (k =? "")%string)|];
    rewrite step; reflexivity.
Qed.

(** The calls the class makes are instances of the general read. *)
Lemma load_with_instances (s : StoreName) (k : string) (w : World) :
  fst (loadFromIndexedDB_with s None w)
  = match fst (loadFromIndexedDB s w) with
    | Resolved l => Resolved (GotAll l)
    | Rejected e => Rejected e
    | Pending => Pending
    end
  /\ (k <> "" ->
      fst (loadFromIndexedDB_with s (Some k) w)
      = match fst (loadFromIndexedDB_key s k w) with
        | Resolved r => Resolved (Got r)
        | Rejected e => Rejected e
        | Pending => Pending
        end).
Proof.
  unfold loadFromIndexedDB_with, loadFromIndexedDB, loadFromIndexedDB_key, bind, ret.
  split.
  - destruct (db w); [|reflexivity].
    destruct (idbRequest_cases (IdbGetAll s) w) as [(e & _ & E)|(_ & E)];
      now rewrite E.
  - intros Hk. apply String.eqb_neq in Hk. rewrite Hk. simpl.
    destruct (db w); [|reflexivity].
    destruct (idbRequest_cases (IdbGet s k) w) as [(e & _ & E)|(_ & E)];
      now rewrite E.
Qed.

(** On an open database that serves the requests, a record saved on its
    own is read back under its key, and after it is deleted the read
    finds nothing, when the key is not the empty string.  Under the
    empty key, which is falsy, the read returns the whole store instead:
    all records after the save, and all but that one after the delete. *)
Theorem save_load_delete_round_trip (s : StoreName) (r : RecordOf s) (w : World)
    (d : Database) :
  db w = Some d ->
  reliable w ->
  let key := keyPath s r in
  let saved := ObjectStore.put (keyPath s) r (objectStore s d) in
  fst ((saveToIndexedDB s (One r) ;;
        loadFromIndexedDB_with s (Some key)) w)
  = Resolved (if (key =? "")%string then GotAll saved else Got (Some r))
  /\ fst ((saveToIndexedDB s (One r) ;;
           deleteFromIndexedDB s key ;;
           loadFromIndexedDB_with s (Some key)) w)
     = Resolved (if (key =? "")%string
                 then GotAll (ObjectStore.delete (keyPath s) key saved)
                 else Got None).
Proof.
  intros Hd Hr. cbv zeta.
  destruct (save_one_cases s r w)
    as [(N & _)|[(d0 & e & _ & F & _)|(d0 & D0 & _ & E)]].
  { congruence. }
  { rewrite (reliable_hd w Hr) in F. discriminate. }
  assert (d0 = d) by congruence. subst d0.
  set (w1 := setDb (Some (setObjectStore s
                 (ObjectStore.put (keyPath s) r (objectStore s d)) d))
               (requested (IdbPut s (keyPath s r)) w)) in *.
  assert (R1 : reliable w1) by (apply (reliable_tl w); [exact Hr | reflexivity]).
  split.
  - unfold bind at 1. rewrite E.
    rewrite (load_with_served s _ w1 _ eq_refl R1). rewrite objectStore_set.
    destruct (keyPath s r =? "")%string; simpl; [reflexivity|].
    now rewrite get_put_same.
  - unfold bind at 1. rewrite E. unfold bind at 1.
    destruct (delete_cases s (keyPath s r) w1)
      as [(N & _)|[(d1 & e & _ & F & _)|(d1 & D1 & _ & G)]].
    { discriminate. }
    { rewrite (reliable_hd w1 R1) in F. discriminate. }
    rewrite G.
    assert (d1 = setObjectStore s
                   (ObjectStore.put (keyPath s) r (objectStore s d)) d)
      by (unfold w1 in D1; simpl in D1; congruence).
    subst d1.
    set (w2 := setDb _ (requested (IdbDelete s (keyPath s r)) w1)).
    assert (R2 : reliable w2) by (apply (reliable_tl w1); [exact R1 | reflexivity]).
    rewrite (load_with_served s _ w2 _ eq_refl R2).
    rewrite !objectStore_set.
    destruct (keyPath s r =? "")%string; simpl; [reflexivity|].
    now rewrite get_delete_same.
Qed.

Lemma save_load_delete_round_trip_witness :
  let w := Samples.world true (Some Samples.emptyDb) [] [] in
  fst ((saveToIndexedDB Tasks (One Samples.task1) ;;
        loadFromIndexedDB_with Tasks (Some "t1")) w)
  = Resolved (Got (Some Samples.task1))
  /\ fst ((saveToIndexedDB Tasks (One Samples.task1) ;;
           deleteFromIndexedDB Tasks "t1" ;;
           loadFromIndexedDB_with Tasks (Some "t1")) w)
     = Resolved (Got None).
Proof.
  refine (save_load_delete_round_trip Tasks Samples.task1
            (Samples.world true (Some Samples.emptyDb) [] [])
            Samples.emptyDb eq_refl _).
  constructor.
Defined.
End StoreAccess.

Section ManagerEdges.
Import SyncManager.
Import DrainSpec.

(** Mirroring the database into [localStorage] never fails and never
    touches the database.  With the database closed [localStorage] stays
    as it was.  With every read served, it receives all tasks, the names
    of all tags, and the stored theme, or [light] when none is stored,
    provided [setItem] takes the write; when [setItem] throws, the error
    is swallowed and [localStorage] stays as it was. *)
Theorem syncIndexedDBToLocalStorage_outcome (w : World) :
  fst (syncIndexedDBToLocalStorage w) = Resolved tt
  /\ db (snd (syncIndexedDBToLocalStorage w)) = db w
  /\ (db w = None ->
      localStorage (snd (syncIndexedDBToLocalStorage w)) = localStorage w)
  /\ (forall d, db w = Some d -> reliable w ->
        (hd None (lsFaults w) = None ->
         localStorage (snd (syncIndexedDBToLocalStorage w))
         = mkLocalStorage
             (Some (mkLocalData (tasks d) (map Tag.name (tags d))
                      (match ObjectStore.get Meta.key "theme" (metadata d) with
                       | Some m => Meta.value m
                       | None => "light"
                       end)))
             (ls_lastSyncTime (localStorage w)))
        /\ (hd None (lsFaults w) <> None ->
            localStorage (snd (syncIndexedDBToLocalStorage w)) = localStorage w)).
Proof.
  destruct w as [on last [d|] ls tr t atts faults lsf].
  - assert (C : fst (syncIndexedDBToLocalStorage
                       (mkWorld on last (Some d) ls tr t atts faults lsf))
                = Resolved tt
                /\ db (snd (syncIndexedDBToLocalStorage
                       (mkWorld on last (Some d) ls tr t atts faults lsf)))
                   = Some d).
    { destruct faults as [|[r1|] [|[r2|] [|[r3|] fs]]];
        destruct lsf as [|[r|] lsf]; split; reflexivity. }
    destruct C as [C1 C2].
    split; [exact C1|]. split; [exact C2|]. split; [discriminate|].
    intros d' Hd Hr. simpl in Hd. inversion Hd; subst d'.
    unfold reliable in Hr. simpl in Hr.
    destruct faults as [|f1 [|f2 [|f3 fs]]];
      repeat match goal with
             | H : Forall _ (_ :: _) |- _ => inversion H; subst; clear H
             end;
      destruct lsf as [|[r|] lsf]; simpl;
      (split; [intros G; (reflexivity || discriminate G)
              | intros G; (reflexivity || now contradiction G)]).
  - split; [reflexivity|]. split; [reflexivity|]. split; [reflexivity|].
    intros d Hd. discriminate.
Qed.

Lemma addToSyncQueue_after_save (syncId operation data entityType : string)
    (w w1 : World) (o : Outcome string) :
  saveToIndexedDB PendingSync
    (@One SyncItem.t (newSyncItem syncId operation data entityType (now w))) w
  = (o, w1) ->
  o <> Pending ->
  addToSyncQueue syncId operation data entityType w
  = (Resolved tt,
     match o with
     | Resolved _ => if isOnline w1 then snd (processSyncQueue w1) else w1
     | _ => w1
     end).
Proof.
  intros E P. unfold addToSyncQueue, tryCatch, bind.
  change (saveToIndexedDB PendingSync
            (One (newSyncItem syncId operation data entityType (now w))) w)
    with (saveToIndexedDB PendingSync
            (@One SyncItem.t (newSyncItem syncId operation data entityType (now w))) w).
  rewrite E. destruct o as [k|e|]; [|reflexivity|congruence].
  destruct (isOnline w1); [|reflexivity].
  now destruct (processSyncQueue w1).
Qed.

(** Queueing an operation never fails towards the caller.  When the
    database is closed or refuses the write, the operation is dropped and
    nothing is delivered; when the write is served while offline, the
    entry is in the queue with no retries counted, and nothing is
    delivered. *)
Theorem addToSyncQueue_swallows_store_errors
    (syncId operation data entityType : string) (w : World) :
  let after := snd (addToSyncQueue syncId operation data entityType w) in
  fst (addToSyncQueue syncId operation data entityType w) = Resolved tt
  /\ (db w = None -> after = w)
  /\ (forall reason, hd None (idbFaults w) = Some reason ->
        db after = db w /\ deliveries (trace after) = deliveries (trace w))
  /\ (forall d, db w = Some d -> hd None (idbFaults w) = None -> isOnline w = false ->
        db after
        = Some (setQueue
                  (ObjectStore.put SyncItem.id
                     (SyncItem.mk syncId operation entityType data (now w) 0 3)
                     (pendingSync d)) d)
        /\ deliveries (trace after) = deliveries (trace w)).
Proof.
  cbv zeta.
  destruct (queue_save_cases (newSyncItem syncId operation data entityType (now w)) w)
    as [(N & E)|[(d0 & e & D0 & F & E)|(d0 & D0 & F & E)]];
    rewrite (addToSyncQueue_after_save _ _ _ _ _ _ _ E) by discriminate;
    cbn [fst snd].
  - split; [reflexivity|]. split; [reflexivity|]. split.
    + intros reason _. auto.
    + intros d Hd. congruence.
  - split; [reflexivity|]. split; [congruence|]. split.
    + intros reason _. split; [reflexivity|].
      simpl. rewrite deliveries_app. simpl. now rewrite app_nil_r.
    + intros d _ H. congruence.
  - split; [reflexivity|].
    split; [congruence|]. split; [intros reason H; congruence|].
    intros d Hd _ Hoff. cbn [isOnline setDb requested log setIdbFaults].
    rewrite Hoff.
    assert (d0 = d) by congruence. subst d0.
    split; [reflexivity|].
    simpl. rewrite deliveries_app. simpl. now rewrite app_nil_r.
Qed.

(** Clearing all data is not atomic: each store is cleared in a
    transaction of its own, so when the second request fails the call is
    rejected with that error while the tasks are already gone and the
    other stores are as before. *)
Theorem clearAllData_is_not_atomic (w : World) (d : Database) (reason : string)
    (rest : list (option string)) :
  db w = Some d ->
  idbFaults w = None :: Some reason :: rest ->
  fst (clearAllData w) = Rejected (StoreError reason)
  /\ db (snd (clearAllData w))
     = Some (mkDatabase [] (tags d) (pendingSync d) (metadata d)).
Proof.
  intros Hd Hf. destruct w as [on last d' ls tr t atts faults lsf].
  simpl in Hd, Hf. subst d' faults. destruct d. split; reflexivity.
Qed.

Lemma clearAllData_is_not_atomic_witness :
  let w := Samples.world true (Some Samples.fullDb) [] [None; Some "AbortError"] in
  fst (clearAllData w) = Rejected (StoreError "AbortError")
  /\ db (snd (clearAllData w))
     = Some (mkDatabase [] [Samples.tag1] [Samples.op1; Samples.op2] [Samples.theme]).
Proof.
  exact (clearAllData_is_not_atomic
           (Samples.world true (Some Samples.fullDb) [] [None; Some "AbortError"])
           Samples.fullDb "AbortError" [] eq_refl eq_refl).
Defined.
End ManagerEdges.

Section EndpointHelpers.
Import Endpoints.

(** The two request helpers accept the same operations: one returns an
    endpoint exactly when the other returns a method.  The endpoint then
    depends on the entity type alone, and the method tells the operation. *)
Theorem endpoint_and_method_agree (operation entityType : string) :
  ((exists endpoint, getEndpointForOperation operation entityType = inr endpoint)
   <-> (exists method, getMethodForOperation operation = inr method))
  /\ (forall endpoint,
        getEndpointForOperation operation entityType = inr endpoint ->
        endpoint = ("/api/" ++ entityType ++ "s")%string)
  /\ (forall operation' method,
        getMethodForOperation operation = inr method ->
        getMethodForOperation operation' = inr method ->
        operation = operation').
Proof.
  unfold getEndpointForOperation, getMethodForOperation.
  split; [|split].
  - destruct (operation =? "create")%string; [split; eauto|].
    destruct (operation =? "update")%string; [split; eauto|].
    destruct (operation =? "delete")%string; [split; eauto|].
    split; intros [x H]; discriminate.
  - intros endpoint.
    destruct (operation =? "create")%string; [intros H; now inversion H|].
    destruct (operation =? "update")%string; [intros H; now inversion H|].
    destruct (operation =? "delete")%string; [intros H; now inversion H|].
    discriminate.
  - intros operation' method.
    destruct (String.eqb_spec operation "create") as [->|_];
      [|destruct (String.eqb_spec operation "update") as [->|_];
        [|destruct (String.eqb_spec operation "delete") as [->|_];
          [|discriminate]]];
      intros H; inversion H; subst method; clear H;
      (destruct (String.eqb_spec operation' "create") as [->|_];
       [|destruct (String.eqb_spec operation' "update") as [->|_];
         [|destruct (String.eqb_spec operation' "delete") as [->|_]]]);
      intros H; try discriminate; reflexivity.
Qed.
End EndpointHelpers.
